(** * Global History Buffer prefetcher: history helper and address generation

  A shallow embedding of [mem/cache/prefetch/ghb_history.{hh,cc}] and of
  [GHBPrefetcher::calculatePrefetch] in [mem/cache/prefetch/ghb.cc],
  followed by the properties of the predictor that are established on it.

  Conventions of the embedding:
  - fixed-width integers are [Z] with the conversions of [MachineInt]
    written at every place where the C++ code converts or may wrap;
  - [std::vector<GHBEntry>] is a [list GHBEntry]; a subscript that falls
    outside the vector has no defined behaviour in C++, and is [None] in
    the option monad here;
  - [std::unordered_map] is stdpp's [gmap]; the two-element [std::array]s
    indexed by [CorrelationKey] are pairs read with [array_get] and
    written with [array_set];
  - member functions that mutate [*this] return the new object. *)

From Stdlib Require Import ZArith List Lia.
From stdpp Require Import gmap list sorting fin_maps.

Local Open Scope Z_scope.

(** ** Fixed-width integers *)

Module MachineInt.

Definition UINT32_MOD : Z := 2 ^ 32.
Definition UINT64_MOD : Z := 2 ^ 64.
Definition INT32_MAX : Z := 2 ^ 31 - 1.
Definition UINT64_MAX : Z := 2 ^ 64 - 1.

(** conversion to [uint32_t] / [unsigned] *)
Definition to_uint32 (x : Z) : Z := x mod UINT32_MOD.
(** conversion to [uint64_t] / [Addr] *)
Definition to_uint64 (x : Z) : Z := x mod UINT64_MOD.
(** conversion to [int32_t] (two's complement) *)
Definition to_int32 (x : Z) : Z := (x + 2 ^ 31) mod UINT32_MOD - 2 ^ 31.
(** conversion to [int64_t] (two's complement) *)
Definition to_int64 (x : Z) : Z := (x + 2 ^ 63) mod UINT64_MOD - 2 ^ 63.

End MachineInt.
Import MachineInt.

(** ** Data model ([ghb_history.hh]) *)

Inductive CorrelationKey : Type := PC | Page.

Global Instance CorrelationKey_eq_dec : EqDecision CorrelationKey.
Proof. solve_decision. Defined.

Definition NumCorrelationKeys : nat := 2.

(** [static_cast<size_t>(key)] *)
Definition linkIdx (key : CorrelationKey) : nat :=
  match key with PC => 0%nat | Page => 1%nat end.

(** [std::array<A, NumCorrelationKeys>], subscripted by a key *)
Definition array_get {A : Type} (key : CorrelationKey) (a : A * A) : A :=
  match key with PC => fst a | Page => snd a end.

Definition array_set {A : Type} (key : CorrelationKey) (x : A) (a : A * A)
  : A * A :=
  match key with PC => (x, snd a) | Page => (fst a, x) end.

Record AccessInfo : Type := mkAccessInfo {
  access_addr : Z;
  access_pc : option Z
}.

Record LinkInfo : Type := mkLinkInfo {
  prev : Z;
  prevSeq : Z;
  keyValue : Z;
  keyValid : bool
}.

(** [LinkInfo{}] *)
Definition LinkInfo_default : LinkInfo :=
  {| prev := -1; prevSeq := 0; keyValue := 0; keyValid := false |}.

Record GHBEntry : Type := mkGHBEntry {
  addr : Z;
  links : LinkInfo * LinkInfo;
  seq : Z
}.

Definition GHBEntry_default : GHBEntry :=
  {| addr := 0; links := (LinkInfo_default, LinkInfo_default); seq := 0 |}.

(** [DeltaPair] is a pair [(first, second)]; its hash plays no role here. *)
Definition DeltaPair : Type := (Z * Z)%type.

(** The [unordered_map]s are modelled by their contents.  The order in
    which a real map is iterated depends on the insertions that built it
    and is not represented: two tables with the same contents are equal
    here.  [findPatternMatch] iterates [counts]; what is stated about it
    is stated for every order [std::sort] may leave equal counts in. *)
Record PatternEntry : Type := mkPatternEntry {
  counts : gmap Z Z;
  total : Z
}.

Definition PatternEntry_default : PatternEntry :=
  {| counts := ∅; total := 0 |}.

Record GHBHistory : Type := mkGHBHistory {
  historySize : Z;
  patternLength : Z;
  degree : Z;
  usePC : bool;
  pageBytes : Z;
  confidenceThreshold : Z;
  history : list GHBEntry;
  lastIndex : gmap Z Z * gmap Z Z;
  head : Z;
  filled : bool;
  sequenceCounter : Z;
  patternTable : gmap DeltaPair PatternEntry
}.

(** Field updates. *)
Definition set_history (h : list GHBEntry) (st : GHBHistory) : GHBHistory :=
  mkGHBHistory (historySize st) (patternLength st) (degree st) (usePC st)
    (pageBytes st) (confidenceThreshold st) h (lastIndex st) (head st)
    (filled st) (sequenceCounter st) (patternTable st).

Definition set_lastIndex (m : gmap Z Z * gmap Z Z) (st : GHBHistory)
  : GHBHistory :=
  mkGHBHistory (historySize st) (patternLength st) (degree st) (usePC st)
    (pageBytes st) (confidenceThreshold st) (history st) m (head st)
    (filled st) (sequenceCounter st) (patternTable st).

Definition set_head (h : Z) (st : GHBHistory) : GHBHistory :=
  mkGHBHistory (historySize st) (patternLength st) (degree st) (usePC st)
    (pageBytes st) (confidenceThreshold st) (history st) (lastIndex st) h
    (filled st) (sequenceCounter st) (patternTable st).

Definition set_filled (b : bool) (st : GHBHistory) : GHBHistory :=
  mkGHBHistory (historySize st) (patternLength st) (degree st) (usePC st)
    (pageBytes st) (confidenceThreshold st) (history st) (lastIndex st)
    (head st) b (sequenceCounter st) (patternTable st).

Definition set_sequenceCounter (c : Z) (st : GHBHistory) : GHBHistory :=
  mkGHBHistory (historySize st) (patternLength st) (degree st) (usePC st)
    (pageBytes st) (confidenceThreshold st) (history st) (lastIndex st)
    (head st) (filled st) c (patternTable st).

Definition set_patternTable (t : gmap DeltaPair PatternEntry)
  (st : GHBHistory) : GHBHistory :=
  mkGHBHistory (historySize st) (patternLength st) (degree st) (usePC st)
    (pageBytes st) (confidenceThreshold st) (history st) (lastIndex st)
    (head st) (filled st) (sequenceCounter st) t.

(** [history[i]] for an [int32_t] subscript: the subscript is converted to
    [size_t], so a negative one is out of range like one past the end. *)
Definition history_at (st : GHBHistory) (i : Z) : option GHBEntry :=
  if i <? 0 then None else history st !! Z.to_nat i.

(** Assignment through a reference to [history[i]]. *)
Definition history_store (i : Z) (e : GHBEntry) (st : GHBHistory)
  : GHBHistory :=
  set_history (<[Z.to_nat i := e]> (history st)) st.

Definition set_link (key : CorrelationKey) (l : LinkInfo) (e : GHBEntry)
  : GHBEntry :=
  {| addr := addr e; links := array_set key l (links e); seq := seq e |}.

(** ** Construction and reset *)

(** [GHBHistory::GHBHistory]; the arguments are [unsigned]. *)
Definition GHBHistory_new (history_size pattern_length degree_ : Z)
  (use_pc : bool) (page_bytes confidence_threshold : Z) : GHBHistory :=
  let historySize := Z.max 1 history_size in
  {| historySize := historySize;
     patternLength := Z.max 1 pattern_length;
     degree := Z.max 1 degree_;
     usePC := use_pc;
     pageBytes := Z.max 1 page_bytes;
     confidenceThreshold := Z.min 100 confidence_threshold;
     history := replicate (Z.to_nat historySize) GHBEntry_default;
     lastIndex := (∅, ∅);
     head := 0;
     filled := false;
     sequenceCounter := 1;
     patternTable := ∅ |}.

(** [bool empty() const] *)
Definition empty (st : GHBHistory) : bool := historySize st =? 0.

(** [GHBHistory::reset] *)
Definition reset_entry (entry : GHBEntry) : GHBEntry :=
  {| addr := 0;
     links := (LinkInfo_default, LinkInfo_default);
     seq := 0 |}.

Definition reset (st : GHBHistory) : GHBHistory :=
  {| historySize := historySize st;
     patternLength := patternLength st;
     degree := degree st;
     usePC := usePC st;
     pageBytes := pageBytes st;
     confidenceThreshold := confidenceThreshold st;
     history := map reset_entry (history st);
     lastIndex := (∅, ∅);
     head := 0;
     filled := false;
     sequenceCounter := 1;
     patternTable := ∅ |}.

(** [uint64_t computePage(Addr addr) const] *)
Definition computePage (st : GHBHistory) (a : Z) : Z := a / pageBytes st.

(** ** Insertion and the correlation indices *)

(** One iteration of the loop of [GHBHistory::removeIndexMappings]. *)
Definition removeIndexMappings_iter (slot : Z) (i : CorrelationKey)
  (st : GHBHistory) : option GHBHistory :=
  victim ← history_at st slot;
  let l := array_get i (links victim) in
  if negb (keyValid l) then Some st
  else
    let indexMap := array_get i (lastIndex st) in
    let indexMap' :=
      match indexMap !! keyValue l with
      | Some s => if s =? slot then delete (keyValue l) indexMap
                  else indexMap
      | None => indexMap
      end in
    Some (history_store slot
            (set_link i (mkLinkInfo (prev l) (prevSeq l) (keyValue l) false)
               victim)
            (set_lastIndex (array_set i indexMap' (lastIndex st)) st)).

(** [GHBHistory::removeIndexMappings] *)
Definition removeIndexMappings (slot : Z) (st : GHBHistory)
  : option GHBHistory :=
  st1 ← removeIndexMappings_iter slot PC st;
  removeIndexMappings_iter slot Page st1.

(** [GHBHistory::evictIndex] *)
Definition evictIndex (slot : Z) (st : GHBHistory) : option GHBHistory :=
  removeIndexMappings slot st.

(** [GHBHistory::assignCorrelation]; [entry] is [history[slot]]. *)
Definition assignCorrelation (slot : Z) (key : CorrelationKey) (value : Z)
  (st : GHBHistory) : option GHBHistory :=
  entry ← history_at st slot;
  let indexMap := array_get key (lastIndex st) in
  link ← match indexMap !! value with
         | Some p =>
             prev_entry ← history_at st p;
             Some {| prev := p; prevSeq := seq prev_entry;
                     keyValue := value; keyValid := true |}
         | None =>
             Some {| prev := -1; prevSeq := 0;
                     keyValue := value; keyValid := true |}
         end;
  Some (set_lastIndex
          (array_set key (<[value := slot]> indexMap) (lastIndex st))
          (history_store slot (set_link key link entry) st)).

(** [GHBHistory::insert]: the new object and the returned slot. *)
Definition insert (access : AccessInfo) (st : GHBHistory)
  : option (GHBHistory * Z) :=
  if historySize st =? 0 then Some (st, -1)
  else
    st1 ← (if filled st then evictIndex (head st) st else Some st);
    let slot := head st1 in
    entry ← history_at st1 slot;
    let st2 :=
      set_sequenceCounter (to_uint64 (sequenceCounter st1 + 1))
        (history_store slot
           {| addr := access_addr access;
              links := links entry;
              seq := sequenceCounter st1 |} st1) in
    st3 ← match usePC st2, access_pc access with
          | true, Some pc => assignCorrelation slot PC pc st2
          | _, _ =>
              entry2 ← history_at st2 slot;
              Some (history_store slot (set_link PC LinkInfo_default entry2)
                      st2)
          end;
    st4 ← assignCorrelation slot Page (computePage st3 (access_addr access))
            st3;
    let head' :=
      to_int32 (to_uint32 (to_int32 (head st4 + 1)) mod historySize st4) in
    let st5 := set_head head' st4 in
    let st6 := if head' =? 0 then set_filled true st5 else st5 in
    Some (st6, slot).

(** ** Pattern builder *)

(** Signed difference of two [Addr] values as written in [buildPattern]:
    [static_cast<int64_t>(a) - static_cast<int64_t>(b)]. *)
Definition delta_of (a b : Z) : Z := to_int64 (to_int64 a - to_int64 b).

(** The [while (deltas.size() < patternLength)] loop of
    [GHBHistory::buildPattern].  [room] is [patternLength - deltas.size()],
    the number of deltas that may still be pushed; the result lists the
    deltas pushed from [current] on, in the order they are pushed. *)
Fixpoint buildPattern_loop (st : GHBHistory) (key : CorrelationKey)
  (room : nat) (current : Z) : option (list Z) :=
  match room with
  | O => Some []
  | S room' =>
      entry ← history_at st current;
      let link := array_get key (links entry) in
      if prev link <? 0 then Some []
      else
        prev_entry ← history_at st (prev link);
        if negb (seq prev_entry =? prevSeq link) then Some []
        else
          rest ← buildPattern_loop st key room' (prev link);
          Some (delta_of (addr entry) (addr prev_entry) :: rest)
  end.

(** [GHBHistory::buildPattern]: the returned flag and the final [deltas]. *)
Definition buildPattern (index : Z) (key : CorrelationKey) (st : GHBHistory)
  : option (bool * list Z) :=
  if (index <? 0) || (Z.of_nat (length (history st)) <=? index)
  then Some (false, [])
  else
    deltas ← buildPattern_loop st key (Z.to_nat (patternLength st)) index;
    Some (negb (bool_decide (deltas = [])), deltas).

(** ** Pattern table *)

(** Body of the loop of [GHBHistory::updatePatternTable]:
    [patternTable[key]] and [entry.counts[next]] create a zero entry when
    the key is missing; both counters are [uint32_t]. *)
Definition learn (key : DeltaPair) (next : Z)
  (table : gmap DeltaPair PatternEntry) : gmap DeltaPair PatternEntry :=
  let entry := default PatternEntry_default (table !! key) in
  <[key := {| counts :=
                <[next := to_uint32 (default 0 (counts entry !! next) + 1)]>
                  (counts entry);
              total := to_uint32 (total entry + 1) |}]> table.

Definition updatePatternTable_iter (chronological : list Z)
  (table : gmap DeltaPair PatternEntry) (i : nat)
  : gmap DeltaPair PatternEntry :=
  learn (nth i chronological 0, nth (i + 1) chronological 0)
        (nth (i + 2) chronological 0) table.

(** [GHBHistory::updatePatternTable] *)
Definition updatePatternTable (chronological : list Z) (st : GHBHistory)
  : GHBHistory :=
  if (length chronological <? 3)%nat then st
  else
    set_patternTable
      (fold_left (updatePatternTable_iter chronological)
         (List.seq 0 (length chronological - 2)) (patternTable st))
      st.

(** [GHBHistory::fallbackPattern]: the final [predicted]. *)
Definition fallbackPattern (chronological : list Z) : list Z :=
  match chronological with
  | [] => []
  | _ =>
      let delta := List.last chronological 0 in
      if negb (delta =? 0) then [delta] else []
  end.

(** The comparator handed to [std::sort] in [findPatternMatch], as the
    order it leaves the candidates in: no later candidate has a larger
    count than an earlier one. *)
Definition count_ge (a b : Z * Z) : Prop := snd b <= snd a.

Global Instance count_ge_dec : RelDecision count_ge.
Proof. intros a b. unfold count_ge. apply _. Defined.

Global Instance count_ge_total : Total count_ge.
Proof. intros a b. unfold count_ge. lia. Qed.

Global Instance count_ge_trans : Transitive count_ge.
Proof. intros a b c. unfold count_ge. lia. Qed.

(** One possible [std::sort]: a merge sort on the counts. *)
Definition sort_candidates (l : list (Z * Z)) : list (Z * Z) :=
  merge_sort count_ge l.

(** ** The prefetcher ([ghb.hh], [ghb.cc]) *)

Record PrefetchInfo : Type := mkPrefetchInfo {
  getAddr : Z;
  getPC : option Z   (* [hasPC()] is [is_Some] *)
}.

(** The fields of [GHBPrefetcherParams] read by the constructor. *)
Record GHBPrefetcherParams : Type := mkGHBPrefetcherParams {
  history_size : Z;
  pattern_length : Z;
  p_degree : Z;
  use_pc : bool;
  confidence_threshold : Z
}.

Record GHBPrefetcher : Type := mkGHBPrefetcher {
  pf_historySize : Z;
  pf_patternLength : Z;
  pf_degree : Z;
  pf_usePC : bool;
  pf_confidenceThreshold : Z;
  historyHelper : GHBHistory
}.

Definition set_historyHelper (h : GHBHistory) (pf : GHBPrefetcher)
  : GHBPrefetcher :=
  mkGHBPrefetcher (pf_historySize pf) (pf_patternLength pf) (pf_degree pf)
    (pf_usePC pf) (pf_confidenceThreshold pf) h.

(** Modelled from the spec: [blockAddress] of the prefetcher base class,
    which is not among the sources; the glossary describes a block address
    as an address truncated to the block granularity. *)
Definition blockAddress_of (blkSize : Z) (a : Z) : Z := a - a mod blkSize.

(** Modelled from the spec: [samePage] of the prefetcher base class, which
    is not among the sources; two addresses are on the same page when they
    have the same page index for the page size. *)
Definition samePage_of (pageBytes : Z) (a b : Z) : bool :=
  (a / pageBytes) =? (b / pageBytes).

Section Predictor.

(** [std::sort] with the comparator of [findPatternMatch]; what it does
    with candidates of equal count, and the iteration order of the
    [unordered_map] it is fed, are left open. *)
Variable std_sort : list (Z * Z) → list (Z * Z).

(** Members of the prefetcher base class ([queued.hh], [base.hh]). *)
Variable blockAddress : Z → Z.
Variable samePage : Z → Z → bool.
Variable base_pageBytes : Z.

(** [GHBHistory::findPatternMatch]: the flag and the final [predicted]. *)
Definition findPatternMatch (chronological : list Z) (st : GHBHistory)
  : bool * list Z :=
  if (length chronological <? 2)%nat then (false, [])
  else
    let key := (nth (length chronological - 2) chronological 0,
                List.last chronological 0) in
    match patternTable st !! key with
    | None => (false, [])
    | Some entry =>
        if total entry =? 0 then (false, [])
        else
          let candidates := std_sort (map_to_list (counts entry)) in
          let predicted :=
            match candidates with
            | c :: _ => [fst c]
            | [] => []
            end in
          (negb (bool_decide (predicted = [])), predicted)
    end.

(** [GHBPrefetcher::GHBPrefetcher] *)
Definition GHBPrefetcher_new (p : GHBPrefetcherParams) : GHBPrefetcher :=
  let historySize := Z.max 1 (history_size p) in
  let patternLength := Z.max 1 (pattern_length p) in
  let degree := Z.max 1 (p_degree p) in
  let usePC := use_pc p in
  let confidenceThreshold :=
    Z.min 100 (Z.max 0 (to_uint32 (confidence_threshold p))) in
  {| pf_historySize := historySize;
     pf_patternLength := patternLength;
     pf_degree := degree;
     pf_usePC := usePC;
     pf_confidenceThreshold := confidenceThreshold;
     historyHelper :=
       GHBHistory_new historySize patternLength degree usePC
         (to_uint32 base_pageBytes) confidenceThreshold |}.

(** The final [for (int64_t delta : predicted)] loop of
    [calculatePrefetch]: [next_addr] is carried along, the emitted
    [AddrPriority] pairs are returned in emission order. *)
Fixpoint emit_loop (block_addr next_addr : Z) (predicted : list Z)
  : list (Z * Z) :=
  match predicted with
  | [] => []
  | delta :: rest =>
      if delta =? 0 then emit_loop block_addr next_addr rest
      else
        let next_addr' := to_uint64 (to_int64 next_addr + delta) in
        if negb (samePage block_addr next_addr')
        then emit_loop block_addr next_addr' rest
        else (next_addr', 0) :: emit_loop block_addr next_addr' rest
  end.

(** [GHBPrefetcher::calculatePrefetch]: the new object and the final
    [addresses]. *)
Definition calculatePrefetch (pfi : PrefetchInfo) (addresses : list (Z * Z))
  (pf : GHBPrefetcher) : option (GHBPrefetcher * list (Z * Z)) :=
  if empty (historyHelper pf) then Some (pf, addresses)
  else
    let block_addr := blockAddress (getAddr pfi) in
    let access :=
      {| access_addr := block_addr;
         access_pc := if pf_usePC pf then getPC pfi else None |} in
    '(h1, idx) ← insert access (historyHelper pf);
    let pf1 := set_historyHelper h1 pf in
    if idx <? 0 then Some (pf1, addresses)
    else
      '(hasPattern, deltas) ← buildPattern idx PC h1;
      '(hasPattern, deltas) ←
        (if negb hasPattern then buildPattern idx Page h1
         else Some (hasPattern, deltas));
      if negb hasPattern then Some (pf1, addresses)
      else
        let chronological := rev deltas in
        let h2 := updatePatternTable chronological h1 in
        let pf2 := set_historyHelper h2 pf in
        let '(found, predicted) := findPatternMatch chronological h2 in
        let predicted :=
          if negb found then fallbackPattern chronological
          else predicted in
        match predicted with
        | [] => Some (pf2, addresses)
        | _ =>
            Some (pf2, addresses ++ emit_loop block_addr block_addr predicted)
        end.

(** The access that [calculatePrefetch] records for [pfi]. *)
Definition recorded_access (pfi : PrefetchInfo) (pf : GHBPrefetcher)
  : AccessInfo :=
  {| access_addr := blockAddress (getAddr pfi);
     access_pc := if pf_usePC pf then getPC pfi else None |}.

(** The pattern [calculatePrefetch] settles on: the one of the
    instruction-pointer chain, or else the one of the page chain. *)
Definition chosen_pattern (idx : Z) (h : GHBHistory)
  : option (bool * list Z) :=
  '(hasPattern, deltas) ← buildPattern idx PC h;
  if negb hasPattern then buildPattern idx Page h
  else Some (hasPattern, deltas).

(** The deltas [calculatePrefetch] predicts from a chronological
    pattern: the table's match, or else the fallback. *)
Definition prediction (chronological : list Z) (h : GHBHistory) : list Z :=
  if negb (fst (findPatternMatch chronological h))
  then fallbackPattern chronological
  else snd (findPatternMatch chronological h).

(** The prefetcher objects obtained from [init] by handling accesses. *)
Inductive pf_reachable (init : GHBPrefetcher) : GHBPrefetcher → Prop :=
| pf_reach_init : pf_reachable init init
| pf_reach_step pf pfi addresses pf' out :
    pf_reachable init pf →
    calculatePrefetch pfi addresses pf
      = Some (pf', out) →
    pf_reachable init pf'.

End Predictor.

(** ** Operation traces *)

(** The predictor objects that a client can obtain from [init] through the
    mutating public operations.  The index counts the insertions made since
    construction or since the last [reset]. *)
Inductive reachable (init : GHBHistory) : nat → GHBHistory → Prop :=
| reach_init : reachable init 0 init
| reach_reset n st :
    reachable init n st → reachable init 0 (reset st)
| reach_insert n st access st' slot :
    reachable init n st →
    insert access st = Some (st', slot) →
    reachable init (S n) st'
| reach_update n st chronological :
    reachable init n st →
    reachable init n (updatePatternTable chronological st).

(** The link of [slot] for [key] is one that [buildPattern] follows: it has
    a predecessor whose sequence number is the recorded one. *)
Definition followed (st : GHBHistory) (key : CorrelationKey) (slot : Z)
  : Prop :=
  ∃ entry prev_entry,
    history_at st slot = Some entry ∧
    0 <= prev (array_get key (links entry)) ∧
    history_at st (prev (array_get key (links entry))) = Some prev_entry ∧
    seq prev_entry = prevSeq (array_get key (links entry)).

(** [grows st m st']: [st'] is obtained from [st] by [m] insertions and
    any number of training calls, without [reset]. *)
Inductive grows (st : GHBHistory) : nat → GHBHistory → Prop :=
| grows_refl : grows st 0 st
| grows_insert m st1 access st2 slot :
    grows st m st1 →
    insert access st1 = Some (st2, slot) →
    grows st (S m) st2
| grows_update m st1 chronological :
    grows st m st1 →
    grows st m (updatePatternTable chronological st1).

(** ** Representation invariant *)

Record wf (st : GHBHistory) : Prop := mk_wf {
  wf_length : Z.of_nat (length (history st)) = historySize st;
  wf_size : 1 <= historySize st <= INT32_MAX;
  wf_head : 0 <= head st < historySize st;
  wf_index : ∀ key v s,
    array_get key (lastIndex st) !! v = Some s →
    ∃ e, history_at st s = Some e ∧
         keyValid (array_get key (links e)) = true ∧
         keyValue (array_get key (links e)) = v;
  wf_unfilled : filled st = false →
    ∀ key v s, array_get key (lastIndex st) !! v = Some s → s < head st;
  wf_prev : ∀ s e key,
    history_at st s = Some e →
    -1 <= prev (array_get key (links e)) < historySize st;
  wf_table : ∀ key e, patternTable st !! key = Some e → counts e ≠ ∅
}.

(** ** Eviction in closed form *)

(** A link after [keyValid = false] has been stored into it. *)
Definition invalidate (l : LinkInfo) : LinkInfo :=
  mkLinkInfo (prev l) (prevSeq l) (keyValue l) false.

(** What [removeIndexMappings] leaves of one index, given the victim's
    link for that key. *)
Definition unmap (slot : Z) (l : LinkInfo) (m : gmap Z Z) : gmap Z Z :=
  if keyValid l then
    match m !! keyValue l with
    | Some s => if s =? slot then delete (keyValue l) m else m
    | None => m
    end
  else m.

Definition evicted (e : GHBEntry) : GHBEntry :=
  {| addr := addr e;
     links := (invalidate (fst (links e)), invalidate (snd (links e)));
     seq := seq e |}.

Definition evicted_index (slot : Z) (e : GHBEntry) (idx : gmap Z Z * gmap Z Z)
  : gmap Z Z * gmap Z Z :=
  (unmap slot (fst (links e)) (fst idx), unmap slot (snd (links e)) (snd idx)).

(** ** Insertion in closed form *)

(** The link that [assignCorrelation] writes for [value], given the index
    [m] it consults. *)
Definition wire (st : GHBHistory) (m : gmap Z Z) (value : Z) : LinkInfo :=
  match m !! value with
  | Some p => mkLinkInfo p (from_option seq 0 (history_at st p)) value true
  | None => mkLinkInfo (-1) 0 value true
  end.

(** The indices as [insert] finds them once the slot under the write head
    has been evicted. *)
Definition index_before_write (st : GHBHistory) : gmap Z Z * gmap Z Z :=
  if filled st then
    match history_at st (head st) with
    | Some e => evicted_index (head st) e (lastIndex st)
    | None => lastIndex st
    end
  else lastIndex st.

(** The pieces of the object that a successful [insert] leaves behind. *)
Definition pc_value (access : AccessInfo) (st : GHBHistory) : option Z :=
  if usePC st then access_pc access else None.

Definition pc_link (access : AccessInfo) (st : GHBHistory) : LinkInfo :=
  match pc_value access st with
  | Some v => wire st (fst (index_before_write st)) v
  | None => LinkInfo_default
  end.

Definition page_link (access : AccessInfo) (st : GHBHistory) : LinkInfo :=
  wire st (snd (index_before_write st))
    (computePage st (access_addr access)).

Definition new_entry (access : AccessInfo) (st : GHBHistory) : GHBEntry :=
  {| addr := access_addr access;
     links := (pc_link access st, page_link access st);
     seq := sequenceCounter st |}.

Definition new_index (access : AccessInfo) (st : GHBHistory)
  : gmap Z Z * gmap Z Z :=
  (match pc_value access st with
   | Some v => <[v := head st]> (fst (index_before_write st))
   | None => fst (index_before_write st)
   end,
   <[computePage st (access_addr access) := head st]>
     (snd (index_before_write st))).

Definition next_head (st : GHBHistory) : Z :=
  (head st + 1) mod historySize st.

Definition inserted (access : AccessInfo) (st : GHBHistory) : GHBHistory :=
  {| historySize := historySize st;
     patternLength := patternLength st;
     degree := degree st;
     usePC := usePC st;
     pageBytes := pageBytes st;
     confidenceThreshold := confidenceThreshold st;
     history := <[Z.to_nat (head st) := new_entry access st]> (history st);
     lastIndex := new_index access st;
     head := next_head st;
     filled := filled st || (next_head st =? 0);
     sequenceCounter := to_uint64 (sequenceCounter st + 1);
     patternTable := patternTable st |}.

Definition table_ok (table : gmap DeltaPair PatternEntry) : Prop :=
  ∀ key e, table !! key = Some e → counts e ≠ ∅.

(** ** Sequence numbers *)

Record seq_ok (n : nat) (st : GHBHistory) : Prop := mk_seq_ok {
  sq_counter : sequenceCounter st = 1 + Z.of_nat n;
  sq_bound : ∀ s e,
    history_at st s = Some e → 0 <= seq e < sequenceCounter st;
  sq_distinct : ∀ s t e e',
    history_at st s = Some e → history_at st t = Some e' →
    s ≠ t → seq e ≠ 0 → seq e ≠ seq e';
  sq_link : ∀ s e key,
    history_at st s = Some e →
    0 <= prev (array_get key (links e)) →
    ∃ pe, history_at st (prev (array_get key (links e))) = Some pe ∧
          prevSeq (array_get key (links e)) <= seq pe ∧
          prevSeq (array_get key (links e)) < seq e
}.

(** ** Pattern builder: the walk *)

(** The chain walk as the design describes it.  [pattern_walk st key room
    slot deltas]: starting at [slot] with room for [room] more deltas, the
    walk collects [deltas], most recent first. *)
Inductive pattern_walk (st : GHBHistory) (key : CorrelationKey)
  : nat → Z → list Z → Prop :=
| walk_length_reached slot :
    pattern_walk st key 0 slot []
| walk_no_predecessor room slot entry :
    history_at st slot = Some entry →
    prev (array_get key (links entry)) < 0 →
    pattern_walk st key (S room) slot []
| walk_stale room slot entry prev_entry :
    history_at st slot = Some entry →
    0 <= prev (array_get key (links entry)) →
    history_at st (prev (array_get key (links entry))) = Some prev_entry →
    seq prev_entry ≠ prevSeq (array_get key (links entry)) →
    pattern_walk st key (S room) slot []
| walk_step room slot entry prev_entry rest :
    history_at st slot = Some entry →
    0 <= prev (array_get key (links entry)) →
    history_at st (prev (array_get key (links entry))) = Some prev_entry →
    seq prev_entry = prevSeq (array_get key (links entry)) →
    pattern_walk st key room (prev (array_get key (links entry))) rest →
    pattern_walk st key (S room) slot
      (to_int64 (to_int64 (addr entry) - to_int64 (addr prev_entry)) :: rest).

(** The slot reached from [slot] after [i] steps along the links for
    [key]. *)
Fixpoint nth_predecessor (st : GHBHistory) (key : CorrelationKey) (i : nat)
  (slot : Z) : option Z :=
  match i with
  | O => Some slot
  | S i' =>
      entry ← history_at st slot;
      nth_predecessor st key i' (prev (array_get key (links entry)))
  end.

(** ** The configuration is fixed at construction *)

Definition same_config (a b : GHBHistory) : Prop :=
  historySize a = historySize b ∧ patternLength a = patternLength b ∧
  degree a = degree b ∧ usePC a = usePC b ∧ pageBytes a = pageBytes b ∧
  confidenceThreshold a = confidenceThreshold b.

(** ** Pattern table: what a training call changes *)

(** The observed count of [next] under [key], if the table has one. *)
Definition raw_count (table : gmap DeltaPair PatternEntry) (key : DeltaPair)
  (next : Z) : option Z :=
  e ← table !! key; counts e !! next.

(** The running total of [key], if the table has the key. *)
Definition raw_total (table : gmap DeltaPair PatternEntry) (key : DeltaPair)
  : option Z :=
  total <$> table !! key.

(** The consecutive triple of [chronological] that starts at [i]. *)
Definition triple_at (chronological : list Z) (i : nat) : Z * Z * Z :=
  (nth i chronological 0, nth (i + 1) chronological 0,
   nth (i + 2) chronological 0).

(** The start positions of the consecutive triples. *)
Definition triple_positions (chronological : list Z) : list nat :=
  List.seq 0 (length chronological - 2).

(** How many of the triples at [positions] are [key] followed by [next]. *)
Definition occurrences (chronological : list Z) (positions : list nat)
  (key : DeltaPair) (next : Z) : Z :=
  Z.of_nat (length (filter
    (λ i, triple_at chronological i = (fst key, snd key, next)) positions)).

(** How many of the triples at [positions] start with [key]. *)
Definition key_occurrences (chronological : list Z) (positions : list nat)
  (key : DeltaPair) : Z :=
  Z.of_nat (length (filter
    (λ i, fst (triple_at chronological i) = key) positions)).

(** Nothing is removed: keys stay, and under a key every next delta stays. *)
Definition table_extends (t t' : gmap DeltaPair PatternEntry) : Prop :=
  ∀ key e, t !! key = Some e →
    ∃ e', t' !! key = Some e' ∧
          ∀ next, is_Some (counts e !! next) → is_Some (counts e' !! next).

(** ** Address generation *)

(** The candidate addresses of the design: each non-zero delta in turn is
    added to the address reached so far, in 64-bit address arithmetic. *)
Fixpoint candidates (start : Z) (deltas : list Z) : list Z :=
  match deltas with
  | [] => []
  | delta :: rest =>
      if decide (delta = 0) then candidates start rest
      else to_uint64 (start + delta)
             :: candidates (to_uint64 (start + delta)) rest
  end.

(** ** Reset *)

(** The public operations, and what a client observes of each. *)
Inductive Op : Type :=
| OpEmpty
| OpReset
| OpInsert (access : AccessInfo)
| OpBuildPattern (index : Z) (key : CorrelationKey)
| OpUpdatePatternTable (chronological : list Z)
| OpFindPatternMatch (chronological : list Z)
| OpFallbackPattern (chronological : list Z).

Inductive Result : Type :=
| REmpty (disabled : bool)
| RReset
| RInsert (slot : option Z)
| RBuildPattern (pattern : option (bool * list Z))
| RUpdatePatternTable
| RFindPatternMatch (found : bool) (predicted : list Z)
| RFallbackPattern (predicted : list Z).

Definition run_op (std_sort : list (Z * Z) → list (Z * Z)) (op : Op)
  (st : GHBHistory) : GHBHistory * Result :=
  match op with
  | OpEmpty => (st, REmpty (empty st))
  | OpReset => (reset st, RReset)
  | OpInsert access =>
      match insert access st with
      | Some (st', slot) => (st', RInsert (Some slot))
      | None => (st, RInsert None)
      end
  | OpBuildPattern index key => (st, RBuildPattern (buildPattern index key st))
  | OpUpdatePatternTable chronological =>
      (updatePatternTable chronological st, RUpdatePatternTable)
  | OpFindPatternMatch chronological =>
      (st, RFindPatternMatch
             (fst (findPatternMatch std_sort chronological st))
             (snd (findPatternMatch std_sort chronological st)))
  | OpFallbackPattern chronological =>
      (st, RFallbackPattern (fallbackPattern chronological))
  end.

Fixpoint run (std_sort : list (Z * Z) → list (Z * Z)) (ops : list Op)
  (st : GHBHistory) : list Result :=
  match ops with
  | [] => []
  | op :: ops' =>
      snd (run_op std_sort op st)
        :: run std_sort ops' (fst (run_op std_sort op st))
  end.

(** The sequential-stride scenario of the unit tests: three accesses at
    [0], [0x40], [0x80] with one instruction pointer, then the
    instruction-pointer pattern of the last insertion. *)
Definition stride_scenario : list Op :=
  [OpInsert (mkAccessInfo 0 (Some 256));
   OpInsert (mkAccessInfo 64 (Some 256));
   OpInsert (mkAccessInfo 128 (Some 256));
   OpBuildPattern 2 PC].

(** ** Objects of the unit tests ([ghb_history.test.cc]) *)

(** [makeHistory] of the unit tests. *)
Definition makeHistory (degree confidence : Z) (use_pc : bool) : GHBHistory :=
  GHBHistory_new 16 4 degree use_pc 64 confidence.

(** The history after the three insertions of [BuildPatternFromPC]. *)
Definition stride_state : GHBHistory :=
  inserted (mkAccessInfo 128 (Some 256))
    (inserted (mkAccessInfo 64 (Some 256))
       (inserted (mkAccessInfo 0 (Some 256)) (makeHistory 2 50 true))).

(** The history after the training call of
    [PatternTablePredictsMostLikelyDelta]. *)
Definition trained_state : GHBHistory :=
  updatePatternTable [64; 64; 64; 32; 32; 32] (makeHistory 2 50 true).

(** A prefetcher with the parameters of [makeHistory] and 4 KiB pages. *)
Definition test_prefetcher : GHBPrefetcher :=
  GHBPrefetcher_new 4096 (mkGHBPrefetcherParams 16 4 2 true 50).

(** ** Recorded accesses *)

(** Like [reachable], but remembering the accesses inserted since
    construction or since the last [reset], oldest first. *)
Inductive recorded (init : GHBHistory) : list AccessInfo → GHBHistory → Prop :=
| rec_init : recorded init [] init
| rec_reset l st :
    recorded init l st → recorded init [] (reset st)
| rec_insert l st access st' slot :
    recorded init l st →
    insert access st = Some (st', slot) →
    recorded init (l ++ [access]) st'
| rec_update l st chronological :
    recorded init l st →
    recorded init l (updatePatternTable chronological st).

(** The key value under which [insert] files an access for a key kind, if
    it files it at all. *)
Definition key_value (access : AccessInfo) (st : GHBHistory)
  (key : CorrelationKey) : option Z :=
  match key with
  | PC => if usePC st then access_pc access else None
  | Page => Some (computePage st (access_addr access))
  end.

(** What the buffer holds after the accesses [l]: access number [i]
    (counted from 0), if it is among the last [historySize], sits in slot
    [i mod historySize] with stamp [i + 1] and with its key values in its
    links; slots not yet written hold the default entry. *)
Record layout (l : list AccessInfo) (st : GHBHistory) : Prop := mk_layout {
  lay_entry : ∀ (i : nat) access,
    l !! i = Some access →
    Z.of_nat (length l) - historySize st <= Z.of_nat i →
    ∃ e, history_at st (Z.of_nat i mod historySize st) = Some e ∧
         addr e = access_addr access ∧
         seq e = Z.of_nat i + 1 ∧
         ∀ key,
           match key_value access st key with
           | Some v => keyValid (array_get key (links e)) = true ∧
                       keyValue (array_get key (links e)) = v
           | None => array_get key (links e) = LinkInfo_default
           end;
  lay_default : ∀ s,
    Z.of_nat (length l) <= s < historySize st →
    history_at st s = Some GHBEntry_default
}.

(** Every entry with a valid link is covered by the index of that key
    kind, which points at an entry at least as recent. *)
Definition index_complete (st : GHBHistory) : Prop :=
  ∀ key s e,
    history_at st s = Some e →
    keyValid (array_get key (links e)) = true →
    ∃ s' e',
      array_get key (lastIndex st) !! keyValue (array_get key (links e))
        = Some s' ∧
      history_at st s' = Some e' ∧
      seq e <= seq e'.

(** A link with a predecessor is valid, and as long as the predecessor
    still has the recorded stamp, its link is valid with the same key
    value. *)
Definition chain_same_key (st : GHBHistory) : Prop :=
  ∀ key s e,
    history_at st s = Some e →
    0 <= prev (array_get key (links e)) →
    keyValid (array_get key (links e)) = true ∧
    ∀ pe, history_at st (prev (array_get key (links e))) = Some pe →
          seq pe = prevSeq (array_get key (links e)) →
          keyValid (array_get key (links pe)) = true ∧
          keyValue (array_get key (links pe))
            = keyValue (array_get key (links e)).

(** The page link of an entry, when valid, carries the page of the
    entry's address. *)
Definition page_key_ok (st : GHBHistory) : Prop :=
  ∀ s e,
    history_at st s = Some e →
    keyValid (array_get Page (links e)) = true →
    keyValue (array_get Page (links e)) = computePage st (addr e).

(** The sum of the observed counts of a distribution. *)
Definition sum_counts (m : gmap Z Z) : Z :=
  map_fold (λ _ c acc, c + acc) 0 m.

(** Every running total is the sum of the counts of its distribution, in
    32-bit unsigned arithmetic. *)
Definition totals_ok (table : gmap DeltaPair PatternEntry) : Prop :=
  ∀ key e, table !! key = Some e →
           total e = to_uint32 (sum_counts (counts e)).

(** ** A constant-stride stream *)

(** A run of the prefetcher: the accesses [pfis] are handled one after
    the other, each call of [calculatePrefetch] starting from an empty
    [addresses] vector; the result lists what each call put into it. *)
Fixpoint handle_all (std_sort : list (Z * Z) → list (Z * Z))
  (blockAddress : Z → Z) (samePage : Z → Z → bool)
  (pfis : list PrefetchInfo) (pf : GHBPrefetcher)
  : option (GHBPrefetcher * list (list (Z * Z))) :=
  match pfis with
  | [] => Some (pf, [])
  | pfi :: rest =>
      '(pf1, out) ← calculatePrefetch std_sort blockAddress samePage pfi [] pf;
      '(pf2, outs) ← handle_all std_sort blockAddress samePage rest pf1;
      Some (pf2, out :: outs)
  end.

(** Every delta the table has counted is [d]. *)
Definition stride_table (d : Z) (table : gmap DeltaPair PatternEntry)
  : Prop :=
  ∀ key e x, table !! key = Some e → is_Some (counts e !! x) → x = d.

(** The helper after [k] accesses by one instruction [pc] to the blocks
    [a], [a + d], [a + 2 d], ... (modulo [2 ^ 64]): access number [j],
    while it is in the buffer, is linked to access number [j - 1]. *)
Record stride_inv (a d pc : Z) (k : nat) (h : GHBHistory) : Prop :=
  mk_stride_inv {
  si_wf : wf h;
  si_seq : seq_ok k h;
  si_head : head h = Z.of_nat k mod historySize h;
  si_usePC : usePC h = true;
  si_size : 2 <= historySize h;
  si_pattern : 1 <= patternLength h;
  si_fresh : k = 0%nat → lastIndex h = (∅, ∅);
  si_index : (1 <= k)%nat →
    array_get PC (lastIndex h) !! pc
      = Some ((Z.of_nat k - 1) mod historySize h);
  si_entry : ∀ j,
    0 <= j < Z.of_nat k → Z.of_nat k - historySize h <= j →
    ∃ e, history_at h (j mod historySize h) = Some e ∧
         addr e = to_uint64 (a + j * d) ∧
         seq e = j + 1 ∧
         prev (array_get PC (links e))
           = (if decide (j = 0) then -1 else (j - 1) mod historySize h) ∧
         prevSeq (array_get PC (links e)) = j;
  si_table : stride_table d (patternTable h)
}.

(** What the stream's access number [k] is answered with: nothing for the
    first access, afterwards the next block of the stream if it lies in
    the page of the current one. *)
Definition stride_candidates (samePage : Z → Z → bool) (a d : Z) (k : nat)
  : list (Z * Z) :=
  match k with
  | O => []
  | S _ =>
      let next := to_uint64 (a + (Z.of_nat k + 1) * d) in
      if samePage (to_uint64 (a + Z.of_nat k * d)) next then [(next, 0)]
      else []
  end.

(** The history after the three insertions of
    [PageCorrelationWorksWithoutPC]. *)
Definition page_state : GHBHistory :=
  inserted (mkAccessInfo 272 None)
    (inserted (mkAccessInfo 264 None)
       (inserted (mkAccessInfo 256 None) (makeHistory 2 50 false))).

(** Three accesses of one instruction, 64 bytes apart. *)
Definition stride_accesses : list PrefetchInfo :=
  [mkPrefetchInfo 4096 (Some 7); mkPrefetchInfo 4160 (Some 7);
   mkPrefetchInfo 4224 (Some 7)].

(** ** Objects for the counters and for stale links *)

(** [n] training calls with the three deltas [1; 1; 1]. *)
Definition train_repeatedly (n : N) (st : GHBHistory) : GHBHistory :=
  N.iter n (updatePatternTable [1; 1; 1]) st.

(** A predictor that has been trained [2^32 - 1] times with them. *)
Definition saturated_state : GHBHistory :=
  train_repeatedly 4294967295 (makeHistory 2 50 true).

(** A buffer of two slots after two accesses of one instruction: both
    slots are written, and the link of slot 1 names slot 0. *)
Definition two_slot_state : GHBHistory :=
  inserted (mkAccessInfo 64 (Some 256))
    (inserted (mkAccessInfo 0 (Some 256)) (GHBHistory_new 2 4 2 true 64 50)).

(** [test_prefetcher] after the first two of [stride_accesses]. *)
Definition warm_prefetcher : GHBPrefetcher :=
  set_historyHelper
    (inserted (mkAccessInfo 4160 (Some 7))
       (inserted (mkAccessInfo 4096 (Some 7))
          (historyHelper test_prefetcher)))
    test_prefetcher.

(** * Lemmas and theorems *)

(** ** Subscripting lemmas *)

Lemma history_at_Some st i e :
  history_at st i = Some e → 0 <= i < Z.of_nat (length (history st)).
Proof.
  unfold history_at. destruct (Z.ltb_spec i 0); [done|].
  intros Hl. apply lookup_lt_Some in Hl. lia.
Qed.

Lemma history_at_is_Some st i :
  0 <= i < Z.of_nat (length (history st)) → is_Some (history_at st i).
Proof.
  intros Hi. unfold history_at. destruct (Z.ltb_spec i 0); [lia|].
  apply lookup_lt_is_Some. lia.
Qed.

Lemma history_at_store_eq st i e :
  0 <= i < Z.of_nat (length (history st)) →
  history_at (history_store i e st) i = Some e.
Proof.
  intros Hi. unfold history_at, history_store. simpl.
  destruct (Z.ltb_spec i 0); [lia|].
  apply list_lookup_insert_eq. lia.
Qed.

Lemma history_at_store_ne st i j e :
  0 <= i → i ≠ j →
  history_at (history_store i e st) j = history_at st j.
Proof.
  intros Hi Hne. unfold history_at, history_store. simpl.
  destruct (Z.ltb_spec j 0); [done|].
  apply list_lookup_insert_ne. lia.
Qed.

Lemma history_store_store st i e e' :
  history_store i e (history_store i e' st) = history_store i e st.
Proof.
  unfold history_store, set_history. simpl. f_equal.
  apply list_insert_insert_eq.
Qed.

Lemma array_get_set_eq {A} key (x : A) a :
  array_get key (array_set key x a) = x.
Proof. by destruct key. Qed.

Lemma array_get_set_ne {A} key key' (x : A) a :
  key ≠ key' → array_get key' (array_set key x a) = array_get key' a.
Proof. by destruct key, key'. Qed.

Lemma array_get_set {A} key key' (x : A) a :
  array_get key' (array_set key x a) =
  if decide (key = key') then x else array_get key' a.
Proof.
  case_decide; subst; auto using array_get_set_eq, array_get_set_ne.
Qed.

(** ** Eviction and insertion in closed form *)

Lemma history_store_id st i e :
  history_at st i = Some e → history_store i e st = st.
Proof.
  unfold history_at, history_store, set_history.
  destruct (i <? 0); [done|]. intros Hl.
  rewrite (list_insert_id _ _ _ Hl). by destruct st.
Qed.

Lemma set_lastIndex_id st : set_lastIndex (lastIndex st) st = st.
Proof. by destruct st. Qed.

Lemma invalidate_id l : keyValid l = false → invalidate l = l.
Proof. destruct l; simpl; intros ->; done. Qed.

Lemma removeIndexMappings_iter_PC slot st e :
  history_at st slot = Some e →
  removeIndexMappings_iter slot PC st =
  Some (history_store slot
          (mkGHBEntry (addr e) (invalidate (fst (links e)), snd (links e))
             (seq e))
          (set_lastIndex
             (unmap slot (fst (links e)) (fst (lastIndex st)),
              snd (lastIndex st)) st)).
Proof.
  intros He. unfold removeIndexMappings_iter. rewrite He. simpl.
  unfold unmap, set_link. simpl.
  destruct (keyValid (fst (links e))) eqn:Hv; simpl; [done|].
  f_equal. rewrite invalidate_id by done.
  replace (fst (lastIndex st), snd (lastIndex st)) with (lastIndex st)
    by by destruct (lastIndex st).
  rewrite set_lastIndex_id. symmetry. apply history_store_id.
  rewrite He. f_equal. destruct e as [a [l1 l2] s]; done.
Qed.

Lemma removeIndexMappings_iter_Page slot st e :
  history_at st slot = Some e →
  removeIndexMappings_iter slot Page st =
  Some (history_store slot
          (mkGHBEntry (addr e) (fst (links e), invalidate (snd (links e)))
             (seq e))
          (set_lastIndex
             (fst (lastIndex st),
              unmap slot (snd (links e)) (snd (lastIndex st))) st)).
Proof.
  intros He. unfold removeIndexMappings_iter. rewrite He. simpl.
  unfold unmap, set_link. simpl.
  destruct (keyValid (snd (links e))) eqn:Hv; simpl; [done|].
  f_equal. rewrite invalidate_id by done.
  replace (fst (lastIndex st), snd (lastIndex st)) with (lastIndex st)
    by by destruct (lastIndex st).
  rewrite set_lastIndex_id. symmetry. apply history_store_id.
  rewrite He. f_equal. destruct e as [a [l1 l2] s]; done.
Qed.

Lemma removeIndexMappings_eq slot st e :
  history_at st slot = Some e →
  removeIndexMappings slot st =
  Some (history_store slot (evicted e)
          (set_lastIndex (evicted_index slot e (lastIndex st)) st)).
Proof.
  intros He. unfold removeIndexMappings.
  rewrite (removeIndexMappings_iter_PC _ _ _ He). simpl.
  pose proof (history_at_Some _ _ _ He) as Hr.
  erewrite removeIndexMappings_iter_Page; last first.
  { apply history_at_store_eq. simpl. done. }
  simpl. f_equal.
  unfold history_store, set_history, set_lastIndex, evicted, evicted_index.
  simpl. f_equal. apply list_insert_insert_eq.
Qed.

Lemma wire_ext st st' m value :
  (∀ p, m !! value = Some p → history_at st p = history_at st' p) →
  wire st m value = wire st' m value.
Proof.
  intros H. unfold wire. destruct (m !! value) as [p|] eqn:Hp; [|done].
  by rewrite (H p).
Qed.

Lemma assignCorrelation_eq slot key value st entry :
  history_at st slot = Some entry →
  (∀ p, array_get key (lastIndex st) !! value = Some p →
        is_Some (history_at st p)) →
  assignCorrelation slot key value st =
  Some (set_lastIndex
          (array_set key (<[value := slot]> (array_get key (lastIndex st)))
             (lastIndex st))
          (history_store slot
             (set_link key (wire st (array_get key (lastIndex st)) value)
                entry) st)).
Proof.
  intros He Hp. unfold assignCorrelation, wire. rewrite He. simpl.
  destruct (array_get key (lastIndex st) !! value) as [p|] eqn:Hm;
    simpl; [|done].
  destruct (Hp p eq_refl) as [pe Hpe]. by rewrite Hpe.
Qed.

Lemma next_head_eq h n :
  0 <= h < n → n <= INT32_MAX →
  to_int32 (to_uint32 (to_int32 (h + 1)) mod n) = (h + 1) mod n.
Proof.
  intros Hh Hn. unfold INT32_MAX in Hn.
  assert (Hm : 0 <= (h + 1) mod n < n) by (apply Z.mod_pos_bound; lia).
  unfold to_int32, to_uint32, UINT32_MOD.
  rewrite (Z.mod_small (h + 1 + 2 ^ 31)) by lia.
  replace (h + 1 + 2 ^ 31 - 2 ^ 31) with (h + 1) by lia.
  rewrite (Z.mod_small (h + 1) (2 ^ 32)) by lia.
  rewrite (Z.mod_small ((h + 1) mod n + 2 ^ 31)) by lia. lia.
Qed.

Lemma unmap_lookup_Some slot l m v s :
  unmap slot l m !! v = Some s → m !! v = Some s.
Proof.
  unfold unmap. destruct (keyValid l); [|done].
  destruct (m !! keyValue l) as [s'|] eqn:Hs'; [|done].
  destruct (s' =? slot); [|done].
  rewrite lookup_delete. case_decide; [done|done].
Qed.

Lemma index_before_write_sub st key v s :
  array_get key (index_before_write st) !! v = Some s →
  array_get key (lastIndex st) !! v = Some s.
Proof.
  unfold index_before_write. destruct (filled st); [|done].
  destruct (history_at st (head st)) as [e|]; [|done].
  unfold evicted_index. destruct key; simpl; apply unmap_lookup_Some.
Qed.

Lemma wf_head_entry st :
  wf st → is_Some (history_at st (head st)).
Proof.
  intros Hwf. apply history_at_is_Some.
  rewrite (wf_length _ Hwf). apply (wf_head _ Hwf).
Qed.

Lemma index_before_write_not_head st key v :
  wf st → array_get key (index_before_write st) !! v ≠ Some (head st).
Proof.
  intros Hwf Hv. unfold index_before_write in Hv.
  destruct (filled st) eqn:Hf.
  - destruct (wf_head_entry _ Hwf) as [e He]. rewrite He in Hv.
    assert (Hu : unmap (head st) (array_get key (links e))
                   (array_get key (lastIndex st)) !! v = Some (head st)).
    { by destruct key. }
    clear Hv. pose proof (unmap_lookup_Some _ _ _ _ _ Hu) as Hm.
    destruct (wf_index _ Hwf _ _ _ Hm) as (e' & He' & Hvalid & Hkey).
    rewrite He in He'. injection He' as <-.
    unfold unmap in Hu. rewrite Hvalid, Hkey, Hm, Z.eqb_refl in Hu.
    by rewrite lookup_delete_eq in Hu.
  - pose proof (wf_unfilled _ Hwf Hf _ _ _ Hv). lia.
Qed.

Lemma index_before_write_entry st key v p :
  wf st → array_get key (index_before_write st) !! v = Some p →
  p ≠ head st ∧ is_Some (history_at st p).
Proof.
  intros Hwf Hp. split.
  - intros ->. by eapply index_before_write_not_head.
  - apply index_before_write_sub in Hp.
    destruct (wf_index _ Hwf _ _ _ Hp) as (e & He & _). by exists e.
Qed.

Lemma insert_eq st access :
  wf st → insert access st = Some (inserted access st, head st).
Proof.
  intros Hwf.
  pose proof (wf_size _ Hwf) as Hsz. pose proof (wf_head _ Hwf) as Hhd.
  pose proof (wf_length _ Hwf) as Hlen.
  destruct (wf_head_entry _ Hwf) as [e He].
  unfold insert. destruct (Z.eqb_spec (historySize st) 0) as [?|_]; [lia|].
  pose proof (index_before_write_entry st) as Hidx.
  unfold inserted, new_entry, new_index, pc_link, page_link, pc_value,
    next_head.
  set (idx1 := index_before_write st) in *.
  assert (Hst1 : ∃ e1,
    (if filled st then evictIndex (head st) st else Some st) =
    Some (history_store (head st) e1 (set_lastIndex idx1 st))).
  { subst idx1. unfold index_before_write, evictIndex.
    destruct (filled st).
    - rewrite He. eexists. by apply removeIndexMappings_eq.
    - exists e. by rewrite set_lastIndex_id, history_store_id. }
  destruct Hst1 as [e1 ->]. simpl.
  rewrite history_at_store_eq by (simpl; lia). simpl.
  rewrite history_store_store.
  set (c := sequenceCounter st). set (a := access_addr access).
  set (st2 := set_sequenceCounter _ _).
  assert (Hst2 : ∀ p, p ≠ head st → history_at st2 p = history_at st p).
  { intros p Hp. unfold history_at. subst st2. simpl.
    destruct (p <? 0) eqn:Hneg; [done|].
    apply list_lookup_insert_ne. lia. }
  assert (Hat2 : history_at st2 (head st) = Some (mkGHBEntry a (links e1) c)).
  { unfold history_at. subst st2. simpl.
    destruct (Z.ltb_spec (head st) 0); [lia|].
    apply list_lookup_insert_eq. lia. }
  set (pcv := if usePC st then access_pc access else None).
  set (lpc := match pcv with
              | Some v => wire st (fst idx1) v
              | None => LinkInfo_default
              end).
  set (st3 := mkGHBHistory (historySize st) (patternLength st) (degree st)
    (usePC st) (pageBytes st) (confidenceThreshold st)
    (<[Z.to_nat (head st) := mkGHBEntry a (lpc, snd (links e1)) c]>
       (history st))
    (match pcv with
     | Some v => <[v := head st]> (fst idx1)
     | None => fst idx1
     end, snd idx1)
    (head st) (filled st) (to_uint64 (c + 1)) (patternTable st)).
  assert (Hpc_else :
    history_at st2 (head st) ≫= (λ entry2,
      Some (history_store (head st) (set_link PC LinkInfo_default entry2) st2))
    = Some (mkGHBHistory (historySize st) (patternLength st) (degree st)
        (usePC st) (pageBytes st) (confidenceThreshold st)
        (<[Z.to_nat (head st) :=
            mkGHBEntry a (LinkInfo_default, snd (links e1)) c]> (history st))
        (fst idx1, snd idx1)
        (head st) (filled st) (to_uint64 (c + 1)) (patternTable st))).
  { rewrite Hat2. simpl. f_equal. subst st2.
    unfold history_store, set_history, set_sequenceCounter, set_lastIndex,
      set_link. simpl. f_equal; [|by destruct idx1].
    apply list_insert_insert_eq. }
  assert (Hst3 :
    (if usePC st then
       match access_pc access with
       | Some pc => assignCorrelation (head st) PC pc st2
       | None =>
           history_at st2 (head st) ≫= (λ entry2,
             Some (history_store (head st)
                     (set_link PC LinkInfo_default entry2) st2))
       end
     else
       history_at st2 (head st) ≫= (λ entry2,
         Some (history_store (head st)
                 (set_link PC LinkInfo_default entry2) st2))) = Some st3).
  { subst st3 lpc pcv. destruct (usePC st) eqn:HusePC; [|exact Hpc_else].
    destruct (access_pc access) as [v|]; [|exact Hpc_else].
    erewrite assignCorrelation_eq; [|exact Hat2|]; last first.
    { intros p Hp. destruct (Hidx PC v p Hwf Hp) as [Hne Hsome].
      by rewrite Hst2. }
    f_equal. rewrite (wire_ext st2 st); last first.
    { intros p Hp. apply Hst2. by destruct (Hidx PC v p Hwf Hp). }
    subst st2.
    unfold history_store, set_history, set_sequenceCounter, set_lastIndex,
      set_link. simpl. f_equal; try done.
    apply list_insert_insert_eq. }
  change (usePC st2) with (usePC st).
  rewrite Hst3. simpl.
  assert (Hst3' : ∀ p, p ≠ head st → history_at st3 p = history_at st p).
  { intros p Hp. unfold history_at. subst st3. simpl.
    destruct (p <? 0) eqn:Hneg; [done|].
    apply list_lookup_insert_ne. lia. }
  assert (Hat3 : history_at st3 (head st) =
                 Some (mkGHBEntry a (lpc, snd (links e1)) c)).
  { unfold history_at. subst st3. simpl.
    destruct (Z.ltb_spec (head st) 0); [lia|].
    apply list_lookup_insert_eq. lia. }
  erewrite assignCorrelation_eq; [|exact Hat3|]; last first.
  { intros p Hp. destruct (Hidx Page _ p Hwf Hp) as [Hne Hsome].
    by rewrite Hst3'. }
  simpl.
  rewrite next_head_eq by lia.
  rewrite (wire_ext st3 st); last first.
  { intros p Hp. apply Hst3'. by destruct (Hidx Page _ p Hwf Hp). }
  f_equal. f_equal.
  destruct ((head st + 1) `mod` historySize st =? 0) eqn:Hz;
    unfold history_store, set_history, set_head, set_filled, set_lastIndex,
      set_link, computePage; simpl;
    rewrite list_insert_insert_eq; rewrite ?orb_true_r, ?orb_false_r; done.
Qed.

(** ** The invariant is established and preserved *)

Lemma history_at_inserted access st s :
  wf st →
  history_at (inserted access st) s =
  if decide (s = head st) then Some (new_entry access st)
  else history_at st s.
Proof.
  intros Hwf. pose proof (wf_head _ Hwf). pose proof (wf_length _ Hwf).
  unfold history_at. simpl. case_decide as Hs.
  - subst s. destruct (Z.ltb_spec (head st) 0); [lia|].
    apply list_lookup_insert_eq. lia.
  - destruct (Z.ltb_spec s 0); [done|].
    apply list_lookup_insert_ne. lia.
Qed.

Lemma wire_prev st m value :
  prev (wire st m value) = from_option id (-1) (m !! value).
Proof. unfold wire. by destruct (m !! value). Qed.

Lemma wire_key st m value :
  keyValid (wire st m value) = true ∧ keyValue (wire st m value) = value.
Proof. unfold wire. by destruct (m !! value). Qed.

Lemma new_index_lookup access st key v s :
  array_get key (new_index access st) !! v = Some s →
  (s = head st ∧
   keyValid (array_get key (links (new_entry access st))) = true ∧
   keyValue (array_get key (links (new_entry access st))) = v) ∨
  (array_get key (index_before_write st) !! v = Some s).
Proof.
  unfold new_index, new_entry, pc_link, page_link.
  destruct key; simpl.
  - destruct (pc_value access st) as [pcv|]; [|by right].
    rewrite lookup_insert. case_decide; [|by right].
    intros [= <-]. subst v. left. split; [done|]. apply wire_key.
  - rewrite lookup_insert. case_decide; [|by right].
    intros [= <-]. subst v. left. split; [done|]. apply wire_key.
Qed.

Lemma new_entry_prev access st key :
  wf st →
  -1 <= prev (array_get key (links (new_entry access st))) < historySize st ∧
  prev (array_get key (links (new_entry access st))) ≠ head st.
Proof.
  intros Hwf. pose proof (wf_size _ Hwf). pose proof (wf_head _ Hwf).
  assert (Hw : ∀ v, -1 <= prev (wire st (array_get key (index_before_write st)) v)
                      < historySize st ∧
                    prev (wire st (array_get key (index_before_write st)) v)
                      ≠ head st).
  { intros v. rewrite wire_prev.
    destruct (array_get key (index_before_write st) !! v) as [p|] eqn:Hp;
      simpl; [|lia].
    destruct (index_before_write_entry _ _ _ _ Hwf Hp) as [Hne [e He]].
    apply history_at_Some in He. rewrite (wf_length _ Hwf) in He.
    unfold id. lia. }
  unfold new_entry, pc_link, page_link. destruct key; simpl.
  - destruct (pc_value access st); [apply (Hw z)|simpl; lia].
  - apply Hw.
Qed.

Lemma next_head_range st :
  wf st → 0 <= next_head st < historySize st.
Proof.
  intros Hwf. pose proof (wf_size _ Hwf).
  unfold next_head. apply Z.mod_pos_bound. lia.
Qed.

Lemma next_head_nonzero st :
  wf st → next_head st ≠ 0 → next_head st = head st + 1.
Proof.
  intros Hwf Hnz. pose proof (wf_size _ Hwf). pose proof (wf_head _ Hwf).
  unfold next_head in *.
  destruct (Z.eq_dec (head st + 1) (historySize st)) as [Heq|Hne].
  - rewrite Heq, Z.mod_same in Hnz by lia. done.
  - apply Z.mod_small. lia.
Qed.

Lemma wf_inserted access st : wf st → wf (inserted access st).
Proof.
  intros Hwf.
  pose proof (wf_size _ Hwf) as Hsz. pose proof (wf_head _ Hwf) as Hhd.
  split.
  - simpl. rewrite length_insert. apply (wf_length _ Hwf).
  - done.
  - apply (next_head_range _ Hwf).
  - intros key v s Hs. rewrite history_at_inserted by done.
    change (lastIndex (inserted access st)) with (new_index access st) in Hs.
    destruct (new_index_lookup _ _ _ _ _ Hs) as [(-> & Hv & Hk)|Hold].
    + rewrite decide_True by done. eauto.
    + destruct (index_before_write_entry _ _ _ _ Hwf Hold) as [Hne _].
      rewrite decide_False by done.
      apply index_before_write_sub in Hold.
      apply (wf_index _ Hwf _ _ _ Hold).
  - simpl. intros Hf key v s Hs.
    apply orb_false_iff in Hf as [Hf Hnz].
    apply Z.eqb_neq in Hnz.
    rewrite (next_head_nonzero _ Hwf Hnz).
    destruct (new_index_lookup _ _ _ _ _ Hs) as [(-> & _)|Hold]; [lia|].
    apply index_before_write_sub in Hold.
    pose proof (wf_unfilled _ Hwf Hf _ _ _ Hold). lia.
  - intros s e key. rewrite history_at_inserted by done.
    change (historySize (inserted access st)) with (historySize st).
    case_decide.
    + intros [= <-]. apply (new_entry_prev _ _ _ Hwf).
    + apply (wf_prev _ Hwf).
  - apply (wf_table _ Hwf).
Qed.

Lemma wf_new hs pl d up pb ct :
  hs <= INT32_MAX → wf (GHBHistory_new hs pl d up pb ct).
Proof.
  intros Hhs. unfold INT32_MAX in *. split; simpl.
  - rewrite length_replicate. lia.
  - unfold INT32_MAX. lia.
  - lia.
  - intros key v s. destruct key; simpl; by rewrite lookup_empty.
  - intros _ key v s. destruct key; simpl; by rewrite lookup_empty.
  - intros s e key. unfold history_at. simpl.
    destruct (s <? 0); [done|]. intros Hl.
    apply lookup_replicate in Hl as [-> _]. destruct key; simpl; lia.
  - intros key e. by rewrite lookup_empty.
Qed.

Lemma wf_reset st : wf st → wf (reset st).
Proof.
  intros Hwf. pose proof (wf_size _ Hwf). split; simpl.
  - rewrite length_map. apply (wf_length _ Hwf).
  - done.
  - lia.
  - intros key v s. destruct key; simpl; by rewrite lookup_empty.
  - intros _ key v s. destruct key; simpl; by rewrite lookup_empty.
  - intros s e key. unfold history_at. simpl.
    destruct (s <? 0); [done|]. rewrite list_lookup_fmap.
    destruct (history st !! Z.to_nat s); [|done].
    intros [= <-]. destruct key; simpl; lia.
  - intros key e. by rewrite lookup_empty.
Qed.

Lemma learn_table_ok key next table :
  table_ok table → table_ok (learn key next table).
Proof.
  intros Hok k e. unfold learn. rewrite lookup_insert.
  case_decide; [|apply Hok].
  intros [= <-]. simpl. apply insert_non_empty.
Qed.

Lemma fold_left_preserves {A B} (P : A → Prop) (f : A → B → A) l a :
  (∀ a b, P a → P (f a b)) → P a → P (fold_left f l a).
Proof.
  intros Hf. revert a. induction l as [|b l IH]; simpl; auto.
Qed.

Lemma wf_updatePatternTable chronological st :
  wf st → wf (updatePatternTable chronological st).
Proof.
  intros Hwf. unfold updatePatternTable.
  destruct (length chronological <? 3)%nat; [done|].
  destruct Hwf. split; try done. simpl.
  apply (fold_left_preserves table_ok); [|done].
  intros t i. apply learn_table_ok.
Qed.

Lemma wf_reachable init n st :
  wf init → reachable init n st → wf st.
Proof.
  intros Hinit Hr. induction Hr as [|n st _ IH|n st access st' slot _ IH Hins
                                    |n st chronological _ IH].
  - done.
  - by apply wf_reset.
  - rewrite (insert_eq _ _ IH) in Hins. injection Hins as <- _.
    by apply wf_inserted.
  - by apply wf_updatePatternTable.
Qed.

(** ** The sequence numbers are in order *)

Lemma wire_cases st m value :
  (∃ p, m !! value = Some p ∧
        wire st m value =
        mkLinkInfo p (from_option seq 0 (history_at st p)) value true) ∨
  (m !! value = None ∧ wire st m value = mkLinkInfo (-1) 0 value true).
Proof. unfold wire. destruct (m !! value); eauto. Qed.

Lemma new_entry_link access st key :
  array_get key (links (new_entry access st)) = LinkInfo_default ∨
  ∃ v, array_get key (links (new_entry access st)) =
       wire st (array_get key (index_before_write st)) v.
Proof.
  unfold new_entry, pc_link, page_link. destruct key; simpl.
  - destruct (pc_value access st); eauto.
  - eauto.
Qed.

(** A link of the entry just written points, if anywhere, at another slot
    and records the sequence number that slot holds. *)
Lemma new_entry_link_target access st key :
  wf st →
  0 <= prev (array_get key (links (new_entry access st))) →
  ∃ pe, prev (array_get key (links (new_entry access st))) ≠ head st ∧
        history_at st (prev (array_get key (links (new_entry access st))))
          = Some pe ∧
        prevSeq (array_get key (links (new_entry access st))) = seq pe.
Proof.
  intros Hwf Hp.
  destruct (new_entry_link access st key) as [Hd|[v Hw]].
  { rewrite Hd in Hp. simpl in Hp. lia. }
  rewrite Hw in *.
  destruct (wire_cases st (array_get key (index_before_write st)) v)
    as [(p & Hm & Heq)|[_ Heq]]; rewrite Heq in *; simpl in *; [|lia].
  destruct (index_before_write_entry _ _ _ _ Hwf Hm) as [Hne [pe Hpe]].
  exists pe. by rewrite Hpe.
Qed.

Lemma to_uint64_small x : 0 <= x < UINT64_MOD → to_uint64 x = x.
Proof. intros. unfold to_uint64. by apply Z.mod_small. Qed.

Lemma seq_ok_inserted access n st :
  wf st → seq_ok n st → Z.of_nat (S n) < UINT64_MAX →
  seq_ok (S n) (inserted access st).
Proof.
  intros Hwf Hsq Hn. pose proof (sq_counter _ _ Hsq) as Hc.
  unfold UINT64_MAX in Hn.
  assert (Hc' : sequenceCounter (inserted access st)
                = sequenceCounter st + 1).
  { simpl. apply to_uint64_small. unfold UINT64_MOD. lia. }
  split.
  - rewrite Hc'. lia.
  - intros s e. rewrite Hc', history_at_inserted by done. case_decide.
    + intros [= <-]. simpl. lia.
    + intros He. pose proof (sq_bound _ _ Hsq _ _ He). lia.
  - intros s t e e'. rewrite !history_at_inserted by done.
    repeat case_decide; intros He He' Hne Hnz.
    + congruence.
    + injection He as <-. simpl.
      pose proof (sq_bound _ _ Hsq _ _ He'). lia.
    + injection He' as <-. simpl.
      pose proof (sq_bound _ _ Hsq _ _ He). lia.
    + by eapply (sq_distinct _ _ Hsq).
  - intros s e key. rewrite history_at_inserted by done. case_decide.
    + intros [= <-] Hp.
      destruct (new_entry_link_target access st key Hwf Hp)
        as (pe & Hne & Hpe & Hps).
      exists pe. rewrite history_at_inserted, decide_False by done.
      split; [done|]. rewrite Hps.
      pose proof (sq_bound _ _ Hsq _ _ Hpe). simpl. lia.
    + intros He Hp.
      destruct (sq_link _ _ Hsq _ _ key He Hp) as (pe & Hpe & Hle & Hlt).
      rewrite history_at_inserted by done. case_decide as Hh.
      * exists (new_entry access st). split; [done|]. simpl.
        pose proof (sq_bound _ _ Hsq _ _ Hpe). lia.
      * eauto.
Qed.

Lemma seq_ok_new hs pl d up pb ct : seq_ok 0 (GHBHistory_new hs pl d up pb ct).
Proof.
  assert (Hd : ∀ s e, history_at (GHBHistory_new hs pl d up pb ct) s = Some e
                      → e = GHBEntry_default).
  { intros s e. unfold history_at. simpl. destruct (s <? 0); [done|].
    intros Hl. by apply lookup_replicate in Hl as [-> _]. }
  split.
  - done.
  - intros s e He. rewrite (Hd _ _ He). simpl. lia.
  - intros s t e e' He _ _. by rewrite (Hd _ _ He).
  - intros s e key He. rewrite (Hd _ _ He). destruct key; simpl; lia.
Qed.

Lemma seq_ok_reset st : seq_ok 0 (reset st).
Proof.
  assert (Hd : ∀ s e, history_at (reset st) s = Some e
                      → e = GHBEntry_default).
  { intros s e. unfold history_at. simpl. destruct (s <? 0); [done|].
    rewrite list_lookup_fmap. destruct (history st !! Z.to_nat s); [|done].
    by intros [= <-]. }
  split.
  - done.
  - intros s e He. rewrite (Hd _ _ He). simpl. lia.
  - intros s t e e' He _ _. by rewrite (Hd _ _ He).
  - intros s e key He. rewrite (Hd _ _ He). destruct key; simpl; lia.
Qed.

Lemma seq_ok_updatePatternTable chronological n st :
  seq_ok n st → seq_ok n (updatePatternTable chronological st).
Proof.
  unfold updatePatternTable.
  destruct (length chronological <? 3)%nat; [done|].
  intros [H1 H2 H3 H4]. split; done.
Qed.

Lemma seq_ok_reachable init n st :
  wf init → seq_ok 0 init → reachable init n st →
  Z.of_nat n < UINT64_MAX → seq_ok n st.
Proof.
  intros Hwf Hinit Hr.
  induction Hr as [|n st _ IH|n st access st' slot Hr IH Hins
                   |n st chronological _ IH]; intros Hn.
  - done.
  - apply seq_ok_reset.
  - pose proof (wf_reachable _ _ _ Hwf Hr) as Hwfst.
    rewrite (insert_eq _ _ Hwfst) in Hins. injection Hins as <- _.
    apply seq_ok_inserted; [done| |done]. apply IH. lia.
  - by apply seq_ok_updatePatternTable, IH.
Qed.

(** ** The loop of the pattern builder is the chain walk *)

Lemma pattern_walk_deterministic st key room slot ds ds' :
  pattern_walk st key room slot ds → pattern_walk st key room slot ds' →
  ds = ds'.
Proof.
  intros H. revert ds'.
  induction H as [slot|room slot entry He Hp
                  |room slot entry prev_entry He Hp Hpe Hs
                  |room slot entry prev_entry rest He Hp Hpe Hs Hw IH];
    intros ds' H'; inversion H'; subst; try done;
    repeat match goal with
    | H1 : history_at st ?s = Some ?a, H2 : history_at st ?s = Some ?b |- _ =>
        rewrite H1 in H2; injection H2 as ->
    end; try done; try lia.
  f_equal. by apply IH.
Qed.

Lemma buildPattern_loop_walk st key room slot :
  wf st → 0 <= slot < historySize st →
  ∃ deltas,
    buildPattern_loop st key room slot = Some deltas ∧
    pattern_walk st key room slot deltas ∧
    (length deltas <= room)%nat.
Proof.
  intros Hwf. revert slot.
  induction room as [|room IH]; intros slot Hslot.
  { exists []. repeat split; [constructor|done]. }
  destruct (history_at_is_Some st slot) as [entry He].
  { by rewrite (wf_length _ Hwf). }
  simpl. rewrite He. simpl.
  pose proof (wf_prev _ Hwf _ _ key He) as Hprev.
  destruct (Z.ltb_spec (prev (array_get key (links entry))) 0) as [Hneg|Hpos].
  { exists []. repeat split; [by eapply walk_no_predecessor|simpl; lia]. }
  destruct (history_at_is_Some st (prev (array_get key (links entry))))
    as [prev_entry Hpe].
  { rewrite (wf_length _ Hwf). lia. }
  rewrite Hpe. simpl.
  destruct (Z.eqb_spec (seq prev_entry)
              (prevSeq (array_get key (links entry)))) as [Heq|Hne]; simpl.
  - destruct (IH (prev (array_get key (links entry)))) as (rest & -> & Hw & Hl).
    { lia. }
    simpl. eexists. repeat split; [by eapply walk_step|simpl; lia].
  - exists []. repeat split; [by eapply walk_stale|simpl; lia].
Qed.

Lemma pattern_walk_nth st key room slot deltas i delta :
  pattern_walk st key room slot deltas → deltas !! i = Some delta →
  ∃ s entry prev_entry,
    nth_predecessor st key i slot = Some s ∧
    followed st key s ∧
    history_at st s = Some entry ∧
    history_at st (prev (array_get key (links entry))) = Some prev_entry ∧
    delta = to_int64 (to_int64 (addr entry) - to_int64 (addr prev_entry)).
Proof.
  intros Hw. revert i.
  induction Hw as [slot|room slot entry He Hp
                   |room slot entry prev_entry He Hp Hpe Hs
                   |room slot entry prev_entry rest He Hp Hpe Hs Hw IH];
    intros i Hi; try done.
  destruct i as [|i]; simpl in Hi.
  - injection Hi as <-. exists slot, entry, prev_entry.
    repeat split; try done. by exists entry, prev_entry.
  - destruct (IH i Hi) as (s & e & pe & Hn & Hrest).
    exists s, e, pe. split; [|done]. simpl. by rewrite He.
Qed.

(** ** The configuration is fixed at construction *)

Lemma same_config_reachable init n st :
  wf init → reachable init n st → same_config init st.
Proof.
  intros Hwf Hr.
  induction Hr as [|n st _ IH|n st access st' slot Hr IH Hins
                   |n st chronological _ IH].
  - by repeat split.
  - exact IH.
  - rewrite (insert_eq _ _ (wf_reachable _ _ _ Hwf Hr)) in Hins.
    injection Hins as <- _. exact IH.
  - unfold updatePatternTable.
    by destruct (length chronological <? 3)%nat.
Qed.

Lemma followed_older n st key s :
  seq_ok n st → followed st key s →
  ∃ e pe, history_at st s = Some e ∧
          history_at st (prev (array_get key (links e))) = Some pe ∧
          seq pe < seq e.
Proof.
  intros Hsq (e & pe & He & Hp & Hpe & Hs).
  destruct (sq_link _ _ Hsq _ _ key He Hp) as (pe' & Hpe' & _ & Hlt).
  rewrite Hpe in Hpe'. injection Hpe' as <-.
  exists e, pe. repeat split; [done..|lia].
Qed.

(** ** Properties of the pattern builder *)

(** C1. In a predictor obtained from the constructor by any operations,
    [buildPattern] on a slot inside the buffer returns, and what it returns
    is the chain walk of the design: from [slot] backwards, one delta
    [entry.addr - predecessor.addr] per followed link, stopping at a link
    without predecessor, at a link whose recorded predecessor sequence
    differs from the predecessor's current one, or once [patternLength]
    deltas are there.  The flag is [false] exactly when no delta was
    collected.  The list is ordered most recent first: the delta at
    position [i] is that of the entry reached after [i] steps along the
    links, and (while the 64-bit sequence counter has not run through its
    range) each step leads to an entry inserted earlier. *)
Theorem buildPattern_walks_chain hs pl d up pb ct n st slot key :
  hs <= INT32_MAX →
  reachable (GHBHistory_new hs pl d up pb ct) n st →
  0 <= slot < historySize st →
  ∃ flag deltas,
    buildPattern slot key st = Some (flag, deltas) ∧
    pattern_walk st key (Z.to_nat (patternLength st)) slot deltas ∧
    (∀ ds, pattern_walk st key (Z.to_nat (patternLength st)) slot ds →
           ds = deltas) ∧
    Z.of_nat (length deltas) <= patternLength st ∧
    (flag = false ↔ deltas = []) ∧
    (∀ i delta, deltas !! i = Some delta →
       ∃ s entry prev_entry,
         nth_predecessor st key i slot = Some s ∧
         history_at st s = Some entry ∧
         history_at st (prev (array_get key (links entry)))
           = Some prev_entry ∧
         delta = to_int64 (to_int64 (addr entry)
                           - to_int64 (addr prev_entry)) ∧
         (Z.of_nat n < UINT64_MAX → seq prev_entry < seq entry)).
Proof.
  intros Hhs Hr Hslot.
  pose proof (wf_new hs pl d up pb ct Hhs) as Hwf0.
  pose proof (wf_reachable _ _ _ Hwf0 Hr) as Hwf.
  destruct (same_config_reachable _ _ _ Hwf0 Hr) as (_ & Hpl & _).
  simpl in Hpl.
  destruct (buildPattern_loop_walk st key (Z.to_nat (patternLength st)) slot
              Hwf Hslot) as (deltas & Hloop & Hwalk & Hlen).
  exists (negb (bool_decide (deltas = []))), deltas.
  split; [|split; [done|split; [|split; [|split]]]].
  - unfold buildPattern. rewrite (wf_length _ Hwf).
    destruct (Z.ltb_spec slot 0); [lia|].
    destruct (Z.leb_spec (historySize st) slot); [lia|].
    simpl. by rewrite Hloop.
  - intros ds Hds. by eapply pattern_walk_deterministic.
  - lia.
  - rewrite negb_false_iff, bool_decide_eq_true. done.
  - intros i delta Hi.
    destruct (pattern_walk_nth _ _ _ _ _ _ _ Hwalk Hi)
      as (s & entry & prev_entry & Hnth & Hf & He & Hpe & Hd).
    exists s, entry, prev_entry. repeat split; try done.
    intros Hn.
    pose proof (seq_ok_reachable _ _ _ Hwf0 (seq_ok_new hs pl d up pb ct)
                  Hr Hn) as Hsq.
    destruct (followed_older _ _ _ _ Hsq Hf) as (e' & pe' & He' & Hpe' & Hlt).
    rewrite He in He'. injection He' as <-.
    rewrite Hpe in Hpe'. by injection Hpe' as <-.
Qed.

(** C10. [buildPattern] on an index that is negative or not below the
    history capacity returns [false] with an empty delta list, whatever the
    buffer holds: the result is the same for any other contents of the
    buffer, so no slot is consulted. *)
Theorem buildPattern_rejects_out_of_range hs pl d up pb ct n st index key :
  hs <= INT32_MAX →
  reachable (GHBHistory_new hs pl d up pb ct) n st →
  index < 0 ∨ historySize st <= index →
  buildPattern index key st = Some (false, []) ∧
  ∀ h, length h = length (history st) →
       buildPattern index key (set_history h st) = Some (false, []).
Proof.
  intros Hhs Hr Hidx.
  pose proof (wf_reachable _ _ _ (wf_new hs pl d up pb ct Hhs) Hr) as Hwf.
  pose proof (wf_length _ Hwf) as Hlen.
  assert (Hgen : ∀ h, length h = length (history st) →
            buildPattern index key (set_history h st) = Some (false, [])).
  { intros h Hh. unfold buildPattern. simpl. rewrite Hh, Hlen.
    destruct (Z.ltb_spec index 0); [done|].
    destruct (Z.leb_spec (historySize st) index); [done|lia]. }
  split; [|done].
  specialize (Hgen (history st) eq_refl).
  by replace (set_history (history st) st) with st in Hgen by by destruct st.
Qed.

(** ** Properties of the correlation indices *)

Lemma unmap_not_slot slot l m v :
  (∀ v', m !! v' = Some slot → keyValid l = true ∧ keyValue l = v') →
  unmap slot l m !! v ≠ Some slot.
Proof.
  intros Hm Hu. pose proof (unmap_lookup_Some _ _ _ _ _ Hu) as Hv.
  destruct (Hm _ Hv) as [Hvalid Hkey].
  unfold unmap in Hu. rewrite Hvalid, Hkey, Hv, Z.eqb_refl in Hu.
  by rewrite lookup_delete_eq in Hu.
Qed.

Lemma unmap_other slot l m v s :
  s ≠ slot → unmap slot l m !! v = Some s ↔ m !! v = Some s.
Proof.
  intros Hne. split; [apply unmap_lookup_Some|].
  intros Hv. unfold unmap. destruct (keyValid l); [|done].
  destruct (m !! keyValue l) as [s'|] eqn:Hs'; [|done].
  destruct (Z.eqb_spec s' slot) as [->|]; [|done].
  rewrite lookup_delete_ne; [done|]. intros <-. congruence.
Qed.

Lemma evictIndex_spec st slot :
  wf st → 0 <= slot < historySize st →
  ∃ st1, evictIndex slot st = Some st1 ∧
    (∀ key v, array_get key (lastIndex st1) !! v ≠ Some slot) ∧
    (∀ key v s, s ≠ slot →
       array_get key (lastIndex st1) !! v = Some s ↔
       array_get key (lastIndex st) !! v = Some s).
Proof.
  intros Hwf Hslot.
  destruct (history_at_is_Some st slot) as [e He].
  { by rewrite (wf_length _ Hwf). }
  eexists. split; [by apply removeIndexMappings_eq|]. simpl. split.
  - intros key v.
    assert (Hm : ∀ v', array_get key (lastIndex st) !! v' = Some slot →
              keyValid (array_get key (links e)) = true ∧
              keyValue (array_get key (links e)) = v').
    { intros v' Hv'.
      destruct (wf_index _ Hwf _ _ _ Hv') as (e' & He' & Hvalid & Hkey).
      rewrite He in He'. by injection He' as <-. }
    destruct key; simpl in *; by apply unmap_not_slot.
  - intros key v s Hne. destruct key; simpl; by apply unmap_other.
Qed.

Lemma new_index_Page access st :
  array_get Page (new_index access st)
    !! computePage st (access_addr access) = Some (head st).
Proof. simpl. apply lookup_insert_eq. Qed.

Lemma new_index_PC access st pc :
  usePC st = true → access_pc access = Some pc →
  array_get PC (new_index access st) !! pc = Some (head st).
Proof.
  intros Hu Hpc. unfold new_index, pc_value. rewrite Hu, Hpc. simpl.
  apply lookup_insert_eq.
Qed.

(** C2. In every predictor obtained from the constructor by any
    operations, an index entry is never dangling: whatever slot an index
    gives for a key value (a map gives at most one), that slot is in the
    buffer and its link for this key kind is valid and carries this key
    value.  An insertion leaves the index entries of the access's key
    values pointing at the slot it returns.  Evicting a slot leaves no
    index entry that points at it and touches no entry that points
    elsewhere; on a filled buffer the insertion evicts the slot under the
    write head first and builds the new index from the result. *)
Theorem index_never_dangles hs pl d up pb ct n st :
  hs <= INT32_MAX →
  reachable (GHBHistory_new hs pl d up pb ct) n st →
  (∀ key v s,
     array_get key (lastIndex st) !! v = Some s →
     ∃ e, history_at st s = Some e ∧
          keyValid (array_get key (links e)) = true ∧
          keyValue (array_get key (links e)) = v) ∧
  (∀ access, ∃ st',
     insert access st = Some (st', head st) ∧
     array_get Page (lastIndex st')
       !! computePage st (access_addr access) = Some (head st) ∧
     (∀ pc, usePC st = true → access_pc access = Some pc →
            array_get PC (lastIndex st') !! pc = Some (head st)) ∧
     (∀ key v s, array_get key (lastIndex st') !! v = Some s →
        s ≠ head st → array_get key (lastIndex st) !! v = Some s)) ∧
  (∀ slot, 0 <= slot < historySize st →
     ∃ st1, evictIndex slot st = Some st1 ∧
       (∀ key v, array_get key (lastIndex st1) !! v ≠ Some slot) ∧
       (∀ key v s, s ≠ slot →
          array_get key (lastIndex st1) !! v = Some s ↔
          array_get key (lastIndex st) !! v = Some s)) ∧
  (filled st = true →
   ∀ access, ∃ st1 st',
     evictIndex (head st) st = Some st1 ∧
     insert access st = Some (st', head st) ∧
     lastIndex st' =
       (match pc_value access st with
        | Some v => <[v := head st]> (fst (lastIndex st1))
        | None => fst (lastIndex st1)
        end,
        <[computePage st (access_addr access) := head st]>
          (snd (lastIndex st1)))).
Proof.
  intros Hhs Hr.
  pose proof (wf_reachable _ _ _ (wf_new hs pl d up pb ct Hhs) Hr) as Hwf.
  split; [apply (wf_index _ Hwf)|]. split; [|split].
  - intros access. exists (inserted access st).
    split; [by apply insert_eq|]. split; [apply new_index_Page|].
    split; [apply new_index_PC|].
    intros key v s Hs Hne.
    change (lastIndex (inserted access st)) with (new_index access st) in Hs.
    destruct (new_index_lookup _ _ _ _ _ Hs) as [[-> _]|Hold]; [done|].
    by apply index_before_write_sub.
  - intros slot Hslot. by apply evictIndex_spec.
  - intros Hf access. destruct (wf_head_entry _ Hwf) as [e He].
    eexists _, (inserted access st).
    split; [by apply removeIndexMappings_eq|].
    split; [by apply insert_eq|].
    simpl. unfold new_index, index_before_write. by rewrite Hf, He.
Qed.

(** ** Properties of the sequence numbers *)

Lemma overwritten_not_followed access n st key s e :
  wf st → seq_ok n st →
  history_at (inserted access st) s = Some e →
  prev (array_get key (links e)) = head st →
  ¬ followed (inserted access st) key s.
Proof.
  intros Hwf Hsq He Hprev (e' & pe & He' & Hp & Hpe & Hs).
  rewrite He in He'. injection He' as <-. rewrite Hprev in Hpe.
  rewrite history_at_inserted in He, Hpe by done.
  rewrite decide_True in Hpe by done. injection Hpe as <-.
  case_decide as Hsh.
  - injection He as <-.
    by destruct (new_entry_prev access st key Hwf) as [_ Hne].
  - pose proof (wf_head _ Hwf) as Hhd.
    destruct (sq_link _ _ Hsq _ _ key He) as (pe & Hpe & Hle & _).
    { lia. }
    rewrite Hprev in Hpe. pose proof (sq_bound _ _ Hsq _ _ Hpe).
    simpl in Hs. lia.
Qed.

Lemma grows_reachable init n st m st' :
  reachable init n st → grows st m st' → reachable init (n + m) st'.
Proof.
  intros Hr Hg.
  induction Hg as [|m st1 access st2 slot _ IH Hins|m st1 chronological _ IH].
  - by rewrite Nat.add_0_r.
  - rewrite Nat.add_succ_r. by eapply reach_insert.
  - by apply reach_update.
Qed.

Lemma history_at_updatePatternTable chronological st s :
  history_at (updatePatternTable chronological st) s = history_at st s.
Proof.
  unfold updatePatternTable. by destruct (length chronological <? 3)%nat.
Qed.

(** Along insertions and training calls, a slot either keeps its entry or
    holds one stamped at or after the counter of the starting point. *)
Lemma grows_entry init n st m st' s e e' :
  wf init → seq_ok 0 init →
  reachable init n st → grows st m st' →
  Z.of_nat (n + m) < UINT64_MAX →
  history_at st s = Some e → history_at st' s = Some e' →
  e' = e ∨ sequenceCounter st <= seq e'.
Proof.
  intros Hwf0 Hsq0 Hr Hg. revert e'.
  induction Hg as [|m st1 access st2 slot Hg IH Hins
                   |m st1 chronological Hg IH]; intros e' Hn He He'.
  - left. congruence.
  - pose proof (grows_reachable _ _ _ _ _ Hr Hg) as Hr1.
    pose proof (wf_reachable _ _ _ Hwf0 Hr1) as Hwf1.
    assert (Hn1 : Z.of_nat (n + m) < UINT64_MAX) by lia.
    pose proof (seq_ok_reachable _ _ _ Hwf0 Hsq0 Hr1 Hn1) as Hsq1.
    assert (Hn0 : Z.of_nat n < UINT64_MAX) by lia.
    pose proof (seq_ok_reachable _ _ _ Hwf0 Hsq0 Hr Hn0) as Hsq.
    rewrite (insert_eq _ _ Hwf1) in Hins. injection Hins as <- _.
    rewrite history_at_inserted in He' by done. case_decide.
    + injection He' as <-. right. simpl.
      rewrite (sq_counter _ _ Hsq), (sq_counter _ _ Hsq1). lia.
    + apply IH; [lia|done..].
  - rewrite history_at_updatePatternTable in He'. by apply IH.
Qed.

Lemma not_followed_no_pattern st key s e :
  wf st → history_at st s = Some e → ¬ followed st key s →
  buildPattern s key st = Some (false, []).
Proof.
  intros Hwf He Hnf.
  pose proof (history_at_Some _ _ _ He) as Hs.
  unfold buildPattern.
  destruct (Z.ltb_spec s 0); [lia|].
  destruct (Z.leb_spec (Z.of_nat (length (history st))) s); [lia|].
  cbn [orb].
  destruct (Z.to_nat (patternLength st)) as [|room]; [done|].
  cbn [buildPattern_loop]. rewrite He. cbn [mbind option_bind].
  destruct (Z.ltb_spec (prev (array_get key (links e))) 0) as [|Hp]; [done|].
  pose proof (wf_prev _ Hwf _ _ key He) as Hr.
  destruct (history_at_is_Some st (prev (array_get key (links e))))
    as [pe Hpe].
  { rewrite (wf_length _ Hwf). lia. }
  rewrite Hpe. cbn [mbind option_bind].
  destruct (Z.eqb_spec (seq pe) (prevSeq (array_get key (links e))))
    as [Heq|Hne]; [|done].
  destruct Hnf. by exists e, pe.
Qed.

Lemma buildPattern_follows_links st key slot flag deltas (i : nat) delta :
  wf st →
  buildPattern slot key st = Some (flag, deltas) →
  deltas !! i = Some delta →
  ∃ s, nth_predecessor st key i slot = Some s ∧ followed st key s.
Proof.
  intros Hwf Hb Hi.
  unfold buildPattern in Hb. rewrite (wf_length _ Hwf) in Hb.
  destruct (Z.ltb_spec slot 0).
  { injection Hb as _ <-. by rewrite lookup_nil in Hi. }
  destruct (Z.leb_spec (historySize st) slot).
  { injection Hb as _ <-. by rewrite lookup_nil in Hi. }
  cbn [orb] in Hb.
  destruct (buildPattern_loop_walk st key (Z.to_nat (patternLength st)) slot
              Hwf ltac:(lia)) as (ds & Hloop & Hwalk & _).
  rewrite Hloop in Hb. cbn [mbind option_bind] in Hb.
  injection Hb as _ <-.
  destruct (pattern_walk_nth _ _ _ _ _ _ _ Hwalk Hi)
    as (s & _ & _ & Hs & Hf & _).
  by exists s.
Qed.

(** C6. As long as the 64-bit counter has not run through its range
    (fewer than [UINT64_MAX] insertions since construction or the last
    [reset]), the insertion that follows [n] earlier ones is stamped
    [n + 1]: the first one after construction or after a [reset] gets 1,
    and every stamp is larger than all stamps in the buffer.  Hence two
    written slots never hold the same stamp, a link that [buildPattern]
    follows leads to an entry written before the entry holding the link,
    an insertion leaves no followed link pointing at the slot it has just
    overwritten, and a link whose target slot has changed since some
    moment at which the link was there, while the slot holding the link
    has not, is not followed.  For [buildPattern] itself: every delta it
    returns was taken across a followed link of the chain of its start
    slot, and started at a slot whose link names an overwritten slot it
    returns no pattern. *)
Theorem sequence_numbers_detect_stale_links hs pl d up pb ct n st :
  hs <= INT32_MAX →
  reachable (GHBHistory_new hs pl d up pb ct) n st →
  Z.of_nat n < UINT64_MAX →
  (∀ access, ∃ st' e,
     insert access st = Some (st', head st) ∧
     history_at st' (head st) = Some e ∧
     seq e = Z.of_nat n + 1 ∧
     ∀ s e0, history_at st s = Some e0 → seq e0 < seq e) ∧
  (∀ s t e e',
     history_at st s = Some e → history_at st t = Some e' →
     s ≠ t → seq e ≠ 0 → seq e ≠ seq e') ∧
  (∀ key s, followed st key s →
     ∃ e pe, history_at st s = Some e ∧
             history_at st (prev (array_get key (links e))) = Some pe ∧
             seq pe < seq e) ∧
  (∀ access st' slot, insert access st = Some (st', slot) →
     ∀ key s e, history_at st' s = Some e →
                prev (array_get key (links e)) = slot →
                ¬ followed st' key s) ∧
  (∀ m st' key s e,
     grows st m st' → Z.of_nat (n + m) < UINT64_MAX →
     history_at st s = Some e → history_at st' s = Some e →
     0 <= prev (array_get key (links e)) →
     history_at st' (prev (array_get key (links e)))
       ≠ history_at st (prev (array_get key (links e))) →
     ¬ followed st' key s) ∧
  (∀ key slot flag deltas (i : nat) delta,
     buildPattern slot key st = Some (flag, deltas) →
     deltas !! i = Some delta →
     ∃ s, nth_predecessor st key i slot = Some s ∧ followed st key s) ∧
  (∀ access st' slot, insert access st = Some (st', slot) →
     ∀ key s e, history_at st' s = Some e →
                prev (array_get key (links e)) = slot →
                buildPattern s key st' = Some (false, [])) ∧
  (∀ m st' key s e,
     grows st m st' → Z.of_nat (n + m) < UINT64_MAX →
     history_at st s = Some e → history_at st' s = Some e →
     0 <= prev (array_get key (links e)) →
     history_at st' (prev (array_get key (links e)))
       ≠ history_at st (prev (array_get key (links e))) →
     buildPattern s key st' = Some (false, [])).
Proof.
  intros Hhs Hr Hn.
  pose proof (wf_new hs pl d up pb ct Hhs) as Hwf0.
  pose proof (wf_reachable _ _ _ Hwf0 Hr) as Hwf.
  pose proof (seq_ok_reachable _ _ _ Hwf0 (seq_ok_new hs pl d up pb ct) Hr Hn)
    as Hsq.
  assert (Hstale : ∀ m st' key s e,
     grows st m st' → Z.of_nat (n + m) < UINT64_MAX →
     history_at st s = Some e → history_at st' s = Some e →
     0 <= prev (array_get key (links e)) →
     history_at st' (prev (array_get key (links e)))
       ≠ history_at st (prev (array_get key (links e))) →
     ¬ followed st' key s).
  { intros m st' key s e Hg Hnm He He' Hp Hover
      (e2 & pe' & He2 & _ & Hpe' & Hs).
    rewrite He' in He2. injection He2 as <-.
    destruct (sq_link _ _ Hsq _ _ key He Hp) as (pe & Hpe & Hle & _).
    pose proof (sq_bound _ _ Hsq _ _ Hpe) as Hb.
    destruct (grows_entry _ _ _ _ _ _ _ _ Hwf0 (seq_ok_new hs pl d up pb ct)
                Hr Hg Hnm Hpe Hpe') as [->|Hnew].
    - by rewrite Hpe, Hpe' in Hover.
    - lia. }
  split; [|split; [|split; [|split; [|split; [|split; [|split]]]]]].
  - intros access. exists (inserted access st), (new_entry access st).
    split; [by apply insert_eq|].
    split; [by rewrite history_at_inserted, decide_True|].
    simpl. rewrite (sq_counter _ _ Hsq). split; [lia|].
    intros s e0 He0. pose proof (sq_bound _ _ Hsq _ _ He0).
    rewrite (sq_counter _ _ Hsq) in *. lia.
  - apply (sq_distinct _ _ Hsq).
  - intros key s. by apply followed_older with n.
  - intros access st' slot Hins.
    rewrite (insert_eq _ _ Hwf) in Hins. injection Hins as <- <-.
    intros key s e. by apply overwritten_not_followed with n.
  - exact Hstale.
  - intros key slot flag deltas i delta.
    by apply buildPattern_follows_links.
  - intros access st' slot Hins.
    rewrite (insert_eq _ _ Hwf) in Hins. injection Hins as <- <-.
    intros key s e He Hp.
    apply (not_followed_no_pattern _ _ _ e); [by apply wf_inserted|done|].
    by apply overwritten_not_followed with n e.
  - intros m st' key s e Hg Hnm He He' Hp Hover.
    apply (not_followed_no_pattern _ _ _ e); [|done|by eapply Hstale].
    eapply wf_reachable; [exact Hwf0|].
    eapply grows_reachable; [exact Hr|exact Hg].
Qed.

(** ** Properties of the pattern table *)

Lemma raw_count_learn key' next' table key next :
  raw_count (learn key' next' table) key next =
  if decide (key' = key ∧ next' = next)
  then Some (to_uint32 (default 0 (raw_count table key next) + 1))
  else raw_count table key next.
Proof.
  unfold raw_count, learn. rewrite lookup_insert.
  destruct (decide (key' = key)) as [->|Hk]; simpl.
  - rewrite lookup_insert.
    destruct (decide (next' = next)) as [->|Hn].
    + rewrite decide_True by done. by destruct (table !! key).
    + rewrite decide_False by (by intros [_ ?]). by destruct (table !! key).
  - rewrite decide_False by (by intros [? _]). done.
Qed.

Lemma raw_total_learn key' next' table key :
  raw_total (learn key' next' table) key =
  if decide (key' = key)
  then Some (to_uint32 (default 0 (raw_total table key) + 1))
  else raw_total table key.
Proof.
  unfold raw_total, learn. rewrite lookup_insert.
  case_decide; [subst; simpl|done]. by destruct (table !! key).
Qed.

Lemma lookup_learn_ne key' next' table key :
  key' ≠ key → learn key' next' table !! key = table !! key.
Proof. intros. unfold learn. by rewrite lookup_insert_ne. Qed.

Lemma to_uint32_add_l a b : to_uint32 (to_uint32 a + b) = to_uint32 (a + b).
Proof. unfold to_uint32. apply Zplus_mod_idemp_l. Qed.

Lemma fold_learn_count chronological positions table key next :
  raw_count (fold_left (updatePatternTable_iter chronological) positions
               table) key next =
  if occurrences chronological positions key next =? 0
  then raw_count table key next
  else Some (to_uint32 (default 0 (raw_count table key next) +
                        occurrences chronological positions key next)).
Proof.
  unfold occurrences. revert table.
  induction positions as [|i positions IH]; intros table; [done|].
  simpl. rewrite IH. clear IH.
  unfold updatePatternTable_iter. rewrite raw_count_learn.
  rewrite filter_cons. unfold triple_at at 1.
  case_decide as Hm.
  - destruct Hm as [<- <-]. simpl. rewrite decide_True by done. simpl.
    set (k := length (filter _ positions)).
    destruct (Z.eqb_spec (Z.of_nat k) 0) as [Hk|Hk].
    + destruct (Z.eqb_spec (Z.of_nat (S k)) 0); [lia|].
      do 2 f_equal. lia.
    + destruct (Z.eqb_spec (Z.of_nat (S k)) 0); [lia|].
      f_equal. rewrite to_uint32_add_l. f_equal. lia.
  - rewrite decide_False; [done|].
    intros [= H1 H2 H3]. apply Hm. split; [|done].
    destruct key; simpl in *; by subst.
Qed.

Lemma fold_learn_total chronological positions table key :
  raw_total (fold_left (updatePatternTable_iter chronological) positions
               table) key =
  if key_occurrences chronological positions key =? 0
  then raw_total table key
  else Some (to_uint32 (default 0 (raw_total table key) +
                        key_occurrences chronological positions key)).
Proof.
  unfold key_occurrences. revert table.
  induction positions as [|i positions IH]; intros table; [done|].
  simpl. rewrite IH. clear IH.
  unfold updatePatternTable_iter. rewrite raw_total_learn.
  rewrite filter_cons. unfold triple_at at 1. simpl.
  case_decide as Hm.
  - rewrite decide_True by done. simpl.
    set (k := length (filter _ positions)).
    destruct (Z.eqb_spec (Z.of_nat k) 0) as [Hk|Hk].
    + destruct (Z.eqb_spec (Z.of_nat (S k)) 0); [lia|].
      do 2 f_equal. lia.
    + destruct (Z.eqb_spec (Z.of_nat (S k)) 0); [lia|].
      f_equal. rewrite to_uint32_add_l. f_equal. lia.
  - by rewrite decide_False by done.
Qed.

Lemma fold_learn_untouched chronological positions table key :
  key_occurrences chronological positions key = 0 →
  fold_left (updatePatternTable_iter chronological) positions table !! key
  = table !! key.
Proof.
  unfold key_occurrences. revert table.
  induction positions as [|i positions IH]; intros table; [done|].
  simpl. rewrite filter_cons. case_decide as Hm; simpl; [lia|].
  intros Hk. rewrite IH by done.
  unfold updatePatternTable_iter. by apply lookup_learn_ne.
Qed.

Lemma table_extends_learn key next t : table_extends t (learn key next t).
Proof.
  intros k e He. unfold learn. rewrite lookup_insert. case_decide.
  - subst k. rewrite He. simpl. eexists. split; [done|]. simpl.
    intros d Hd. rewrite lookup_insert. by case_decide.
  - eauto.
Qed.

Lemma table_extends_fold chronological positions t :
  table_extends t
    (fold_left (updatePatternTable_iter chronological) positions t).
Proof.
  revert t. induction positions as [|i positions IH]; intros t.
  - intros k e He. eauto.
  - simpl. intros k e He.
    destruct (table_extends_learn
                (nth i chronological 0, nth (i + 1) chronological 0)
                (nth (i + 2) chronological 0) t k e He) as (e1 & He1 & H1).
    destruct (IH _ k e1 He1) as (e2 & He2 & H2).
    exists e2. split; [done|]. auto.
Qed.

Lemma updatePatternTable_fold chronological st :
  patternTable (updatePatternTable chronological st) =
  fold_left (updatePatternTable_iter chronological)
    (triple_positions chronological) (patternTable st).
Proof.
  unfold updatePatternTable, triple_positions.
  destruct (Nat.ltb_spec (length chronological) 3) as [Hlt|Hge]; [|done].
  by replace (length chronological - 2)%nat with 0%nat by lia.
Qed.

Lemma updatePatternTable_frame chronological st :
  updatePatternTable chronological st =
  set_patternTable (patternTable (updatePatternTable chronological st)) st.
Proof.
  unfold updatePatternTable.
  destruct (length chronological <? 3)%nat; [by destruct st|done].
Qed.

(** C5. A training call with fewer than three deltas returns the object
    unchanged.  In general it changes the pattern table only, and there,
    where [occurrences] counts the consecutive triples [(d[i], d[i+1],
    d[i+2])] that are [key] followed by [next]: the count of [next] under
    [key] has been incremented once per such triple (in 32-bit unsigned
    arithmetic) and is untouched if there is none; likewise the running
    total of [key] per triple that starts with [key]; an entry whose key
    starts no triple is the same as before; no key and no next delta
    disappears; and as long as a count stays below [2^32] it is the old
    count plus the number of occurrences, so it has not decreased. *)
Theorem updatePatternTable_counts_triples chronological st :
  let st' := updatePatternTable chronological st in
  let positions := triple_positions chronological in
  ((length chronological < 3)%nat → st' = st) ∧
  st' = set_patternTable (patternTable st') st ∧
  (∀ i, i ∈ positions ↔ (i + 2 < length chronological)%nat) ∧
  (∀ key next,
     raw_count (patternTable st') key next =
     if occurrences chronological positions key next =? 0
     then raw_count (patternTable st) key next
     else Some (to_uint32
                  (default 0 (raw_count (patternTable st) key next) +
                   occurrences chronological positions key next))) ∧
  (∀ key,
     raw_total (patternTable st') key =
     if key_occurrences chronological positions key =? 0
     then raw_total (patternTable st) key
     else Some (to_uint32
                  (default 0 (raw_total (patternTable st) key) +
                   key_occurrences chronological positions key))) ∧
  (∀ key, key_occurrences chronological positions key = 0 →
          patternTable st' !! key = patternTable st !! key) ∧
  table_extends (patternTable st) (patternTable st') ∧
  (∀ key next,
     0 <= default 0 (raw_count (patternTable st) key next) →
     default 0 (raw_count (patternTable st) key next) +
       occurrences chronological positions key next < UINT32_MOD →
     default 0 (raw_count (patternTable st') key next) =
     default 0 (raw_count (patternTable st) key next) +
       occurrences chronological positions key next).
Proof.
  intros st' positions. subst st' positions.
  split; [|split; [|split; [|split; [|split; [|split; [|split]]]]]].
  - intros Hlt. unfold updatePatternTable.
    by destruct (Nat.ltb_spec (length chronological) 3); [|lia].
  - apply updatePatternTable_frame.
  - intros i. unfold triple_positions. rewrite elem_of_seq. lia.
  - intros key next. rewrite updatePatternTable_fold.
    apply fold_learn_count.
  - intros key. rewrite updatePatternTable_fold. apply fold_learn_total.
  - intros key Hk. rewrite updatePatternTable_fold.
    by apply fold_learn_untouched.
  - rewrite updatePatternTable_fold. apply table_extends_fold.
  - intros key next Hpos Hlt.
    rewrite updatePatternTable_fold, fold_learn_count.
    assert (0 <= occurrences chronological (triple_positions chronological)
                   key next) by (unfold occurrences; lia).
    destruct (Z.eqb_spec (occurrences chronological
                (triple_positions chronological) key next) 0) as [->|Hne].
    + lia.
    + simpl. unfold to_uint32. apply Z.mod_small. lia.
Qed.

Lemma train_repeatedly_succ n st :
  train_repeatedly (N.succ n) st
  = updatePatternTable [1; 1; 1] (train_repeatedly n st).
Proof. apply N.iter_succ. Qed.

Lemma train_repeatedly_reachable init n :
  reachable init 0 (train_repeatedly n init).
Proof.
  induction n as [|n IH] using N.peano_ind.
  - constructor.
  - rewrite train_repeatedly_succ. by apply reach_update.
Qed.

Lemma train_once st :
  raw_count (patternTable (updatePatternTable [1; 1; 1] st)) (1, 1) 1
  = Some (to_uint32 (default 0 (raw_count (patternTable st) (1, 1) 1) + 1)) ∧
  raw_total (patternTable (updatePatternTable [1; 1; 1] st)) (1, 1)
  = Some (to_uint32 (default 0 (raw_total (patternTable st) (1, 1)) + 1)).
Proof.
  rewrite updatePatternTable_fold, fold_learn_count, fold_learn_total.
  done.
Qed.

Lemma train_repeatedly_counters n st :
  patternTable st = ∅ →
  default 0 (raw_count (patternTable (train_repeatedly n st)) (1, 1) 1)
  = to_uint32 (Z.of_N n) ∧
  default 0 (raw_total (patternTable (train_repeatedly n st)) (1, 1))
  = to_uint32 (Z.of_N n).
Proof.
  intros Hempty. induction n as [|n [IHc IHt]] using N.peano_ind.
  - unfold train_repeatedly, raw_count, raw_total. simpl.
    by rewrite Hempty, lookup_empty.
  - rewrite train_repeatedly_succ.
    destruct (train_once (train_repeatedly n st)) as [-> ->].
    rewrite IHc, IHt, N2Z.inj_succ. simpl.
    by rewrite to_uint32_add_l.
Qed.

(** C5, where the claim as the specification has it fails: the counters
    are [uint32_t], and a count (and a total) that has reached
    [2^32 - 1], here by that many training calls on a new predictor, is 0
    after the next one.  A count can decrease. *)
Lemma counts_wrap_around :
  reachable (makeHistory 2 50 true) 0 saturated_state ∧
  raw_count (patternTable saturated_state) (1, 1) 1 = Some 4294967295 ∧
  raw_total (patternTable saturated_state) (1, 1) = Some 4294967295 ∧
  raw_count (patternTable (updatePatternTable [1; 1; 1] saturated_state))
    (1, 1) 1 = Some 0 ∧
  raw_total (patternTable (updatePatternTable [1; 1; 1] saturated_state))
    (1, 1) = Some 0.
Proof.
  assert (Hsat : saturated_state
                 = updatePatternTable [1; 1; 1]
                     (train_repeatedly 4294967294 (makeHistory 2 50 true))).
  { unfold saturated_state.
    change 4294967295%N with (N.succ 4294967294).
    apply train_repeatedly_succ. }
  destruct (train_repeatedly_counters 4294967294 (makeHistory 2 50 true)
              eq_refl) as [Hc Ht].
  destruct (train_once (train_repeatedly 4294967294 (makeHistory 2 50 true)))
    as [Hc1 Ht1].
  rewrite Hc in Hc1. rewrite Ht in Ht1. rewrite <- Hsat in Hc1, Ht1.
  destruct (train_once saturated_state) as [Hc2 Ht2].
  rewrite Hc1 in Hc2. rewrite Ht1 in Ht2.
  split; [apply train_repeatedly_reachable|].
  split; [exact Hc1|]. split; [exact Ht1|].
  split; [exact Hc2|exact Ht2].
Qed.

(** ** Prediction from the pattern table *)

Lemma two_last_split (l : list Z) :
  (2 <= length l)%nat → ∃ pre a b, l = pre ++ [a; b].
Proof.
  intros Hl. destruct l as [|x l] using rev_ind; [simpl in Hl; lia|].
  destruct l as [|y l _] using rev_ind.
  { simpl in Hl. lia. }
  exists l, y, x. by rewrite <- app_assoc.
Qed.

Lemma two_last_key (pre : list Z) a b :
  nth (length (pre ++ [a; b]) - 2) (pre ++ [a; b]) 0 = a ∧
  List.last (pre ++ [a; b]) 0 = b.
Proof.
  split.
  - rewrite length_app. simpl.
    replace (length pre + 2 - 2)%nat with (length pre) by lia.
    rewrite app_nth2 by lia. by rewrite Nat.sub_diag.
  - replace (pre ++ [a; b]) with ((pre ++ [a]) ++ [b])
      by by rewrite <- app_assoc.
    apply last_last.
Qed.

Lemma two_last_inj (pre pre' : list Z) a b a' b' :
  pre ++ [a; b] = pre' ++ [a'; b'] → a = a' ∧ b = b'.
Proof.
  intros Heq.
  destruct (two_last_key pre a b) as [H1 H2].
  destruct (two_last_key pre' a' b') as [H1' H2'].
  rewrite Heq in H1, H2. split; congruence.
Qed.

Section SortContract.

Variable std_sort : list (Z * Z) → list (Z * Z).

(** What [std::sort] guarantees for the comparator of
    [findPatternMatch]: the result is a rearrangement of the input in
    which no candidate is followed by one with a larger count. *)
Hypothesis std_sort_permutation : ∀ l, std_sort l ≡ₚ l.
Hypothesis std_sort_sorted : ∀ l, Sorted count_ge (std_sort l).

Lemma std_sort_head_max l c rest :
  std_sort l = c :: rest → c ∈ l ∧ ∀ x, x ∈ l → snd x <= snd c.
Proof using std_sort_permutation std_sort_sorted.
  intros Hs. pose proof (std_sort_permutation l) as Hp.
  pose proof (std_sort_sorted l) as Hsorted. rewrite Hs in Hp, Hsorted.
  split.
  - rewrite <- Hp. by left.
  - intros x Hx. rewrite <- Hp in Hx.
    apply Sorted_StronglySorted in Hsorted; [|apply _].
    apply StronglySorted_inv in Hsorted as [_ Hall].
    apply elem_of_cons in Hx as [->|Hx]; [lia|].
    rewrite Forall_forall in Hall. by apply Hall.
Qed.

Lemma std_sort_nil l : std_sort l = [] → l = [].
Proof using std_sort_permutation.
  intros Hs. pose proof (std_sort_permutation l) as Hp.
  rewrite Hs in Hp. by apply Permutation_nil in Hp.
Qed.

(** C4. On the pattern table of a predictor obtained from the
    constructor by any operations, [findPatternMatch] fails exactly when
    there are fewer than two deltas, or the pair of the last two deltas
    is not a key of the table, or that key's running total is zero.
    A failure leaves [predicted] empty; a success leaves exactly one
    delta in it, one recorded under the key with a count that no other
    delta recorded under the key exceeds. *)
Theorem findPatternMatch_most_frequent hs pl d up pb ct n st chronological :
  hs <= INT32_MAX →
  reachable (GHBHistory_new hs pl d up pb ct) n st →
  (fst (findPatternMatch std_sort chronological st) = false ↔
     (length chronological < 2)%nat ∨
     ∃ pre a b, chronological = pre ++ [a; b] ∧
       (patternTable st !! (a, b) = None ∨
        ∃ e, patternTable st !! (a, b) = Some e ∧ total e = 0)) ∧
  (fst (findPatternMatch std_sort chronological st) = false →
     snd (findPatternMatch std_sort chronological st) = []) ∧
  (fst (findPatternMatch std_sort chronological st) = true →
     ∃ pre a b e delta c,
       chronological = pre ++ [a; b] ∧
       patternTable st !! (a, b) = Some e ∧
       snd (findPatternMatch std_sort chronological st) = [delta] ∧
       counts e !! delta = Some c ∧
       ∀ delta' c', counts e !! delta' = Some c' → c' <= c).
Proof using std_sort_permutation std_sort_sorted.
  intros Hhs Hr.
  pose proof (wf_reachable _ _ _ (wf_new hs pl d up pb ct Hhs) Hr) as Hwf.
  unfold findPatternMatch.
  destruct (Nat.ltb_spec (length chronological) 2) as [Hlt|Hge].
  { simpl. split; [|split]; [|done..]. split; [by left|done]. }
  destruct (two_last_split _ Hge) as (pre & a & b & ->).
  destruct (two_last_key pre a b) as [-> ->].
  rewrite length_app in Hge. simpl in Hge.
  assert (Hkey : ∀ pre' a' b', pre ++ [a; b] = pre' ++ [a'; b'] →
                               (a', b') = (a, b)).
  { intros pre' a' b' Heq. by destruct (two_last_inj _ _ _ _ _ _ Heq)
      as [-> ->]. }
  destruct (patternTable st !! (a, b)) as [e|] eqn:He; last first.
  { simpl. split; [|split]; [|done..]. split; [|done]. intros _. right.
    exists pre, a, b. split; [done|]. by left. }
  destruct (Z.eqb_spec (total e) 0) as [Ht|Ht].
  { simpl. split; [|split]; [|done..]. split; [|done]. intros _. right.
    exists pre, a, b. split; [done|]. right. eauto. }
  destruct (std_sort (map_to_list (counts e))) as [|[delta c] rest] eqn:Hs.
  { apply std_sort_nil, map_to_list_empty_iff in Hs.
    by destruct (wf_table _ Hwf _ _ He). }
  simpl. split; [|split]; [|done|].
  - split; [done|]. intros [Hlt|(pre' & a' & b' & Heq & Hcase)].
    { rewrite length_app in Hlt. simpl in Hlt. lia. }
    rewrite (Hkey _ _ _ Heq), He in Hcase.
    destruct Hcase as [?|(e' & [= <-] & ?)]; done.
  - intros _. exists pre, a, b, e, delta, c.
    destruct (std_sort_head_max _ _ _ Hs) as [Hin Hmax].
    apply elem_of_map_to_list in Hin.
    repeat split; try done.
    intros delta' c' Hd'.
    apply (Hmax (delta', c')). by apply elem_of_map_to_list.
Qed.

End SortContract.

(** ** Fallback *)

(** C8. For a non-empty chronological list, [fallbackPattern] predicts
    exactly the last delta if that delta is not zero, and nothing if it is
    zero.  On [16, 8, 4] with an untrained table the table lookup fails and
    the fallback predicts [4]. *)
Theorem fallbackPattern_last_delta :
  (∀ older last_delta,
     fallbackPattern (older ++ [last_delta]) =
     if decide (last_delta = 0) then [] else [last_delta]) ∧
  fallbackPattern [16; 8; 4] = [4] ∧
  (∀ std_sort hs pl d up pb ct,
     findPatternMatch std_sort [16; 8; 4] (GHBHistory_new hs pl d up pb ct)
     = (false, [])).
Proof.
  split; [|split; [done|done]].
  intros older last_delta. unfold fallbackPattern.
  rewrite last_last.
  destruct (older ++ [last_delta]) eqn:Heq.
  { by destruct older. }
  case_decide as Hz.
  - subst. done.
  - by destruct (Z.eqb_spec last_delta 0).
Qed.

(** ** Address generation *)

Lemma to_uint64_of_int64_add a delta :
  to_uint64 (to_int64 a + delta) = to_uint64 (a + delta).
Proof.
  unfold to_uint64, to_int64, UINT64_MOD.
  replace ((a + 2 ^ 63) mod 2 ^ 64 - 2 ^ 63 + delta)
    with ((a + 2 ^ 63) mod 2 ^ 64 + (delta - 2 ^ 63)) by lia.
  rewrite Zplus_mod_idemp_l. f_equal. lia.
Qed.

Section Prefetcher.

Variable std_sort : list (Z * Z) → list (Z * Z).
Variable blockAddress : Z → Z.
Variable samePage : Z → Z → bool.
Variable base_pageBytes : Z.

Lemma emit_loop_candidates block next predicted :
  emit_loop samePage block next predicted =
  map (λ a, (a, 0)) (List.filter (samePage block) (candidates next predicted)).
Proof.
  revert next. induction predicted as [|delta rest IH]; intros next; [done|].
  simpl. destruct (Z.eqb_spec delta 0) as [->|Hnz].
  { rewrite decide_True by done. apply IH. }
  rewrite decide_False by done. rewrite to_uint64_of_int64_add. simpl.
  destruct (samePage block (to_uint64 (next + delta))); simpl;
    by rewrite IH.
Qed.

Lemma buildPattern_total st slot key :
  wf st → 0 <= slot < historySize st →
  ∃ deltas, buildPattern slot key st
            = Some (negb (bool_decide (deltas = [])), deltas).
Proof.
  intros Hwf Hslot.
  destruct (buildPattern_loop_walk st key (Z.to_nat (patternLength st)) slot
              Hwf Hslot) as (deltas & Hloop & _).
  exists deltas. unfold buildPattern. rewrite (wf_length _ Hwf).
  destruct (Z.ltb_spec slot 0); [lia|].
  destruct (Z.leb_spec (historySize st) slot); [lia|].
  simpl. by rewrite Hloop.
Qed.

Lemma chosen_pattern_total st slot :
  wf st → 0 <= slot < historySize st →
  ∃ deltas, chosen_pattern slot st
            = Some (negb (bool_decide (deltas = [])), deltas).
Proof.
  intros Hwf Hslot. unfold chosen_pattern.
  destruct (buildPattern_total st slot PC Hwf Hslot) as (d1 & ->).
  destruct (buildPattern_total st slot Page Hwf Hslot) as (d2 & H2).
  simpl. rewrite negb_involutive.
  destruct (bool_decide (d1 = [])) eqn:Hd1; simpl.
  - rewrite H2. eauto.
  - exists d1. by rewrite Hd1.
Qed.

(** [calculatePrefetch] in closed form. *)
Lemma calculatePrefetch_eq pfi addresses pf :
  wf (historyHelper pf) →
  let block := blockAddress (getAddr pfi) in
  let h1 := inserted (recorded_access blockAddress pfi pf) (historyHelper pf) in
  ∃ deltas,
    chosen_pattern (head (historyHelper pf)) h1
      = Some (negb (bool_decide (deltas = [])), deltas) ∧
    calculatePrefetch std_sort blockAddress samePage pfi addresses pf =
    Some (if bool_decide (deltas = [])
          then (set_historyHelper h1 pf, addresses)
          else
            let h2 := updatePatternTable (rev deltas) h1 in
            (set_historyHelper h2 pf,
             addresses ++ emit_loop samePage block block
                            (prediction std_sort (rev deltas) h2))).
Proof.
  intros Hwf block h1.
  pose proof (wf_size _ Hwf) as Hsz. pose proof (wf_head _ Hwf) as Hhd.
  pose proof (wf_inserted (recorded_access blockAddress pfi pf) _ Hwf) as Hwf1.
  destruct (chosen_pattern_total h1 (head (historyHelper pf)) Hwf1)
    as (deltas & Hc); [done|].
  exists deltas. split; [done|].
  unfold calculatePrefetch, empty.
  destruct (Z.eqb_spec (historySize (historyHelper pf)) 0); [lia|].
  fold (recorded_access blockAddress pfi pf).
  rewrite (insert_eq _ _ Hwf). simpl.
  destruct (Z.ltb_spec (head (historyHelper pf)) 0); [lia|].
  fold h1. unfold chosen_pattern in Hc.
  destruct (buildPattern (head (historyHelper pf)) PC h1)
    as [[flag1 d1]|]; [|done].
  simpl in *. rewrite Hc. simpl.
  case_bool_decide as Hd; simpl; [done|].
  unfold prediction.
  destruct (findPatternMatch std_sort (rev deltas)
              (updatePatternTable (rev deltas) h1)) as [found predicted].
  simpl.
  destruct (if negb found then fallbackPattern (rev deltas) else predicted)
    eqn:Hp; [|done].
  simpl. by rewrite app_nil_r.
Qed.

End Prefetcher.

Lemma candidates_length start deltas :
  length (candidates start deltas)
  = length (List.filter (λ delta, negb (delta =? 0)) deltas).
Proof.
  revert start. induction deltas as [|delta rest IH]; intros start; [done|].
  simpl. destruct (decide (delta = 0)) as [->|Hnz]; simpl.
  - apply IH.
  - rewrite (proj2 (Z.eqb_neq _ _) Hnz). simpl. by rewrite IH.
Qed.

Section PrefetcherProperties.

Variable std_sort : list (Z * Z) → list (Z * Z).
Variable blockAddress : Z → Z.
Variable samePage : Z → Z → bool.
Variable base_pageBytes : Z.

Lemma wf_GHBPrefetcher_new p :
  history_size p <= INT32_MAX →
  wf (historyHelper (GHBPrefetcher_new base_pageBytes p)).
Proof. intros Hp. apply wf_new. unfold INT32_MAX in *. lia. Qed.

(** Handling accesses only inserts into, and trains, the history
    helper. *)
Lemma pf_reachable_helper init pf :
  wf (historyHelper init) →
  pf_reachable std_sort blockAddress samePage init pf →
  ∃ n, reachable (historyHelper init) n (historyHelper pf).
Proof.
  intros Hwf Hr. induction Hr as [|pf pfi addresses pf' out _ [n IH] Hc].
  { exists 0%nat. constructor. }
  pose proof (wf_reachable _ _ _ Hwf IH) as Hwfpf.
  destruct (calculatePrefetch_eq std_sort blockAddress samePage pfi
              addresses pf Hwfpf) as (deltas & _ & Heq).
  rewrite Heq in Hc. clear Heq.
  assert (Hins : reachable (historyHelper init) (S n)
            (inserted (recorded_access blockAddress pfi pf)
               (historyHelper pf))).
  { eapply reach_insert; [exact IH|]. by apply insert_eq. }
  exists (S n). destruct (bool_decide (deltas = []));
    injection Hc as <- _; simpl; [done|].
  by apply reach_update.
Qed.

(** C7. For every access handed to a prefetcher whose history helper is
    in a state that the helper's operations can bring about (as it is in
    every prefetcher that has handled accesses, see
    [pf_reachable_helper]), [calculatePrefetch] returns, and what it
    returns is this.  The access is inserted into the helper, and when a
    pattern is found the helper is trained with it; nothing else of the
    prefetcher changes.  The predicted deltas are those of the chosen
    pattern (none if there is no pattern); one candidate address per
    non-zero predicted delta is formed by adding the deltas cumulatively,
    in order, to the block address of the access; the candidates on the
    page of the block address are appended to [addresses], in order, each
    with priority 0.  So every appended address is on the page of the
    block address and has priority 0. *)
Theorem calculatePrefetch_same_page p n pf pfi addresses :
  history_size p <= INT32_MAX →
  reachable (historyHelper (GHBPrefetcher_new base_pageBytes p)) n
    (historyHelper pf) →
  ∃ pf' h1 idx deltas,
    let block := blockAddress (getAddr pfi) in
    let predicted :=
      if bool_decide (deltas = []) then []
      else prediction std_sort (rev deltas)
             (updatePatternTable (rev deltas) h1) in
    let emitted :=
      map (λ a, (a, 0))
        (List.filter (samePage block) (candidates block predicted)) in
    insert (recorded_access blockAddress pfi pf) (historyHelper pf)
      = Some (h1, idx) ∧
    chosen_pattern idx h1
      = Some (negb (bool_decide (deltas = [])), deltas) ∧
    calculatePrefetch std_sort blockAddress samePage pfi addresses pf
      = Some (pf', addresses ++ emitted) ∧
    pf' = set_historyHelper
            (if bool_decide (deltas = []) then h1
             else updatePatternTable (rev deltas) h1) pf ∧
    length (candidates block predicted)
      = length (List.filter (λ delta, negb (delta =? 0)) predicted) ∧
    ∀ a priority, (a, priority) ∈ emitted →
                  samePage block a = true ∧ priority = 0.
Proof.
  intros Hp Hn.
  pose proof (wf_GHBPrefetcher_new p Hp) as Hwf0.
  pose proof (wf_reachable _ _ _ Hwf0 Hn) as Hwf.
  destruct (calculatePrefetch_eq std_sort blockAddress samePage pfi
              addresses pf Hwf) as (deltas & Hc & Heq).
  set (h1 := inserted (recorded_access blockAddress pfi pf)
               (historyHelper pf)) in *.
  exists (set_historyHelper
            (if bool_decide (deltas = []) then h1
             else updatePatternTable (rev deltas) h1) pf),
    h1, (head (historyHelper pf)), deltas. simpl.
  split; [by apply insert_eq|]. split; [exact Hc|].
  split; [|split; [done|split; [apply candidates_length|]]].
  - rewrite Heq. destruct (bool_decide (deltas = [])); simpl.
    + by rewrite app_nil_r.
    + by rewrite emit_loop_candidates.
  - intros a priority Hin.
    apply list_elem_of_In, in_map_iff in Hin as (a' & [= <- <-] & Hin).
    apply filter_In in Hin as [_ Hsame]. done.
Qed.

End PrefetcherProperties.

(** ** Zero capacity *)

Lemma removeIndexMappings_iter_head slot i st st1 :
  removeIndexMappings_iter slot i st = Some st1 → head st1 = head st.
Proof.
  unfold removeIndexMappings_iter.
  destruct (history_at st slot); simpl; [|done].
  destruct (negb _); by intros [= <-].
Qed.

Lemma evictIndex_head slot st st1 :
  evictIndex slot st = Some st1 → head st1 = head st.
Proof.
  unfold evictIndex, removeIndexMappings.
  destruct (removeIndexMappings_iter slot PC st) as [st0|] eqn:H0;
    simpl; [|done].
  intros H1. apply removeIndexMappings_iter_head in H0, H1. congruence.
Qed.

(** The slot returned by [insert], on any object. *)
Lemma insert_returns st access st' slot :
  insert access st = Some (st', slot) →
  (historySize st = 0 ∧ slot = -1 ∧ st' = st) ∨
  (historySize st ≠ 0 ∧ slot = head st ∧ 0 <= slot).
Proof.
  unfold insert. destruct (Z.eqb_spec (historySize st) 0) as [Hz|Hnz].
  { intros [= <- <-]. by left. }
  destruct (if filled st then evictIndex (head st) st else Some st)
    as [st1|] eqn:H1; simpl; [|done].
  assert (Hh : head st1 = head st).
  { destruct (filled st); [by apply evictIndex_head in H1|].
    by injection H1 as <-. }
  destruct (history_at st1 (head st1)) as [entry|] eqn:He; simpl; [|done].
  apply history_at_Some in He.
  match goal with
  | |- context [mbind _ ?m] => destruct m as [st3|]; simpl; [|done]
  end.
  match goal with
  | |- context [mbind _ ?m] => destruct m as [st4|]; simpl; [|done]
  end.
  intros [= _ <-]. right. rewrite <- Hh. lia.
Qed.

Lemma one_slot_no_pattern access st key :
  wf st → historySize st = 1 →
  buildPattern (head st) key (inserted access st) = Some (false, []).
Proof.
  intros Hwf H1. pose proof (wf_head _ Hwf) as Hhd.
  pose proof (wf_length _ (wf_inserted access _ Hwf)) as Hlen.
  destruct (new_entry_prev access st key Hwf) as [Hrange Hne].
  unfold buildPattern. rewrite Hlen. simpl.
  destruct (Z.ltb_spec (head st) 0); [lia|].
  destruct (Z.leb_spec (historySize st) (head st)); [lia|]. simpl.
  destruct (Z.to_nat (patternLength st)) as [|room]; [done|]. simpl.
  rewrite history_at_inserted, decide_True by done.
  remember (new_entry access st) as entry. simpl.
  destruct (Z.ltb_spec (prev (array_get key (links entry))) 0); [done|lia].
Qed.

(** C3 (as the code has it).  [insert] returns the sentinel [-1] exactly
    for an object whose [historySize] is zero, which is when [empty]
    reports the predictor disabled, and then it changes nothing.  No object
    built by the constructor is such an object, for the constructor raises
    a requested capacity of zero to one: in every predictor obtained from
    the constructor, [empty] is [false] and [insert] returns the slot under
    the write head.  A predictor requested with capacity zero has one slot,
    [insert] returns slot 0 for every access, and a prefetcher requested
    so appends no candidate address for any access. *)
Theorem zero_capacity_is_clamped :
  (∀ st, empty st = true ↔ historySize st = 0) ∧
  (∀ st access, historySize st = 0 → insert access st = Some (st, -1)) ∧
  (∀ st access st', insert access st = Some (st', -1) → historySize st = 0) ∧
  (∀ hs pl d up pb ct n st,
     hs <= INT32_MAX →
     reachable (GHBHistory_new hs pl d up pb ct) n st →
     empty st = false ∧
     ∀ access, ∃ st',
       insert access st = Some (st', head st) ∧
       0 <= head st < historySize st) ∧
  (∀ pl d up pb ct n st,
     reachable (GHBHistory_new 0 pl d up pb ct) n st →
     historySize st = 1 ∧
     ∀ access, ∃ st', insert access st = Some (st', 0)) ∧
  (∀ std_sort blockAddress samePage base_pageBytes p pf pfi addresses,
     history_size p = 0 →
     pf_reachable std_sort blockAddress samePage
       (GHBPrefetcher_new base_pageBytes p) pf →
     ∃ pf', calculatePrefetch std_sort blockAddress samePage pfi addresses pf
            = Some (pf', addresses)).
Proof.
  split; [|split; [|split; [|split; [|split]]]].
  - intros st. unfold empty. apply Z.eqb_eq.
  - intros st access Hz. unfold insert. by rewrite Hz.
  - intros st access st' Hins.
    destruct (insert_returns _ _ _ _ Hins) as [(Hz & _)|(_ & _ & Hpos)];
      [done|lia].
  - intros hs pl d up pb ct n st Hhs Hr.
    pose proof (wf_reachable _ _ _ (wf_new hs pl d up pb ct Hhs) Hr) as Hwf.
    pose proof (wf_size _ Hwf). split.
    + unfold empty. apply Z.eqb_neq. lia.
    + intros access. exists (inserted access st).
      split; [by apply insert_eq|apply (wf_head _ Hwf)].
  - intros pl d up pb ct n st Hr.
    assert (Hwf0 : wf (GHBHistory_new 0 pl d up pb ct)).
    { apply wf_new. unfold INT32_MAX. lia. }
    pose proof (wf_reachable _ _ _ Hwf0 Hr) as Hwf.
    destruct (same_config_reachable _ _ _ Hwf0 Hr) as (Hsz & _).
    simpl in Hsz. split; [done|].
    intros access. exists (inserted access st).
    pose proof (wf_head _ Hwf).
    replace 0 with (head st) by lia. by apply insert_eq.
  - intros std_sort blockAddress samePage base_pageBytes p pf pfi addresses
      Hp Hr.
    assert (Hwf0 : wf (historyHelper (GHBPrefetcher_new base_pageBytes p))).
    { apply wf_GHBPrefetcher_new. rewrite Hp. unfold INT32_MAX. lia. }
    destruct (pf_reachable_helper _ _ _ _ _ Hwf0 Hr) as [n Hn].
    pose proof (wf_reachable _ _ _ Hwf0 Hn) as Hwf.
    destruct (same_config_reachable _ _ _ Hwf0 Hn) as (Hsz & _).
    simpl in Hsz. rewrite Hp in Hsz. simpl in Hsz. symmetry in Hsz.
    destruct (calculatePrefetch_eq std_sort blockAddress samePage pfi
                addresses pf Hwf) as (deltas & Hc & Heq).
    unfold chosen_pattern in Hc.
    rewrite !one_slot_no_pattern in Hc by done. simpl in Hc.
    injection Hc as Hflag <-.
    rewrite Heq. simpl. eauto.
Qed.

(** The claim as the specification has it fails at capacity zero: the
    predictor is not disabled and the insertion returns slot 0. *)
Lemma zero_capacity_not_disabled :
  empty (GHBHistory_new 0 4 2 true 64 50) = false ∧
  snd <$> insert (mkAccessInfo 0 None) (GHBHistory_new 0 4 2 true 64 50)
  = Some 0.
Proof. split; vm_compute; reflexivity. Qed.

(** ** Reset *)

Lemma map_reset_entry (l : list GHBEntry) :
  map reset_entry l = replicate (length l) GHBEntry_default.
Proof. induction l as [|e l IH]; simpl; [done|]. by rewrite IH. Qed.

Lemma reset_eq_new hs pl d up pb ct n st :
  hs <= INT32_MAX →
  reachable (GHBHistory_new hs pl d up pb ct) n st →
  reset st = GHBHistory_new hs pl d up pb ct.
Proof.
  intros Hhs Hr.
  pose proof (wf_new hs pl d up pb ct Hhs) as Hwf0.
  pose proof (wf_reachable _ _ _ Hwf0 Hr) as Hwf.
  destruct (same_config_reachable _ _ _ Hwf0 Hr)
    as (H1 & H2 & H3 & H4 & H5 & H6).
  simpl in *. unfold reset, GHBHistory_new.
  rewrite map_reset_entry, <- H1, <- H2, <- H3, <- H4, <- H5, <- H6.
  do 2 f_equal. pose proof (wf_length _ Hwf). lia.
Qed.

(** C9. In a predictor obtained from the constructor by any operations,
    [reset] gives back the object that the constructor built from the same
    arguments: every history entry is the default entry, both indices are
    empty, the write head is 0, the buffer is not filled, the sequence
    counter is 1 and the pattern table is empty.  Hence any sequence of
    operations observes the same after [reset] as on a fresh predictor; in
    particular the sequential-stride scenario of the unit tests yields two
    deltas [0x40] after a [reset] of that configuration. *)
Theorem reset_is_fresh hs pl d up pb ct n st :
  hs <= INT32_MAX →
  reachable (GHBHistory_new hs pl d up pb ct) n st →
  reset st = GHBHistory_new hs pl d up pb ct ∧
  (history (reset st)
     = replicate (length (history st)) GHBEntry_default ∧
   lastIndex (reset st) = (∅, ∅) ∧
   head (reset st) = 0 ∧
   filled (reset st) = false ∧
   sequenceCounter (reset st) = 1 ∧
   patternTable (reset st) = ∅) ∧
  (∀ std_sort ops,
     run std_sort ops (reset st)
     = run std_sort ops (GHBHistory_new hs pl d up pb ct)) ∧
  (∀ std_sort m st16,
     reachable (GHBHistory_new 16 4 2 true 64 50) m st16 →
     run std_sort stride_scenario (reset st16)
     = [RInsert (Some 0); RInsert (Some 1); RInsert (Some 2);
        RBuildPattern (Some (true, [64; 64]))]).
Proof.
  intros Hhs Hr. split; [by eapply reset_eq_new|].
  split; [|split].
  - simpl. by rewrite map_reset_entry.
  - intros std_sort ops. by erewrite reset_eq_new.
  - intros std_sort m st16 Hr16.
    rewrite (reset_eq_new 16 4 2 true 64 50 m st16)
      by (done || (unfold INT32_MAX; lia)).
    vm_compute. reflexivity.
Qed.

(** ** The properties on the objects of the unit tests *)

Lemma makeHistory_wf degree confidence use_pc :
  wf (makeHistory degree confidence use_pc).
Proof. apply wf_new. unfold INT32_MAX. lia. Qed.

Lemma reachable_inserted init n st access :
  wf init → reachable init n st → reachable init (S n) (inserted access st).
Proof.
  intros Hwf Hr. eapply reach_insert; [exact Hr|].
  apply insert_eq. by eapply wf_reachable.
Qed.

Lemma stride_state_reachable :
  reachable (makeHistory 2 50 true) 3 stride_state.
Proof.
  unfold stride_state.
  assert (H0 : reachable (makeHistory 2 50 true) 0 (makeHistory 2 50 true))
    by constructor.
  assert (Hstep : ∀ n st access,
            reachable (makeHistory 2 50 true) n st →
            reachable (makeHistory 2 50 true) (S n) (inserted access st)).
  { intros n st access Hr. eapply reach_insert; [exact Hr|].
    apply insert_eq. eapply wf_reachable; [apply makeHistory_wf|exact Hr]. }
  by repeat apply Hstep.
Qed.

Lemma trained_state_reachable :
  reachable (makeHistory 2 50 true) 0 trained_state.
Proof. apply reach_update. constructor. Qed.

Lemma sort_candidates_permutation l : sort_candidates l ≡ₚ l.
Proof. apply merge_sort_Permutation. Qed.

Lemma sort_candidates_sorted l : Sorted count_ge (sort_candidates l).
Proof. apply Sorted_merge_sort. apply _. Qed.

Lemma buildPattern_walks_chain_witness :
  16 <= INT32_MAX ∧
  reachable (GHBHistory_new 16 4 2 true 64 50) 3 stride_state ∧
  0 <= 2 < historySize stride_state ∧
  ∃ flag deltas,
    buildPattern 2 PC stride_state = Some (flag, deltas) ∧
    pattern_walk stride_state PC (Z.to_nat (patternLength stride_state)) 2
      deltas ∧
    (∀ ds, pattern_walk stride_state PC
             (Z.to_nat (patternLength stride_state)) 2 ds → ds = deltas) ∧
    Z.of_nat (length deltas) <= patternLength stride_state ∧
    (flag = false ↔ deltas = []) ∧
    (∀ i delta, deltas !! i = Some delta →
       ∃ s entry prev_entry,
         nth_predecessor stride_state PC i 2 = Some s ∧
         history_at stride_state s = Some entry ∧
         history_at stride_state (prev (array_get PC (links entry)))
           = Some prev_entry ∧
         delta = to_int64 (to_int64 (addr entry)
                           - to_int64 (addr prev_entry)) ∧
         (Z.of_nat 3 < UINT64_MAX → seq prev_entry < seq entry)).
Proof.
  assert (H1 : 16 <= INT32_MAX) by (unfold INT32_MAX; lia).
  assert (H3 : 0 <= 2 < historySize stride_state) by (simpl; lia).
  split; [exact H1|]. split; [exact stride_state_reachable|].
  split; [exact H3|].
  exact (buildPattern_walks_chain 16 4 2 true 64 50 3 stride_state 2 PC
           H1 stride_state_reachable H3).
Defined.

Lemma index_never_dangles_witness :
  16 <= INT32_MAX ∧
  reachable (GHBHistory_new 16 4 2 true 64 50) 3 stride_state ∧
  array_get PC (lastIndex stride_state) !! 256 = Some 2 ∧
  ∃ e, history_at stride_state 2 = Some e ∧
       keyValid (array_get PC (links e)) = true ∧
       keyValue (array_get PC (links e)) = 256.
Proof.
  assert (H1 : 16 <= INT32_MAX) by (unfold INT32_MAX; lia).
  assert (H3 : array_get PC (lastIndex stride_state) !! 256 = Some 2)
    by (vm_compute; reflexivity).
  split; [exact H1|]. split; [exact stride_state_reachable|].
  split; [exact H3|].
  exact (proj1 (index_never_dangles 16 4 2 true 64 50 3 stride_state
                  H1 stride_state_reachable) PC 256 2 H3).
Defined.

Lemma zero_capacity_is_clamped_witness :
  empty (GHBHistory_new 0 4 2 true 64 50) = false ∧
  ∃ st', insert (mkAccessInfo 0 None) (GHBHistory_new 0 4 2 true 64 50)
         = Some (st', 0).
Proof.
  destruct zero_capacity_is_clamped as (_ & _ & _ & Hnew & Hzero & _).
  assert (H1 : 0 <= INT32_MAX) by (unfold INT32_MAX; lia).
  split.
  - exact (proj1 (Hnew 0 4 2 true 64 50 0%nat _ H1 (reach_init _))).
  - exact (proj2 (Hzero 4 2 true 64 50 0%nat _ (reach_init _))
             (mkAccessInfo 0 None)).
Defined.

Lemma findPatternMatch_most_frequent_witness :
  16 <= INT32_MAX ∧
  reachable (GHBHistory_new 16 4 2 true 64 50) 0 trained_state ∧
  fst (findPatternMatch sort_candidates [32; 32] trained_state) = true ∧
  ∃ pre a b e delta c,
    [32; 32] = pre ++ [a; b] ∧
    patternTable trained_state !! (a, b) = Some e ∧
    snd (findPatternMatch sort_candidates [32; 32] trained_state) = [delta] ∧
    counts e !! delta = Some c ∧
    ∀ delta' c', counts e !! delta' = Some c' → c' <= c.
Proof.
  assert (H1 : 16 <= INT32_MAX) by (unfold INT32_MAX; lia).
  assert (Hfound :
    fst (findPatternMatch sort_candidates [32; 32] trained_state) = true)
    by (vm_compute; reflexivity).
  split; [exact H1|]. split; [exact trained_state_reachable|].
  split; [exact Hfound|].
  exact (proj2 (proj2 (findPatternMatch_most_frequent sort_candidates
           sort_candidates_permutation sort_candidates_sorted
           16 4 2 true 64 50 0%nat trained_state [32; 32]
           H1 trained_state_reachable)) Hfound).
Defined.

Lemma updatePatternTable_counts_triples_witness :
  default 0 (raw_count (patternTable trained_state) (32, 32) 32) = 0 + 1.
Proof.
  destruct (updatePatternTable_counts_triples [64; 64; 64; 32; 32; 32]
              (makeHistory 2 50 true))
    as (_ & _ & _ & _ & _ & _ & _ & Hgrow).
  apply (Hgrow (32, 32) 32); vm_compute; [discriminate|reflexivity].
Defined.

Lemma two_slot_state_reachable :
  reachable (GHBHistory_new 2 4 2 true 64 50) 2 two_slot_state.
Proof.
  assert (Hwf : wf (GHBHistory_new 2 4 2 true 64 50))
    by (apply wf_new; unfold INT32_MAX; lia).
  unfold two_slot_state. repeat apply reachable_inserted; try done.
  constructor.
Qed.

Lemma sequence_numbers_detect_stale_links_witness :
  2 <= INT32_MAX ∧
  reachable (GHBHistory_new 2 4 2 true 64 50) 2 two_slot_state ∧
  Z.of_nat 2 < UINT64_MAX ∧
  (∃ st' e,
     insert (mkAccessInfo 192 (Some 256)) two_slot_state
       = Some (st', head two_slot_state) ∧
     history_at st' (head two_slot_state) = Some e ∧
     seq e = Z.of_nat 2 + 1 ∧
     ∀ s e0, history_at two_slot_state s = Some e0 → seq e0 < seq e) ∧
  insert (mkAccessInfo 192 (Some 256)) two_slot_state
    = Some (inserted (mkAccessInfo 192 (Some 256)) two_slot_state, 0) ∧
  history_at (inserted (mkAccessInfo 192 (Some 256)) two_slot_state) 1
    = Some (mkGHBEntry 64 (mkLinkInfo 0 1 256 true,
                           mkLinkInfo (-1) 0 1 true) 2) ∧
  buildPattern 1 PC two_slot_state = Some (true, [64]) ∧
  buildPattern 1 PC (inserted (mkAccessInfo 192 (Some 256)) two_slot_state)
    = Some (false, []).
Proof.
  assert (H1 : 2 <= INT32_MAX) by (unfold INT32_MAX; lia).
  assert (H3 : Z.of_nat 2 < UINT64_MAX) by (unfold UINT64_MAX; lia).
  assert (H4 : insert (mkAccessInfo 192 (Some 256)) two_slot_state
               = Some (inserted (mkAccessInfo 192 (Some 256)) two_slot_state,
                       0))
    by (vm_compute; reflexivity).
  assert (H5 : history_at
                 (inserted (mkAccessInfo 192 (Some 256)) two_slot_state) 1
               = Some (mkGHBEntry 64 (mkLinkInfo 0 1 256 true,
                                      mkLinkInfo (-1) 0 1 true) 2))
    by (vm_compute; reflexivity).
  assert (H6 : buildPattern 1 PC two_slot_state = Some (true, [64]))
    by (vm_compute; reflexivity).
  pose proof (sequence_numbers_detect_stale_links 2 4 2 true 64 50 2
                two_slot_state H1 two_slot_state_reachable H3)
    as (Hstamp & _ & _ & _ & _ & _ & Hover & _).
  split; [exact H1|]. split; [exact two_slot_state_reachable|].
  split; [exact H3|]. split; [exact (Hstamp (mkAccessInfo 192 (Some 256)))|].
  split; [exact H4|]. split; [exact H5|]. split; [exact H6|].
  exact (Hover _ _ _ H4 PC 1 _ H5 eq_refl).
Defined.

Lemma warm_prefetcher_reachable :
  reachable (historyHelper test_prefetcher) 2 (historyHelper warm_prefetcher).
Proof.
  assert (Hwf : wf (historyHelper test_prefetcher)).
  { apply (wf_GHBPrefetcher_new 4096 (mkGHBPrefetcherParams 16 4 2 true 50)).
    unfold INT32_MAX. simpl. lia. }
  unfold warm_prefetcher, set_historyHelper. cbn [historyHelper].
  repeat apply reachable_inserted; try done. constructor.
Qed.

Lemma calculatePrefetch_same_page_witness :
  history_size (mkGHBPrefetcherParams 16 4 2 true 50) <= INT32_MAX ∧
  reachable (historyHelper test_prefetcher) 2 (historyHelper warm_prefetcher) ∧
  (∃ pf', calculatePrefetch sort_candidates (blockAddress_of 64)
            (samePage_of 4096) (mkPrefetchInfo 4224 (Some 7)) []
            warm_prefetcher
          = Some (pf', [(4288, 0)])) ∧
  ∃ pf' h1 idx deltas,
    let block := blockAddress_of 64 (getAddr (mkPrefetchInfo 4224 (Some 7))) in
    let predicted :=
      if bool_decide (deltas = []) then []
      else prediction sort_candidates (rev deltas)
             (updatePatternTable (rev deltas) h1) in
    let emitted :=
      map (λ a, (a, 0))
        (List.filter (samePage_of 4096 block) (candidates block predicted)) in
    insert (recorded_access (blockAddress_of 64) (mkPrefetchInfo 4224 (Some 7))
              warm_prefetcher) (historyHelper warm_prefetcher)
      = Some (h1, idx) ∧
    chosen_pattern idx h1
      = Some (negb (bool_decide (deltas = [])), deltas) ∧
    calculatePrefetch sort_candidates (blockAddress_of 64) (samePage_of 4096)
      (mkPrefetchInfo 4224 (Some 7)) [] warm_prefetcher
      = Some (pf', [] ++ emitted) ∧
    pf' = set_historyHelper
            (if bool_decide (deltas = []) then h1
             else updatePatternTable (rev deltas) h1) warm_prefetcher ∧
    length (candidates block predicted)
      = length (List.filter (λ delta, negb (delta =? 0)) predicted) ∧
    ∀ a priority, (a, priority) ∈ emitted →
                  samePage_of 4096 block a = true ∧ priority = 0.
Proof.
  assert (H1 : history_size (mkGHBPrefetcherParams 16 4 2 true 50)
               <= INT32_MAX) by (unfold INT32_MAX; simpl; lia).
  split; [exact H1|]. split; [exact warm_prefetcher_reachable|].
  split; [eexists; vm_compute; reflexivity|].
  exact (calculatePrefetch_same_page sort_candidates (blockAddress_of 64)
           (samePage_of 4096) 4096 (mkGHBPrefetcherParams 16 4 2 true 50)
           2 warm_prefetcher (mkPrefetchInfo 4224 (Some 7)) [] H1
           warm_prefetcher_reachable).
Defined.

Lemma reset_is_fresh_witness :
  16 <= INT32_MAX ∧
  reachable (GHBHistory_new 16 4 2 true 64 50) 3 stride_state ∧
  reset stride_state = GHBHistory_new 16 4 2 true 64 50.
Proof.
  assert (H1 : 16 <= INT32_MAX) by (unfold INT32_MAX; lia).
  split; [exact H1|]. split; [exact stride_state_reachable|].
  exact (proj1 (reset_is_fresh 16 4 2 true 64 50 3 stride_state
                  H1 stride_state_reachable)).
Defined.

Lemma buildPattern_rejects_out_of_range_witness :
  (16 < 0 ∨ historySize stride_state <= 16) ∧
  buildPattern 16 PC stride_state = Some (false, []).
Proof.
  assert (H1 : 16 <= INT32_MAX) by (unfold INT32_MAX; lia).
  assert (H3 : 16 < 0 ∨ historySize stride_state <= 16)
    by (right; simpl; lia).
  split; [exact H3|].
  exact (proj1 (buildPattern_rejects_out_of_range 16 4 2 true 64 50 3
                  stride_state 16 PC H1 stride_state_reachable H3)).
Defined.

(** ** The unit tests, run on the model *)

Example BuildPatternFromPC :
  run sort_candidates stride_scenario (makeHistory 2 50 true)
  = [RInsert (Some 0); RInsert (Some 1); RInsert (Some 2);
     RBuildPattern (Some (true, [64; 64]))].
Proof. vm_compute. reflexivity. Qed.

Example PageCorrelationWorksWithoutPC :
  run sort_candidates
    [OpInsert (mkAccessInfo 256 None);
     OpInsert (mkAccessInfo 264 None);
     OpInsert (mkAccessInfo 272 None);
     OpBuildPattern 2 Page]
    (makeHistory 2 50 false)
  = [RInsert (Some 0); RInsert (Some 1); RInsert (Some 2);
     RBuildPattern (Some (true, [8; 8]))].
Proof. vm_compute. reflexivity. Qed.

Example PatternTablePredictsMostLikelyDelta :
  run sort_candidates
    [OpUpdatePatternTable [64; 64; 64; 32; 32; 32];
     OpFindPatternMatch [32; 32]]
    (makeHistory 2 50 true)
  = [RUpdatePatternTable; RFindPatternMatch true [32]].
Proof. vm_compute. reflexivity. Qed.

Example FallbackUsesRecentDeltas :
  run sort_candidates [OpFallbackPattern [16; 8; 4]] (makeHistory 3 50 true)
  = [RFallbackPattern [4]].
Proof. vm_compute. reflexivity. Qed.

(** Staleness: with two slots, the third access overwrites slot 0; the link
    of slot 1 still names slot 0 but is no longer followed, and the new
    entry in slot 0 is chained to slot 1 only. *)
Example stale_link_after_wraparound :
  run sort_candidates
    [OpInsert (mkAccessInfo 0 (Some 256));
     OpInsert (mkAccessInfo 64 (Some 256));
     OpBuildPattern 1 PC;
     OpInsert (mkAccessInfo 192 (Some 256));
     OpBuildPattern 1 PC;
     OpBuildPattern 0 PC]
    (GHBHistory_new 2 4 2 true 64 50)
  = [RInsert (Some 0); RInsert (Some 1);
     RBuildPattern (Some (true, [64]));
     RInsert (Some 0);
     RBuildPattern (Some (false, []));
     RBuildPattern (Some (true, [128]))].
Proof. vm_compute. reflexivity. Qed.

(** * Further properties of the history helper *)

(** ** The buffer is a ring *)

Lemma recorded_reachable init l st :
  recorded init l st → reachable init (length l) st.
Proof.
  induction 1 as [|l st _ IH|l st access st' slot _ IH Hins|l st c _ IH].
  - constructor.
  - by eapply reach_reset.
  - rewrite length_app. simpl. rewrite Nat.add_1_r. by eapply reach_insert.
  - by apply reach_update.
Qed.

Lemma reachable_recorded init n st :
  reachable init n st → ∃ l, length l = n ∧ recorded init l st.
Proof.
  induction 1 as [|n st _ (l & Hl & IH)|n st access st' slot _ (l & Hl & IH) Hins
                  |n st c _ (l & Hl & IH)].
  - exists []. split; [done|constructor].
  - exists []. split; [done|]. by eapply rec_reset.
  - exists (l ++ [access]). split; [|by eapply rec_insert].
    rewrite length_app. simpl. lia.
  - exists l. split; [done|]. by apply rec_update.
Qed.

Lemma ring_step n hs :
  1 <= hs → 0 <= n →
  (n mod hs + 1) mod hs = (n + 1) mod hs ∧
  (bool_decide (hs <= n) || ((n + 1) mod hs =? 0)
   = bool_decide (hs <= n + 1)).
Proof.
  intros Hhs Hn. split; [by rewrite Zplus_mod_idemp_l|].
  case_bool_decide as Hfull; simpl.
  - rewrite bool_decide_eq_true_2 by lia. done.
  - destruct (Z.eqb_spec ((n + 1) mod hs) 0) as [Hz|Hnz].
    + symmetry. apply bool_decide_eq_true_2.
      destruct (Z.eq_dec (n + 1) hs) as [->|Hne]; [lia|].
      rewrite Z.mod_small in Hz by lia. lia.
    + symmetry. apply bool_decide_eq_false_2. intros Hle.
      assert (n + 1 = hs) as Heq by lia.
      rewrite Heq, Z.mod_same in Hnz by lia. done.
Qed.

Lemma ring_reachable init n st :
  wf init → head init = 0 → filled init = false →
  reachable init n st →
  head st = Z.of_nat n mod historySize st ∧
  filled st = bool_decide (historySize st <= Z.of_nat n).
Proof.
  intros Hwf Hh0 Hf0 Hr.
  induction Hr as [|n st Hr IH|n st access st' slot Hr IH Hins|n st c Hr IH].
  - pose proof (wf_size _ Hwf). rewrite Hh0, Hf0. simpl. split; [done|].
    symmetry. apply bool_decide_eq_false_2. lia.
  - pose proof (wf_size _ (wf_reachable _ _ _ Hwf Hr)). simpl.
    split; [done|]. symmetry. apply bool_decide_eq_false_2. lia.
  - pose proof (wf_reachable _ _ _ Hwf Hr) as Hwfst.
    pose proof (wf_size _ Hwfst) as Hsz.
    rewrite (insert_eq _ _ Hwfst) in Hins. injection Hins as <- _.
    destruct IH as [IHh IHf]. simpl. unfold next_head.
    rewrite IHh, IHf.
    destruct (ring_step (Z.of_nat n) (historySize st)) as [H1 H2]; [lia..|].
    rewrite H1, H2. by rewrite Nat2Z.inj_succ.
  - unfold updatePatternTable. by destruct (length c <? 3)%nat.
Qed.

(** X1.  The buffer is a ring: after [n] insertions since construction or
    the last [reset] the write head is at [n mod historySize], the buffer
    counts as filled exactly from the [historySize]-th insertion on, and the
    next insertion returns slot [n mod historySize]. *)
Theorem insert_goes_round hs pl d up pb ct n st :
  hs <= INT32_MAX →
  reachable (GHBHistory_new hs pl d up pb ct) n st →
  head st = Z.of_nat n mod historySize st ∧
  filled st = bool_decide (historySize st <= Z.of_nat n) ∧
  ∀ access, snd <$> insert access st
            = Some (Z.of_nat n mod historySize st).
Proof.
  intros Hhs Hr.
  pose proof (wf_new hs pl d up pb ct Hhs) as Hwf0.
  destruct (ring_reachable _ _ _ Hwf0 eq_refl eq_refl Hr) as [Hh Hf].
  split; [done|]. split; [done|].
  intros access.
  rewrite (insert_eq _ _ (wf_reachable _ _ _ Hwf0 Hr)). simpl. by rewrite Hh.
Qed.

Lemma mod_neq_within n i hs :
  0 < n - i < hs → i mod hs ≠ n mod hs.
Proof.
  intros Hni Heq.
  assert (Hm : (n - i) mod hs = 0).
  { rewrite Zminus_mod, Heq, Z.sub_diag. apply Z.mod_0_l. lia. }
  rewrite Z.mod_small in Hm by lia. lia.
Qed.

Lemma new_entry_key_value access st key :
  match key_value access st key with
  | Some v =>
      keyValid (array_get key (links (new_entry access st))) = true ∧
      keyValue (array_get key (links (new_entry access st))) = v
  | None => array_get key (links (new_entry access st)) = LinkInfo_default
  end.
Proof.
  destruct key; simpl.
  - unfold pc_link, pc_value.
    destruct (if usePC st then access_pc access else None); [|done].
    apply wire_key.
  - apply wire_key.
Qed.

Lemma history_at_default_new hs pl d up pb ct s :
  0 <= s < Z.max 1 hs →
  history_at (GHBHistory_new hs pl d up pb ct) s = Some GHBEntry_default.
Proof.
  intros Hs. unfold history_at. simpl.
  destruct (Z.ltb_spec s 0); [lia|].
  apply lookup_replicate. split; [done|lia].
Qed.

Lemma history_at_default_reset st s :
  wf st → 0 <= s < historySize st →
  history_at (reset st) s = Some GHBEntry_default.
Proof.
  intros Hwf Hs. unfold history_at. simpl.
  destruct (Z.ltb_spec s 0); [lia|].
  rewrite map_reset_entry. apply lookup_replicate. split; [done|].
  pose proof (wf_length _ Hwf). lia.
Qed.

Lemma layout_recorded hs pl d up pb ct l st :
  hs <= INT32_MAX →
  recorded (GHBHistory_new hs pl d up pb ct) l st →
  Z.of_nat (length l) < UINT64_MAX →
  layout l st.
Proof.
  intros Hhs Hrec.
  pose proof (wf_new hs pl d up pb ct Hhs) as Hwf0.
  induction Hrec as [|l st Hrec IH|l st access st' slot Hrec IH Hins
                     |l st c Hrec IH]; intros Hn.
  - split; [done|]. intros s Hs. apply history_at_default_new.
    simpl in Hs. lia.
  - split; [done|]. intros s Hs. apply history_at_default_reset.
    + eapply wf_reachable; [exact Hwf0|]. by eapply recorded_reachable.
    + simpl in Hs. lia.
  - pose proof (recorded_reachable _ _ _ Hrec) as Hr.
    pose proof (wf_reachable _ _ _ Hwf0 Hr) as Hwf.
    pose proof (wf_size _ Hwf) as Hsz.
    rewrite length_app in Hn. simpl in Hn.
    assert (Hn' : Z.of_nat (length l) < UINT64_MAX) by lia.
    pose proof (seq_ok_reachable _ _ _ Hwf0 (seq_ok_new hs pl d up pb ct)
                  Hr Hn') as Hsq.
    destruct (ring_reachable _ _ _ Hwf0 eq_refl eq_refl Hr) as [Hhead _].
    rewrite (insert_eq _ _ Hwf) in Hins. injection Hins as <- _.
    specialize (IH Hn'). destruct IH as [IHe IHd].
    split.
    + intros i a Hi Hlive. rewrite length_app in Hlive. simpl in Hlive.
      change (historySize (inserted access st)) with (historySize st) in *.
      rewrite history_at_inserted by done.
      apply lookup_app_Some in Hi as [Hi|[Hge Hi]].
      * pose proof (lookup_lt_Some _ _ _ Hi) as Hlt.
        rewrite decide_False; last first.
        { rewrite Hhead. apply mod_neq_within. lia. }
        apply IHe; [done|lia].
      * apply list_lookup_singleton_Some in Hi as [Hi <-].
        assert (i = length l) as -> by lia.
        rewrite decide_True by done.
        exists (new_entry access st). split; [done|]. split; [done|].
        split; [simpl; rewrite (sq_counter _ _ Hsq); lia|].
        intros key. exact (new_entry_key_value access st key).
    + intros s Hs. rewrite length_app in Hs. simpl in Hs.
      change (historySize (inserted access st)) with (historySize st) in *.
      rewrite history_at_inserted by done.
      rewrite decide_False; [apply IHd; lia|].
      rewrite Hhead, Z.mod_small by lia. lia.
  - specialize (IH Hn). destruct IH as [IHe IHd].
    unfold updatePatternTable. by destruct (length c <? 3)%nat.
Qed.

(** X2.  The buffer holds the most recent accesses: of the accesses
    inserted since construction or the last [reset] (fewer than
    [UINT64_MAX]), access number [i] among the last [historySize] sits in
    slot [i mod historySize] with its address, with stamp [i + 1], and with
    valid links carrying its page and (when used) its instruction pointer;
    the slots not yet written hold the default entry. *)
Theorem buffer_holds_last_accesses hs pl d up pb ct l st :
  hs <= INT32_MAX →
  recorded (GHBHistory_new hs pl d up pb ct) l st →
  Z.of_nat (length l) < UINT64_MAX →
  (∀ (i : nat) access,
     l !! i = Some access →
     Z.of_nat (length l) - historySize st <= Z.of_nat i →
     ∃ e, history_at st (Z.of_nat i mod historySize st) = Some e ∧
          addr e = access_addr access ∧
          seq e = Z.of_nat i + 1 ∧
          ∀ key,
            match key_value access st key with
            | Some v => keyValid (array_get key (links e)) = true ∧
                        keyValue (array_get key (links e)) = v
            | None => array_get key (links e) = LinkInfo_default
            end) ∧
  (∀ s, Z.of_nat (length l) <= s < historySize st →
        history_at st s = Some GHBEntry_default).
Proof.
  intros Hhs Hrec Hn.
  destruct (layout_recorded _ _ _ _ _ _ _ _ Hhs Hrec Hn) as [He Hd].
  by split.
Qed.

(** ** The indices find the most recent entry *)

(** Every slot holds either the default entry or the stamp of the last
    insertion that went to it. *)
Lemma slot_stamp hs pl d up pb ct n st s e :
  hs <= INT32_MAX →
  reachable (GHBHistory_new hs pl d up pb ct) n st →
  Z.of_nat n < UINT64_MAX →
  history_at st s = Some e →
  (Z.of_nat n <= s ∧ e = GHBEntry_default) ∨
  (∃ i, 0 <= i < Z.of_nat n ∧ Z.of_nat n - historySize st <= i ∧
        i mod historySize st = s ∧ seq e = i + 1).
Proof.
  intros Hhs Hr Hn He.
  pose proof (wf_reachable _ _ _ (wf_new hs pl d up pb ct Hhs) Hr) as Hwf.
  pose proof (wf_size _ Hwf) as Hsz.
  pose proof (history_at_Some _ _ _ He) as Hs.
  rewrite (wf_length _ Hwf) in Hs.
  destruct (reachable_recorded _ _ _ Hr) as (l & Hl & Hrec).
  rewrite <- Hl in Hn.
  destruct (layout_recorded _ _ _ _ _ _ _ _ Hhs Hrec Hn) as [Hle Hld].
  rewrite Hl in *. clear Hn.
  destruct (Z.le_gt_cases (Z.of_nat n) s) as [Hge|Hlt].
  { left. split; [done|]. rewrite Hld in He by lia. by injection He. }
  right.
  set (i := Z.of_nat n - historySize st
            + (s - Z.of_nat n + historySize st) mod historySize st).
  assert (Hm : 0 <= (s - Z.of_nat n + historySize st) mod historySize st
               < historySize st) by (apply Z.mod_pos_bound; lia).
  assert (Hi0 : 0 <= i).
  { subst i. destruct (Z.le_gt_cases (historySize st) (Z.of_nat n)); [lia|].
    rewrite Z.mod_small by lia. lia. }
  assert (Himod : i mod historySize st = s).
  { subst i. rewrite Zplus_mod_idemp_r.
    replace (Z.of_nat n - historySize st + (s - Z.of_nat n + historySize st))
      with s by lia.
    apply Z.mod_small. lia. }
  exists i. split; [subst i; lia|]. split; [subst i; lia|]. split; [done|].
  destruct (lookup_lt_is_Some_2 l (Z.to_nat i)) as [access Ha]; [subst i; lia|].
  destruct (Hle _ _ Ha) as (e' & He' & _ & Hseq & _); [subst i; lia|].
  rewrite Z2Nat.id in He', Hseq by done.
  rewrite Himod, He in He'. by injection He' as <-.
Qed.

(** In a filled buffer the slot under the write head holds the oldest
    entry. *)
Lemma head_is_oldest hs pl d up pb ct n st s e eh :
  hs <= INT32_MAX →
  reachable (GHBHistory_new hs pl d up pb ct) n st →
  Z.of_nat n < UINT64_MAX →
  filled st = true → s ≠ head st →
  history_at st s = Some e → history_at st (head st) = Some eh →
  seq eh < seq e.
Proof.
  intros Hhs Hr Hn Hf Hne He Heh.
  pose proof (wf_new hs pl d up pb ct Hhs) as Hwf0.
  pose proof (wf_reachable _ _ _ Hwf0 Hr) as Hwf.
  pose proof (wf_size _ Hwf) as Hsz.
  destruct (ring_reachable _ _ _ Hwf0 eq_refl eq_refl Hr) as [Hhead Hfill].
  rewrite Hf in Hfill. symmetry in Hfill.
  apply bool_decide_eq_true in Hfill.
  pose proof (history_at_Some _ _ _ He) as Hs.
  pose proof (history_at_Some _ _ _ Heh) as Hh.
  rewrite (wf_length _ Hwf) in Hs, Hh.
  destruct (slot_stamp _ _ _ _ _ _ _ _ _ _ Hhs Hr Hn He)
    as [[? _]|(i & Hi & Hlive & Himod & Hseq)]; [lia|].
  destruct (slot_stamp _ _ _ _ _ _ _ _ _ _ Hhs Hr Hn Heh)
    as [[? _]|(j & Hj & Hjlive & Hjmod & Hjseq)]; [lia|].
  assert (j = Z.of_nat n - historySize st) as ->.
  { destruct (Z.eq_dec j (Z.of_nat n - historySize st)); [done|].
    exfalso. apply (mod_neq_within (Z.of_nat n) j (historySize st)); [lia|].
    congruence. }
  assert (i ≠ Z.of_nat n - historySize st) by congruence.
  lia.
Qed.

Lemma index_before_write_other st key v s :
  s ≠ head st →
  array_get key (index_before_write st) !! v = Some s ↔
  array_get key (lastIndex st) !! v = Some s.
Proof.
  intros Hne. unfold index_before_write. destruct (filled st); [|done].
  destruct (history_at st (head st)) as [e|]; [|done].
  unfold evicted_index. destruct key; simpl; by apply unmap_other.
Qed.

Lemma new_index_lookup_eq access st key v :
  array_get key (new_index access st) !! v =
  if decide (key_value access st key = Some v) then Some (head st)
  else array_get key (index_before_write st) !! v.
Proof.
  unfold new_index, pc_value. destruct key; simpl.
  - destruct (if usePC st then access_pc access else None) as [pcv|].
    + rewrite lookup_insert. case_decide as H1.
      * subst. by rewrite decide_True.
      * rewrite decide_False; [done|]. by intros [= ->].
    + by rewrite decide_False.
  - rewrite lookup_insert. case_decide as H1.
    + subst v. by rewrite decide_True.
    + rewrite decide_False; [done|]. by intros [= ?].
Qed.

Lemma new_entry_valid_key_value access st key :
  keyValid (array_get key (links (new_entry access st))) = true →
  key_value access st key
  = Some (keyValue (array_get key (links (new_entry access st)))).
Proof.
  pose proof (new_entry_key_value access st key) as H.
  destruct (key_value access st key) as [v|].
  - destruct H as [_ ->]. done.
  - rewrite H. done.
Qed.

Lemma index_complete_reachable hs pl d up pb ct n st :
  hs <= INT32_MAX →
  reachable (GHBHistory_new hs pl d up pb ct) n st →
  Z.of_nat n < UINT64_MAX →
  index_complete st.
Proof.
  intros Hhs Hr.
  pose proof (wf_new hs pl d up pb ct Hhs) as Hwf0.
  induction Hr as [|n st Hr IH|n st access st' slot Hr IH Hins|n st c Hr IH];
    intros Hn.
  - intros key s e He Hv.
    pose proof (history_at_Some _ _ _ He) as Hs. simpl in Hs.
    rewrite length_replicate in Hs.
    rewrite history_at_default_new in He by lia. injection He as <-.
    by destruct key.
  - intros key s e He Hv.
    pose proof (wf_reachable _ _ _ Hwf0 Hr) as Hwf.
    pose proof (history_at_Some _ _ _ He) as Hs. simpl in Hs.
    rewrite length_map, (wf_length _ Hwf) in Hs.
    rewrite history_at_default_reset in He by done. injection He as <-.
    by destruct key.
  - assert (Hn' : Z.of_nat n < UINT64_MAX) by lia.
    specialize (IH Hn').
    pose proof (wf_reachable _ _ _ Hwf0 Hr) as Hwf.
    pose proof (seq_ok_reachable _ _ _ Hwf0 (seq_ok_new hs pl d up pb ct)
                  Hr Hn') as Hsq.
    rewrite (insert_eq _ _ Hwf) in Hins. injection Hins as <- _.
    intros key s e He Hv.
    change (lastIndex (inserted access st)) with (new_index access st).
    rewrite history_at_inserted in He by done.
    rewrite new_index_lookup_eq.
    case_decide as Hs.
    + injection He as <-.
      rewrite decide_True by by apply new_entry_valid_key_value.
      exists (head st), (new_entry access st).
      split; [done|]. split; [|lia].
      by rewrite history_at_inserted, decide_True.
    + case_decide as Hkv.
      * exists (head st), (new_entry access st). split; [done|].
        split; [by rewrite history_at_inserted, decide_True|].
        pose proof (sq_bound _ _ Hsq _ _ He). simpl. lia.
      * destruct (IH key s e He Hv) as (s' & e' & Hidx & He' & Hle).
        assert (Hs' : s' ≠ head st).
        { intros ->. destruct (filled st) eqn:Hf.
          - pose proof (head_is_oldest _ _ _ _ _ _ _ _ _ _ _ Hhs Hr Hn'
                          Hf Hs He He'). lia.
          - pose proof (wf_unfilled _ Hwf Hf _ _ _ Hidx). lia. }
        exists s', e'. split; [by apply index_before_write_other|].
        split; [|done].
        by rewrite history_at_inserted, decide_False.
  - specialize (IH Hn). unfold updatePatternTable.
    by destruct (length c <? 3)%nat.
Qed.

(** X3.  The indices are complete: for every entry in the buffer with a
    valid link for a key kind, the index of that kind has an entry for the
    link's key value, and it points at an entry with a valid link for the
    same key value that was inserted at the same time or later.  So a lookup
    by instruction pointer or page finds the most recent entry in the
    buffer with that key. *)
Theorem index_finds_most_recent hs pl d up pb ct n st key s e :
  hs <= INT32_MAX →
  reachable (GHBHistory_new hs pl d up pb ct) n st →
  Z.of_nat n < UINT64_MAX →
  history_at st s = Some e →
  keyValid (array_get key (links e)) = true →
  ∃ s' e',
    array_get key (lastIndex st) !! keyValue (array_get key (links e))
      = Some s' ∧
    history_at st s' = Some e' ∧
    keyValid (array_get key (links e')) = true ∧
    keyValue (array_get key (links e')) = keyValue (array_get key (links e)) ∧
    seq e <= seq e'.
Proof.
  intros Hhs Hr Hn He Hv.
  pose proof (wf_reachable _ _ _ (wf_new hs pl d up pb ct Hhs) Hr) as Hwf.
  destruct (index_complete_reachable _ _ _ _ _ _ _ _ Hhs Hr Hn key s e He Hv)
    as (s' & e' & Hidx & He' & Hle).
  destruct (wf_index _ Hwf _ _ _ Hidx) as (e2 & He2 & Hv2 & Hk2).
  rewrite He' in He2. injection He2 as <-.
  exists s', e'. done.
Qed.

(** ** Chains connect accesses with the same key *)

Lemma chain_same_key_reachable hs pl d up pb ct n st :
  hs <= INT32_MAX →
  reachable (GHBHistory_new hs pl d up pb ct) n st →
  Z.of_nat n < UINT64_MAX →
  chain_same_key st.
Proof.
  intros Hhs Hr.
  pose proof (wf_new hs pl d up pb ct Hhs) as Hwf0.
  induction Hr as [|n st Hr IH|n st access st' slot Hr IH Hins|n st c Hr IH];
    intros Hn.
  - intros key s e He Hp.
    pose proof (history_at_Some _ _ _ He) as Hs. simpl in Hs.
    rewrite length_replicate in Hs.
    rewrite history_at_default_new in He by lia. injection He as <-.
    destruct key; simpl in Hp; lia.
  - intros key s e He Hp.
    pose proof (wf_reachable _ _ _ Hwf0 Hr) as Hwf.
    pose proof (history_at_Some _ _ _ He) as Hs. simpl in Hs.
    rewrite length_map, (wf_length _ Hwf) in Hs.
    rewrite history_at_default_reset in He by done. injection He as <-.
    destruct key; simpl in Hp; lia.
  - assert (Hn' : Z.of_nat n < UINT64_MAX) by lia.
    specialize (IH Hn').
    pose proof (wf_reachable _ _ _ Hwf0 Hr) as Hwf.
    pose proof (seq_ok_reachable _ _ _ Hwf0 (seq_ok_new hs pl d up pb ct)
                  Hr Hn') as Hsq.
    rewrite (insert_eq _ _ Hwf) in Hins. injection Hins as <- _.
    intros key s e He Hp.
    rewrite history_at_inserted in He by done. case_decide as Hs.
    + injection He as <-.
      destruct (new_entry_link access st key) as [Hd|[v Hw]].
      { rewrite Hd in Hp. simpl in Hp. lia. }
      rewrite Hw in *.
      destruct (wire_cases st (array_get key (index_before_write st)) v)
        as [(p & Hm & Heq)|[_ Heq]]; rewrite Heq in *; simpl in *; [|lia].
      split; [done|]. intros pe Hpe _.
      destruct (index_before_write_entry _ _ _ _ Hwf Hm) as [Hne _].
      rewrite history_at_inserted, decide_False in Hpe by done.
      apply index_before_write_sub in Hm.
      destruct (wf_index _ Hwf _ _ _ Hm) as (e2 & He2 & Hv2 & Hk2).
      rewrite Hpe in He2. by injection He2 as <-.
    + destruct (IH key s e He Hp) as [Hv Hsame]. split; [done|].
      intros pe Hpe Hseq.
      rewrite history_at_inserted in Hpe by done. case_decide as Hph.
      * injection Hpe as <-. simpl in Hseq.
        destruct (sq_link _ _ Hsq _ _ key He Hp) as (pe0 & Hpe0 & Hle & _).
        pose proof (sq_bound _ _ Hsq _ _ Hpe0). lia.
      * by apply Hsame.
  - specialize (IH Hn). unfold updatePatternTable.
    by destruct (length c <? 3)%nat.
Qed.

(** X4.  A link that [buildPattern] follows connects two accesses filed
    under the same key value: both entries have a valid link for the key
    kind, and the two links carry the same instruction pointer (or
    page). *)
Theorem followed_link_same_key hs pl d up pb ct n st key s :
  hs <= INT32_MAX →
  reachable (GHBHistory_new hs pl d up pb ct) n st →
  Z.of_nat n < UINT64_MAX →
  followed st key s →
  ∃ e pe,
    history_at st s = Some e ∧
    history_at st (prev (array_get key (links e))) = Some pe ∧
    keyValid (array_get key (links e)) = true ∧
    keyValid (array_get key (links pe)) = true ∧
    keyValue (array_get key (links pe)) = keyValue (array_get key (links e)).
Proof.
  intros Hhs Hr Hn (e & pe & He & Hp & Hpe & Hseq).
  destruct (chain_same_key_reachable _ _ _ _ _ _ _ _ Hhs Hr Hn key s e He Hp)
    as [Hv Hsame].
  destruct (Hsame pe Hpe Hseq) as [Hv' Hk'].
  exists e, pe. done.
Qed.

Lemma page_key_ok_reachable hs pl d up pb ct n st :
  hs <= INT32_MAX →
  reachable (GHBHistory_new hs pl d up pb ct) n st →
  page_key_ok st.
Proof.
  intros Hhs Hr.
  pose proof (wf_new hs pl d up pb ct Hhs) as Hwf0.
  induction Hr as [|n st Hr IH|n st access st' slot Hr IH Hins|n st c Hr IH].
  - intros s e He Hv.
    pose proof (history_at_Some _ _ _ He) as Hs. simpl in Hs.
    rewrite length_replicate in Hs.
    rewrite history_at_default_new in He by lia. by injection He as <-.
  - intros s e He Hv.
    pose proof (wf_reachable _ _ _ Hwf0 Hr) as Hwf.
    pose proof (history_at_Some _ _ _ He) as Hs. simpl in Hs.
    rewrite length_map, (wf_length _ Hwf) in Hs.
    rewrite history_at_default_reset in He by done. by injection He as <-.
  - pose proof (wf_reachable _ _ _ Hwf0 Hr) as Hwf.
    rewrite (insert_eq _ _ Hwf) in Hins. injection Hins as <- _.
    intros s e He Hv.
    rewrite history_at_inserted in He by done. case_decide as Hs.
    + injection He as <-. simpl. unfold page_link.
      apply wire_key.
    + exact (IH s e He Hv).
  - unfold updatePatternTable. by destruct (length c <? 3)%nat.
Qed.

Lemma same_page_close a b pb :
  0 < pb → a / pb = b / pb → - pb < a - b < pb.
Proof.
  intros Hpb Heq.
  pose proof (Z.div_mod a pb ltac:(lia)) as Ha.
  pose proof (Z.div_mod b pb ltac:(lia)) as Hb.
  pose proof (Z.mod_pos_bound a pb Hpb).
  pose proof (Z.mod_pos_bound b pb Hpb).
  rewrite Heq in Ha. lia.
Qed.

Lemma to_int64_range x : - 2 ^ 63 <= to_int64 x < 2 ^ 63.
Proof.
  unfold to_int64, UINT64_MOD.
  pose proof (Z.mod_pos_bound (x + 2 ^ 63) (2 ^ 64) ltac:(lia)). lia.
Qed.

Lemma delta_of_small a b :
  - 2 ^ 63 <= a - b < 2 ^ 63 → delta_of a b = a - b.
Proof.
  intros Hab. unfold delta_of, to_int64, UINT64_MOD.
  rewrite (Z.mod_eq (a + 2 ^ 63) (2 ^ 64)) by lia.
  rewrite (Z.mod_eq (b + 2 ^ 63) (2 ^ 64)) by lia.
  set (qa := (a + 2 ^ 63) / 2 ^ 64). set (qb := (b + 2 ^ 63) / 2 ^ 64).
  replace (a + 2 ^ 63 - 2 ^ 64 * qa - 2 ^ 63
           - (b + 2 ^ 63 - 2 ^ 64 * qb - 2 ^ 63) + 2 ^ 63)
    with (a - b + 2 ^ 63 + (qb - qa) * 2 ^ 64) by lia.
  rewrite Z_mod_plus_full, Z.mod_small by lia. lia.
Qed.

(** X5.  Deltas of a page pattern stay inside a page: whatever
    [buildPattern] collects along the page chain of a slot of the buffer is
    smaller in absolute value than [pageBytes] (for a page size that fits
    [unsigned]), since the chain only connects accesses to one page. *)
Theorem page_pattern_within_page hs pl d up pb ct n st slot flag deltas delta :
  hs <= INT32_MAX → pb < UINT32_MOD →
  reachable (GHBHistory_new hs pl d up pb ct) n st →
  Z.of_nat n < UINT64_MAX →
  buildPattern slot Page st = Some (flag, deltas) →
  delta ∈ deltas →
  - pageBytes st < delta < pageBytes st.
Proof.
  intros Hhs Hpb Hr Hn Hb Hin.
  pose proof (wf_new hs pl d up pb ct Hhs) as Hwf0.
  pose proof (wf_reachable _ _ _ Hwf0 Hr) as Hwf.
  destruct (same_config_reachable _ _ _ Hwf0 Hr) as (_ & _ & _ & _ & Hpage & _).
  simpl in Hpage.
  unfold buildPattern in Hb. rewrite (wf_length _ Hwf) in Hb.
  destruct (Z.ltb_spec slot 0).
  { injection Hb as _ <-. by apply elem_of_nil in Hin. }
  destruct (Z.leb_spec (historySize st) slot).
  { injection Hb as _ <-. by apply elem_of_nil in Hin. }
  simpl in Hb.
  destruct (buildPattern_loop_walk st Page (Z.to_nat (patternLength st)) slot
              Hwf ltac:(lia)) as (ds & Hloop & Hwalk & _).
  rewrite Hloop in Hb. simpl in Hb. injection Hb as _ <-.
  apply list_elem_of_lookup in Hin as [i Hi].
  destruct (pattern_walk_nth _ _ _ _ _ _ _ Hwalk Hi)
    as (s & e & pe & _ & Hf & He & Hpe & ->).
  destruct Hf as (e' & pe' & He' & Hp & Hpe' & Hseq).
  rewrite He in He'. injection He' as <-.
  rewrite Hpe in Hpe'. injection Hpe' as <-.
  destruct (chain_same_key_reachable _ _ _ _ _ _ _ _ Hhs Hr Hn Page s e He Hp)
    as [Hv Hsame].
  destruct (Hsame pe Hpe Hseq) as [Hv' Hk].
  pose proof (page_key_ok_reachable _ _ _ _ _ _ _ _ Hhs Hr) as Hpk.
  rewrite (Hpk _ _ He Hv), (Hpk _ _ Hpe Hv') in Hk.
  unfold computePage in Hk. symmetry in Hk.
  assert (Hpos : 0 < pageBytes st) by lia.
  pose proof (same_page_close _ _ _ Hpos Hk).
  unfold UINT32_MOD in Hpb.
  fold (delta_of (addr e) (addr pe)).
  rewrite delta_of_small; lia.
Qed.

(** ** Insertion followed by pattern building *)

Lemma new_entry_link_key_value access st key :
  array_get key (links (new_entry access st)) =
  match key_value access st key with
  | Some v => wire st (array_get key (index_before_write st)) v
  | None => LinkInfo_default
  end.
Proof. by destruct key. Qed.

Lemma patternLength_pos hs pl d up pb ct n st :
  hs <= INT32_MAX →
  reachable (GHBHistory_new hs pl d up pb ct) n st →
  (1 <= Z.to_nat (patternLength st))%nat.
Proof.
  intros Hhs Hr.
  destruct (same_config_reachable _ _ _ (wf_new hs pl d up pb ct Hhs) Hr)
    as (_ & Hpl & _).
  simpl in Hpl. lia.
Qed.

Lemma buildPattern_in_range st slot key :
  wf st → 0 <= slot < historySize st →
  buildPattern slot key st =
  deltas ← buildPattern_loop st key (Z.to_nat (patternLength st)) slot;
  Some (negb (bool_decide (deltas = [])), deltas).
Proof.
  intros Hwf Hslot. unfold buildPattern. rewrite (wf_length _ Hwf).
  destruct (Z.ltb_spec slot 0); [lia|].
  by destruct (Z.leb_spec (historySize st) slot); [lia|].
Qed.

(** X6.  Insertion followed by [buildPattern] on the returned slot: the
    pattern for a key kind is non-empty exactly when, before the insertion,
    the index of that kind had the access's key value pointing at a slot
    other than the one the insertion overwrites; and then its first delta
    is the distance from the address held by that slot to the new
    address. *)
Theorem insert_then_buildPattern hs pl d up pb ct n st access key :
  hs <= INT32_MAX →
  reachable (GHBHistory_new hs pl d up pb ct) n st →
  ∃ st' flag deltas,
    insert access st = Some (st', head st) ∧
    buildPattern (head st) key st' = Some (flag, deltas) ∧
    (flag = true ↔
       ∃ v p, key_value access st key = Some v ∧
              array_get key (lastIndex st) !! v = Some p ∧ p ≠ head st) ∧
    (∀ v p pe,
       key_value access st key = Some v →
       array_get key (lastIndex st) !! v = Some p → p ≠ head st →
       history_at st p = Some pe →
       deltas !! 0%nat = Some (delta_of (access_addr access) (addr pe))).
Proof.
  intros Hhs Hr.
  pose proof (wf_reachable _ _ _ (wf_new hs pl d up pb ct Hhs) Hr) as Hwf.
  pose proof (wf_inserted access _ Hwf) as Hwf'.
  pose proof (wf_head _ Hwf) as Hhd.
  pose proof (patternLength_pos _ _ _ _ _ _ _ _ Hhs Hr) as Hpl.
  exists (inserted access st).
  rewrite (insert_eq _ _ Hwf).
  rewrite (buildPattern_in_range _ _ _ Hwf') by done.
  change (patternLength (inserted access st)) with (patternLength st).
  destruct (Z.to_nat (patternLength st)) as [|room]; [lia|].
  cbn [buildPattern_loop]. rewrite history_at_inserted, decide_True by done.
  cbn [mbind option_bind].
  rewrite new_entry_link_key_value.
  destruct (key_value access st key) as [v|] eqn:Hkv; last first.
  { simpl. exists false, []. split; [done|]. split; [done|]. split; [|done].
    split; [done|]. by intros (v & p & [=] & _). }
  destruct (wire_cases st (array_get key (index_before_write st)) v)
    as [(p & Hm & Heq)|[Hm Heq]]; rewrite Heq; cbn [prev prevSeq].
  - destruct (index_before_write_entry _ _ _ _ Hwf Hm) as [Hne [pe Hpe]].
    pose proof (history_at_Some _ _ _ Hpe) as Hp.
    rewrite (wf_length _ Hwf) in Hp.
    destruct (Z.ltb_spec p 0); [lia|].
    rewrite history_at_inserted, decide_False by done.
    rewrite Hpe. cbn [mbind option_bind from_option].
    rewrite Z.eqb_refl. cbn [negb].
    destruct (buildPattern_loop_walk (inserted access st) key room p Hwf')
      as (rest & -> & _); [done|].
    cbn [mbind option_bind].
    eexists _, _. split; [done|]. split; [reflexivity|]. split.
    + split; [|done]. intros _. exists v, p. split; [done|].
      split; [|done]. by apply index_before_write_other.
    + intros v' p' pe' [= <-] Hidx Hne' Hpe'.
      apply index_before_write_other in Hidx; [|done].
      rewrite Hm in Hidx. injection Hidx as <-.
      rewrite Hpe in Hpe'. by injection Hpe' as <-.
  - simpl. exists false, []. split; [done|]. split; [done|]. split.
    + split; [done|]. intros (v' & p & [= <-] & Hidx & Hne).
      apply index_before_write_other in Hidx; [|done]. congruence.
    + intros v' p pe [= <-] Hidx Hne.
      apply index_before_write_other in Hidx; [|done]. congruence.
Qed.

(** ** Training *)

Lemma updatePatternTable_eq chronological st :
  updatePatternTable chronological st =
  set_patternTable
    (fold_left (updatePatternTable_iter chronological)
       (triple_positions chronological) (patternTable st)) st.
Proof.
  rewrite <- updatePatternTable_fold. apply updatePatternTable_frame.
Qed.

(** X7.  The contents of the table after two training calls do not depend
    on their order.  After training with [c1] and then with [c2], the
    count of [next] under [key] is the old count plus the number of
    triples of [c1] and of [c2] that are [key] followed by [next] (in
    32-bit unsigned arithmetic; untouched if there is none), the total of
    [key] likewise, and nothing but the table has changed; so the counts
    and totals are those obtained by training with [c2] first.  (The
    order in which the maps are iterated is not part of the statement.) *)
Theorem updatePatternTable_twice c1 c2 st key next :
  let st12 := updatePatternTable c2 (updatePatternTable c1 st) in
  let st21 := updatePatternTable c1 (updatePatternTable c2 st) in
  let n1 := occurrences c1 (triple_positions c1) key next in
  let n2 := occurrences c2 (triple_positions c2) key next in
  let k1 := key_occurrences c1 (triple_positions c1) key in
  let k2 := key_occurrences c2 (triple_positions c2) key in
  st12 = set_patternTable (patternTable st12) st ∧
  raw_count (patternTable st12) key next
  = (if n1 + n2 =? 0 then raw_count (patternTable st) key next
     else Some (to_uint32
                  (default 0 (raw_count (patternTable st) key next)
                   + n1 + n2))) ∧
  raw_total (patternTable st12) key
  = (if k1 + k2 =? 0 then raw_total (patternTable st) key
     else Some (to_uint32
                  (default 0 (raw_total (patternTable st) key) + k1 + k2))) ∧
  raw_count (patternTable st12) key next
  = raw_count (patternTable st21) key next ∧
  raw_total (patternTable st12) key = raw_total (patternTable st21) key.
Proof.
  intros st12 st21 n1 n2 k1 k2.
  assert (0 <= n1 ∧ 0 <= n2) as [Hn1 Hn2]
    by (unfold n1, n2, occurrences; lia).
  assert (0 <= k1 ∧ 0 <= k2) as [Hk1 Hk2]
    by (unfold k1, k2, key_occurrences; lia).
  assert (Hc12 : raw_count (patternTable st12) key next
    = (if n1 + n2 =? 0 then raw_count (patternTable st) key next
       else Some (to_uint32
                    (default 0 (raw_count (patternTable st) key next)
                     + n1 + n2)))).
  { unfold st12. rewrite !updatePatternTable_fold, !fold_learn_count.
    fold n1 n2.
    destruct (Z.eqb_spec n1 0) as [H1|H1], (Z.eqb_spec n2 0) as [H2|H2],
             (Z.eqb_spec (n1 + n2) 0) as [H3|H3]; try lia; try done.
    - rewrite H1. simpl. do 2 f_equal. lia.
    - rewrite H2. do 2 f_equal. lia.
    - simpl. by rewrite to_uint32_add_l. }
  assert (Hc21 : raw_count (patternTable st21) key next
    = (if n1 + n2 =? 0 then raw_count (patternTable st) key next
       else Some (to_uint32
                    (default 0 (raw_count (patternTable st) key next)
                     + n1 + n2)))).
  { unfold st21. rewrite !updatePatternTable_fold, !fold_learn_count.
    fold n1 n2.
    destruct (Z.eqb_spec n1 0) as [H1|H1], (Z.eqb_spec n2 0) as [H2|H2],
             (Z.eqb_spec (n1 + n2) 0) as [H3|H3]; try lia; try done.
    - rewrite H1. simpl. do 2 f_equal. lia.
    - rewrite H2. do 2 f_equal. lia.
    - simpl. rewrite to_uint32_add_l. do 2 f_equal. lia. }
  assert (Ht12 : raw_total (patternTable st12) key
    = (if k1 + k2 =? 0 then raw_total (patternTable st) key
       else Some (to_uint32
                    (default 0 (raw_total (patternTable st) key)
                     + k1 + k2)))).
  { unfold st12. rewrite !updatePatternTable_fold, !fold_learn_total.
    fold k1 k2.
    destruct (Z.eqb_spec k1 0) as [H1|H1], (Z.eqb_spec k2 0) as [H2|H2],
             (Z.eqb_spec (k1 + k2) 0) as [H3|H3]; try lia; try done.
    - rewrite H1. simpl. do 2 f_equal. lia.
    - rewrite H2. do 2 f_equal. lia.
    - simpl. by rewrite to_uint32_add_l. }
  assert (Ht21 : raw_total (patternTable st21) key
    = (if k1 + k2 =? 0 then raw_total (patternTable st) key
       else Some (to_uint32
                    (default 0 (raw_total (patternTable st) key)
                     + k1 + k2)))).
  { unfold st21. rewrite !updatePatternTable_fold, !fold_learn_total.
    fold k1 k2.
    destruct (Z.eqb_spec k1 0) as [H1|H1], (Z.eqb_spec k2 0) as [H2|H2],
             (Z.eqb_spec (k1 + k2) 0) as [H3|H3]; try lia; try done.
    - rewrite H1. simpl. do 2 f_equal. lia.
    - rewrite H2. do 2 f_equal. lia.
    - simpl. rewrite to_uint32_add_l. do 2 f_equal. lia. }
  split.
  { unfold st12. rewrite (updatePatternTable_frame c2).
    by rewrite (updatePatternTable_frame c1 st) at 2. }
  split; [exact Hc12|]. split; [exact Ht12|].
  split; [by rewrite Hc12, Hc21|by rewrite Ht12, Ht21].
Qed.

Lemma sum_counts_insert_None (m : gmap Z Z) k v :
  m !! k = None → sum_counts (<[k := v]> m) = v + sum_counts m.
Proof.
  intros Hk. unfold sum_counts.
  apply (map_fold_insert_L (λ _ c acc, c + acc) 0 k v m); [|done].
  intros. lia.
Qed.

Lemma sum_counts_insert_Some (m : gmap Z Z) k v c :
  m !! k = Some c → sum_counts (<[k := v]> m) = v + (sum_counts m - c).
Proof.
  intros Hk.
  assert (Hd : sum_counts m = c + sum_counts (delete k m)).
  { unfold sum_counts.
    apply (map_fold_delete_L (λ _ c acc, c + acc) 0 k c m); [|done].
    intros. lia. }
  rewrite <- insert_delete_eq.
  rewrite sum_counts_insert_None by apply lookup_delete_eq. lia.
Qed.

Lemma to_uint32_add_r a b : to_uint32 (a + to_uint32 b) = to_uint32 (a + b).
Proof. unfold to_uint32. apply Zplus_mod_idemp_r. Qed.

Lemma totals_ok_learn key next table :
  totals_ok table → totals_ok (learn key next table).
Proof.
  intros Hok k e. unfold learn. rewrite lookup_insert.
  case_decide as Hk; [|apply Hok]. subst k.
  intros [= <-]. simpl.
  set (entry := default PatternEntry_default (table !! key)).
  assert (He : total entry = to_uint32 (sum_counts (counts entry))).
  { subst entry. destruct (table !! key) as [e|] eqn:Hl; simpl.
    - by apply (Hok key).
    - unfold sum_counts. by rewrite map_fold_empty. }
  rewrite He, to_uint32_add_l.
  destruct (counts entry !! next) as [c|] eqn:Hc; simpl.
  - rewrite (sum_counts_insert_Some _ _ _ _ Hc), to_uint32_add_l.
    f_equal. lia.
  - rewrite (sum_counts_insert_None _ _ _ Hc), to_uint32_add_l.
    f_equal. lia.
Qed.

(** Insertion never touches the pattern table, on any object. *)
Lemma insert_patternTable access st st' slot :
  insert access st = Some (st', slot) → patternTable st' = patternTable st.
Proof.
  intros Hins.
  destruct (insert_returns _ _ _ _ Hins) as [(_ & _ & ->)|(Hnz & _)];
    [done|].
  unfold insert in Hins.
  destruct (Z.eqb_spec (historySize st) 0); [done|].
  assert (Hev : ∀ s st1, evictIndex s st = Some st1 →
                         patternTable st1 = patternTable st).
  { intros s st1. unfold evictIndex, removeIndexMappings,
      removeIndexMappings_iter.
    destruct (history_at st s); simpl; [|done].
    destruct (negb _); simpl.
    - destruct (history_at st s); simpl; [|done].
      destruct (negb _); by intros [= <-].
    - match goal with
      | |- context [history_at ?x s] => destruct (history_at x s)
      end; simpl; [|done].
      destruct (negb _); by intros [= <-]. }
  destruct (if filled st then evictIndex (head st) st else Some st)
    as [st1|] eqn:H1; simpl in Hins; [|done].
  assert (Ht1 : patternTable st1 = patternTable st).
  { destruct (filled st); [by eapply Hev|by injection H1 as <-]. }
  destruct (history_at st1 (head st1)) as [entry|]; simpl in Hins; [|done].
  assert (Has : ∀ s k v x y, assignCorrelation s k v x = Some y →
                             patternTable y = patternTable x).
  { intros s k v x y. unfold assignCorrelation.
    destruct (history_at x s); simpl; [|done].
    destruct (array_get k (lastIndex x) !! v); simpl.
    - destruct (history_at x z); simpl; [|done]. by intros [= <-].
    - by intros [= <-]. }
  match type of Hins with
  | context [mbind _ ?m] => destruct m as [st3|] eqn:H3; simpl in Hins;
                             [|done]
  end.
  assert (Ht3 : patternTable st3 = patternTable st1).
  { destruct (usePC st1), (access_pc access);
      try (apply Has in H3; exact H3);
      (match type of H3 with
       | context [history_at ?x ?s] => destruct (history_at x s)
       end; simpl in H3; [|done]; by injection H3 as <-). }
  destruct (assignCorrelation _ Page _ st3) as [st4|] eqn:H4;
    simpl in Hins; [|done].
  apply Has in H4. injection Hins as <- _.
  rewrite <- Ht1, <- Ht3, <- H4.
  by destruct (_ =? 0).
Qed.

Lemma table_invariant_reachable (P : gmap DeltaPair PatternEntry → Prop)
  init n st :
  P ∅ → (∀ key next t, P t → P (learn key next t)) →
  P (patternTable init) → reachable init n st → P (patternTable st).
Proof.
  intros Hempty Hlearn Hinit Hr.
  induction Hr as [|n st Hr IH|n st access st' slot Hr IH Hins|n st c Hr IH].
  - done.
  - done.
  - by rewrite (insert_patternTable _ _ _ _ Hins).
  - rewrite updatePatternTable_fold.
    apply (fold_left_preserves P); [|done].
    intros t i. apply Hlearn.
Qed.

Lemma totals_ok_reachable init n st :
  totals_ok (patternTable init) → reachable init n st →
  totals_ok (patternTable st).
Proof.
  apply (table_invariant_reachable totals_ok).
  - intros key e. by rewrite lookup_empty.
  - intros key next t. apply totals_ok_learn.
Qed.

(** X8.  The running total of every key is the sum of the counts of its
    distribution, in 32-bit unsigned arithmetic; in particular it is never
    negative and below [2^32]. *)
Theorem total_is_sum_of_counts hs pl d up pb ct n st key e :
  reachable (GHBHistory_new hs pl d up pb ct) n st →
  patternTable st !! key = Some e →
  total e = to_uint32 (sum_counts (counts e)) ∧
  0 <= total e < UINT32_MOD.
Proof.
  intros Hr He.
  assert (Hok : totals_ok (patternTable st)).
  { eapply totals_ok_reachable; [|exact Hr]. intros k x. simpl.
    by rewrite lookup_empty. }
  rewrite (Hok _ _ He). split; [done|].
  unfold to_uint32. apply Z.mod_pos_bound. unfold UINT32_MOD. lia.
Qed.

Lemma table_ok_reachable init n st :
  table_ok (patternTable init) → reachable init n st →
  table_ok (patternTable st).
Proof.
  apply (table_invariant_reachable table_ok).
  - intros key e. by rewrite lookup_empty.
  - intros key next t. apply learn_table_ok.
Qed.

Lemma key_occurrences_pos (chronological : list Z) (i : nat) :
  (i + 2 < length chronological)%nat →
  1 <= key_occurrences chronological (triple_positions chronological)
         (nth i chronological 0, nth (i + 1) chronological 0).
Proof.
  intros Hi. unfold key_occurrences.
  assert (Hin : i ∈ filter
            (λ j, fst (triple_at chronological j)
                  = (nth i chronological 0, nth (i + 1) chronological 0))
            (triple_positions chronological)).
  { apply list_elem_of_filter. split; [done|].
    unfold triple_positions. apply elem_of_seq. lia. }
  destruct (filter _ _) as [|x xs]; [by apply elem_of_nil in Hin|].
  simpl. lia.
Qed.

Lemma raw_total_nonneg table key :
  totals_ok table → 0 <= default 0 (raw_total table key).
Proof.
  intros Hok. unfold raw_total.
  destruct (table !! key) as [e|] eqn:He; simpl; [|lia].
  rewrite (Hok _ _ He). unfold to_uint32, UINT32_MOD.
  apply Z.mod_pos_bound. lia.
Qed.

Lemma raw_total_Some table key x :
  raw_total table key = Some x → ∃ e, table !! key = Some e ∧ total e = x.
Proof.
  unfold raw_total. destruct (table !! key) as [e|]; [|done].
  intros [= <-]. eauto.
Qed.

Section TrainedKeys.

Variable std_sort : list (Z * Z) → list (Z * Z).
Hypothesis std_sort_permutation : ∀ l, std_sort l ≡ₚ l.

(** X9.  What has been learned is found: after a training call, a lookup
    whose last two deltas are the first two of any consecutive triple of
    the training input succeeds and predicts a delta recorded under that
    key, provided the key's 32-bit running total has not wrapped. *)
Theorem trained_key_is_found hs pl d up pb ct n st chronological (i : nat)
    older :
  reachable (GHBHistory_new hs pl d up pb ct) n st →
  (i + 2 < length chronological)%nat →
  default 0 (raw_total (patternTable st)
               (nth i chronological 0, nth (i + 1) chronological 0))
  + key_occurrences chronological (triple_positions chronological)
      (nth i chronological 0, nth (i + 1) chronological 0) < UINT32_MOD →
  ∃ delta c,
    findPatternMatch std_sort
      (older ++ [nth i chronological 0; nth (i + 1) chronological 0])
      (updatePatternTable chronological st) = (true, [delta]) ∧
    raw_count (patternTable (updatePatternTable chronological st))
      (nth i chronological 0, nth (i + 1) chronological 0) delta = Some c.
Proof using std_sort_permutation.
  intros Hr Hi Hsmall.
  pose proof (key_occurrences_pos chronological i Hi) as Hocc.
  remember (nth i chronological 0, nth (i + 1) chronological 0) as key
    eqn:Hkey.
  remember (updatePatternTable chronological st) as st' eqn:Hst'.
  assert (Hr' : reachable (GHBHistory_new hs pl d up pb ct) n st')
    by (subst st'; by apply reach_update).
  assert (Htot0 : 0 <= default 0 (raw_total (patternTable st) key)).
  { apply raw_total_nonneg. eapply totals_ok_reachable; [|exact Hr].
    intros k x. simpl. by rewrite lookup_empty. }
  assert (Htot : raw_total (patternTable st') key
                 = Some (default 0 (raw_total (patternTable st) key)
                         + key_occurrences chronological
                             (triple_positions chronological) key)).
  { subst st'. rewrite updatePatternTable_fold, fold_learn_total.
    destruct (Z.eqb_spec (key_occurrences chronological
                (triple_positions chronological) key) 0); [lia|].
    f_equal. unfold to_uint32. apply Z.mod_small. lia. }
  apply raw_total_Some in Htot as (e & He & Htot).
  assert (Hok : table_ok (patternTable st')).
  { eapply table_ok_reachable; [|exact Hr']. intros k x. simpl.
    by rewrite lookup_empty. }
  destruct (std_sort (map_to_list (counts e))) as [|[delta c] rest] eqn:Hs.
  { apply (std_sort_nil std_sort std_sort_permutation) in Hs.
    apply map_to_list_empty_iff in Hs. by destruct (Hok _ _ He). }
  exists delta, c. split.
  - unfold findPatternMatch.
    destruct (two_last_key older (nth i chronological 0)
                (nth (i + 1) chronological 0)) as [-> ->].
    destruct (Nat.ltb_spec (length (older ++ [nth i chronological 0;
                nth (i + 1) chronological 0])) 2) as [Hlt|_].
    { rewrite length_app in Hlt. simpl in Hlt. lia. }
    rewrite <- Hkey. unfold DeltaPair in *. rewrite He.
    destruct (Z.eqb_spec (total e) 0); [lia|].
    by rewrite Hs.
  - unfold raw_count. rewrite He. simpl.
    apply elem_of_map_to_list. rewrite <- (std_sort_permutation _), Hs.
    by left.
Qed.

End TrainedKeys.

(** ** One access, at most one candidate *)

Lemma emit_loop_length samePage block next predicted :
  (length (emit_loop samePage block next predicted) <= length predicted)%nat.
Proof.
  revert next. induction predicted as [|delta rest IH]; intros next; [done|].
  simpl. destruct (delta =? 0).
  - specialize (IH next). lia.
  - destruct (negb _); simpl;
      specialize (IH (to_uint64 (to_int64 next + delta))); lia.
Qed.

Lemma prediction_length std_sort chronological h :
  (length (prediction std_sort chronological h) <= 1)%nat.
Proof.
  unfold prediction.
  destruct (negb (fst (findPatternMatch std_sort chronological h))).
  - unfold fallbackPattern. destruct chronological; [simpl; lia|].
    destruct (negb _); simpl; lia.
  - unfold findPatternMatch.
    destruct (length chronological <? 2)%nat; [simpl; lia|].
    destruct (patternTable h !! _) as [e|]; [|simpl; lia].
    destruct (total e =? 0); [simpl; lia|].
    destruct (std_sort _); simpl; lia.
Qed.

(** What a handled access appends, in closed form. *)
Lemma calculatePrefetch_output std_sort blockAddress samePage base_pageBytes
    p pf pfi addresses :
  history_size p <= INT32_MAX →
  pf_reachable std_sort blockAddress samePage
    (GHBPrefetcher_new base_pageBytes p) pf →
  ∃ n deltas,
    reachable (historyHelper (GHBPrefetcher_new base_pageBytes p)) n
      (historyHelper pf) ∧
    chosen_pattern (head (historyHelper pf))
      (inserted (recorded_access blockAddress pfi pf) (historyHelper pf))
    = Some (negb (bool_decide (deltas = [])), deltas) ∧
    calculatePrefetch std_sort blockAddress samePage pfi addresses pf
    = Some (if bool_decide (deltas = [])
            then (set_historyHelper
                    (inserted (recorded_access blockAddress pfi pf)
                       (historyHelper pf)) pf, addresses)
            else
              let h2 := updatePatternTable (rev deltas)
                          (inserted (recorded_access blockAddress pfi pf)
                             (historyHelper pf)) in
              (set_historyHelper h2 pf,
               addresses
               ++ emit_loop samePage (blockAddress (getAddr pfi))
                    (blockAddress (getAddr pfi))
                    (prediction std_sort (rev deltas) h2))).
Proof.
  intros Hp Hr.
  pose proof (wf_GHBPrefetcher_new base_pageBytes p Hp) as Hwf0.
  destruct (pf_reachable_helper _ _ _ _ _ Hwf0 Hr) as [n Hn].
  pose proof (wf_reachable _ _ _ Hwf0 Hn) as Hwf.
  destruct (calculatePrefetch_eq std_sort blockAddress samePage pfi
              addresses pf Hwf) as (deltas & Hc & Heq).
  exists n, deltas. done.
Qed.

(** X10.  Whatever the configured degree, handling one access appends at
    most one candidate address. *)
Theorem one_candidate_per_access std_sort blockAddress samePage
    base_pageBytes p pf pfi addresses :
  history_size p <= INT32_MAX →
  pf_reachable std_sort blockAddress samePage
    (GHBPrefetcher_new base_pageBytes p) pf →
  ∃ pf' emitted,
    calculatePrefetch std_sort blockAddress samePage pfi addresses pf
    = Some (pf', addresses ++ emitted) ∧
    (length emitted <= 1)%nat.
Proof.
  intros Hp Hr.
  destruct (calculatePrefetch_output _ _ _ _ _ _ pfi addresses Hp Hr)
    as (n & deltas & _ & _ & ->).
  destruct (bool_decide (deltas = [])).
  - eexists _, []. split; [by rewrite app_nil_r|simpl; lia].
  - eexists _, _. split; [done|].
    etransitivity; [apply emit_loop_length|apply prediction_length].
Qed.

(** ** A cold access *)

Lemma no_predecessor_no_pattern access st key :
  wf st →
  prev (array_get key (links (new_entry access st))) < 0 →
  buildPattern (head st) key (inserted access st) = Some (false, []).
Proof.
  intros Hwf Hprev. pose proof (wf_head _ Hwf) as Hhd.
  rewrite (buildPattern_in_range _ _ _ (wf_inserted access _ Hwf)) by done.
  change (patternLength (inserted access st)) with (patternLength st).
  destruct (Z.to_nat (patternLength st)) as [|room]; [done|].
  cbn [buildPattern_loop]. rewrite history_at_inserted, decide_True by done.
  cbn [mbind option_bind].
  by destruct (Z.ltb_spec (prev (array_get key (links (new_entry access st))))
                0); [|lia].
Qed.

Lemma unknown_key_no_predecessor access st key :
  (∀ v, key_value access st key = Some v →
        array_get key (lastIndex st) !! v = None) →
  prev (array_get key (links (new_entry access st))) < 0.
Proof.
  intros Hcold. rewrite new_entry_link_key_value.
  destruct (key_value access st key) as [v|]; [|simpl; lia].
  destruct (wire_cases st (array_get key (index_before_write st)) v)
    as [(p & Hm & _)|[_ ->]]; [|simpl; lia].
  apply index_before_write_sub in Hm. by rewrite (Hcold v) in Hm.
Qed.

(** X11.  A cold access is recorded but triggers nothing: if neither index
    knows the page of the access nor (when instruction pointers are used)
    its instruction pointer, [calculatePrefetch] appends no address, and
    afterwards the page index points at the slot the access was written
    to. *)
Theorem cold_access_no_prefetch std_sort blockAddress samePage
    base_pageBytes p pf pfi addresses :
  history_size p <= INT32_MAX →
  pf_reachable std_sort blockAddress samePage
    (GHBPrefetcher_new base_pageBytes p) pf →
  (∀ key v,
     key_value (recorded_access blockAddress pfi pf) (historyHelper pf) key
       = Some v →
     array_get key (lastIndex (historyHelper pf)) !! v = None) →
  ∃ pf',
    calculatePrefetch std_sort blockAddress samePage pfi addresses pf
      = Some (pf', addresses) ∧
    array_get Page (lastIndex (historyHelper pf'))
      !! computePage (historyHelper pf) (blockAddress (getAddr pfi))
      = Some (head (historyHelper pf)).
Proof.
  intros Hp Hr Hcold.
  destruct (calculatePrefetch_output _ _ _ _ _ _ pfi addresses Hp Hr)
    as (n & deltas & Hn & Hc & ->).
  pose proof (wf_reachable _ _ _ (wf_GHBPrefetcher_new base_pageBytes p Hp) Hn)
    as Hwf.
  unfold chosen_pattern in Hc.
  rewrite !no_predecessor_no_pattern in Hc
    by (done || (apply unknown_key_no_predecessor, Hcold)).
  simpl in Hc. injection Hc as _ <-. simpl.
  eexists. split; [done|]. simpl. apply lookup_insert_eq.
Qed.

(** ** A constant-stride stream *)

Lemma to_int64_shift x k : to_int64 (x + k * 2 ^ 64) = to_int64 x.
Proof.
  unfold to_int64, UINT64_MOD.
  replace (x + k * 2 ^ 64 + 2 ^ 63) with (x + 2 ^ 63 + k * 2 ^ 64) by lia.
  by rewrite Z_mod_plus_full.
Qed.

Lemma to_uint64_shift x k : to_uint64 (x + k * 2 ^ 64) = to_uint64 x.
Proof. unfold to_uint64, UINT64_MOD. by rewrite Z_mod_plus_full. Qed.

Lemma to_int64_unsigned x : ∃ k, to_int64 (to_uint64 x) = x + k * 2 ^ 64.
Proof.
  unfold to_int64, to_uint64, UINT64_MOD.
  rewrite (Z.mod_eq (x mod 2 ^ 64 + 2 ^ 63)) by lia.
  rewrite (Z.mod_eq x (2 ^ 64)) by lia.
  eexists (- (x / 2 ^ 64) - ((x - 2 ^ 64 * (x / 2 ^ 64) + 2 ^ 63) / 2 ^ 64)).
  lia.
Qed.

Lemma to_int64_small x : - 2 ^ 63 <= x < 2 ^ 63 → to_int64 x = x.
Proof.
  intros Hx. unfold to_int64, UINT64_MOD. rewrite Z.mod_small; lia.
Qed.

Lemma stride_delta a d j :
  - 2 ^ 63 <= d < 2 ^ 63 →
  delta_of (to_uint64 (a + j * d)) (to_uint64 (a + (j - 1) * d)) = d.
Proof.
  intros Hd. unfold delta_of.
  destruct (to_int64_unsigned (a + j * d)) as [k1 ->].
  destruct (to_int64_unsigned (a + (j - 1) * d)) as [k2 ->].
  replace (a + j * d + k1 * 2 ^ 64 - (a + (j - 1) * d + k2 * 2 ^ 64))
    with (d + (k1 - k2) * 2 ^ 64) by lia.
  rewrite to_int64_shift. by apply to_int64_small.
Qed.

Lemma stride_next a d j :
  to_uint64 (to_int64 (to_uint64 (a + j * d)) + d)
  = to_uint64 (a + (j + 1) * d).
Proof.
  destruct (to_int64_unsigned (a + j * d)) as [k1 ->].
  replace (a + j * d + k1 * 2 ^ 64 + d) with (a + (j + 1) * d + k1 * 2 ^ 64)
    by lia.
  apply to_uint64_shift.
Qed.

Lemma stride_inv_new a d pc hs pl dg pb ct :
  2 <= hs <= INT32_MAX →
  stride_inv a d pc 0 (GHBHistory_new hs pl dg true pb ct).
Proof.
  intros Hhs. split.
  - apply wf_new. lia.
  - apply seq_ok_new.
  - simpl. rewrite Z.mod_0_l; lia.
  - done.
  - simpl. lia.
  - simpl. lia.
  - done.
  - lia.
  - intros j ?. lia.
  - intros key e x He. simpl in He. by rewrite lookup_empty in He.
Qed.

Lemma stride_inv_inserted a d pc k h :
  stride_inv a d pc k h → Z.of_nat (S k) < UINT64_MAX →
  stride_inv a d pc (S k)
    (inserted {| access_addr := to_uint64 (a + Z.of_nat k * d);
                 access_pc := Some pc |} h).
Proof.
  intros [Hwf Hseq Hhead Hpc Hsize Hpl Hfresh Hindex Hentry Htable] Hk.
  set (access := {| access_addr := to_uint64 (a + Z.of_nat k * d);
                    access_pc := Some pc |}).
  assert (key_value access h PC = Some pc) as Hkv
    by (unfold key_value; by rewrite Hpc).
  split.
  - by apply wf_inserted.
  - by apply seq_ok_inserted.
  - simpl. unfold next_head. rewrite Hhead.
    destruct (ring_step (Z.of_nat k) (historySize h)) as [-> _]; [lia..|].
    f_equal. lia.
  - done.
  - done.
  - done.
  - done.
  - intros _. change (lastIndex (inserted access h)) with (new_index access h).
    change (historySize (inserted access h)) with (historySize h).
    rewrite new_index_lookup_eq, decide_True by done.
    rewrite Hhead. do 2 f_equal. lia.
  - intros j Hj Hlive.
    change (historySize (inserted access h)) with (historySize h) in *.
    rewrite history_at_inserted by done.
    destruct (decide (j = Z.of_nat k)) as [->|Hne].
    + rewrite decide_True by done. eexists. split; [done|].
      split; [done|]. split; [simpl; rewrite (sq_counter _ _ Hseq); lia|].
      rewrite new_entry_link_key_value, Hkv.
      destruct k as [|k'].
      * rewrite decide_True by done.
        destruct (wire_cases h (array_get PC (index_before_write h)) pc)
          as [(p & Hm & _)|[_ ->]]; [|done].
        apply index_before_write_sub in Hm.
        rewrite Hfresh in Hm by done. simpl in Hm. by rewrite lookup_empty in Hm.
      * rewrite decide_False by lia.
        specialize (Hindex ltac:(lia)).
        assert ((Z.of_nat (S k') - 1) mod historySize h ≠ head h) as Hnh.
        { rewrite Hhead. apply mod_neq_within. lia. }
        apply (index_before_write_other _ _ _ _ Hnh) in Hindex.
        destruct (Hentry (Z.of_nat (S k') - 1)) as (e & He & _ & Hs & _);
          [lia..|].
        unfold wire. rewrite Hindex, He. simpl.
        split; [done|lia].
    + assert (j mod historySize h ≠ head h) as Hnh.
      { rewrite Hhead. apply mod_neq_within. lia. }
      rewrite decide_False by done. apply Hentry; lia.
  - done.
Qed.

Lemma fold_left_preserves_in {A B} (P : A → Prop) (f : A → B → A) l a :
  (∀ a b, b ∈ l → P a → P (f a b)) → P a → P (fold_left f l a).
Proof.
  revert a. induction l as [|b l IH]; intros a Hf Ha; [done|].
  simpl. apply IH.
  - intros a' b' Hb'. apply Hf. by right.
  - apply Hf; [by left|done].
Qed.

Lemma stride_table_learn d key table :
  stride_table d table → stride_table d (learn key d table).
Proof.
  intros Ht key' e x. unfold learn. rewrite lookup_insert.
  case_decide as Hk; [|apply Ht].
  intros [= <-]. simpl. rewrite lookup_insert. case_decide as Hx; [done|].
  destruct (table !! key) as [e'|] eqn:He'; simpl.
  - by apply (Ht key e').
  - rewrite lookup_empty. by intros [? ?].
Qed.

Lemma stride_inv_update a d pc k h m :
  stride_inv a d pc k h →
  stride_inv a d pc k (updatePatternTable (replicate m d) h).
Proof.
  intros [Hwf Hseq Hhead Hpc Hsize Hpl Hfresh Hindex Hentry Htable].
  split; try (rewrite updatePatternTable_frame; done).
  - by apply wf_updatePatternTable.
  - by apply seq_ok_updatePatternTable.
  - rewrite updatePatternTable_eq. simpl.
    apply (fold_left_preserves_in (stride_table d)); [|done].
    intros t i Hi Ht. unfold updatePatternTable_iter.
    unfold triple_positions in Hi. apply elem_of_seq in Hi.
    rewrite length_replicate in Hi.
    replace (nth (i + 2) (replicate m d) 0) with d.
    + by apply stride_table_learn.
    + symmetry. apply nth_lookup_Some. apply lookup_replicate. split; [done|lia].
Qed.

Lemma stride_walk a d pc K h :
  stride_inv a d pc K h → - 2 ^ 63 <= d < 2 ^ 63 →
  ∀ room j,
    0 <= j < Z.of_nat K → Z.of_nat K - historySize h <= j →
    buildPattern_loop h PC room (j mod historySize h)
    = Some (replicate
              (Nat.min room
                 (Z.to_nat (j - Z.max 0 (Z.of_nat K - historySize h)))) d).
Proof.
  intros [Hwf Hseq Hhead Hpc Hsize Hpl Hfresh Hindex Hentry Htable] Hd.
  induction room as [|room IH]; intros j Hj Hlive; [done|].
  cbn [buildPattern_loop].
  destruct (Hentry j Hj Hlive) as (e & He & Ha & Hs & Hp & Hps).
  rewrite He. cbn [mbind option_bind]. rewrite Hp.
  destruct (decide (j = 0)) as [->|Hj0].
  { replace (Z.to_nat (0 - Z.max 0 (Z.of_nat K - historySize h))) with 0%nat
      by lia.
    by rewrite Nat.min_0_r. }
  pose proof (Z.mod_pos_bound (j - 1) (historySize h) ltac:(lia)) as Hb.
  destruct (Z.ltb_spec ((j - 1) mod historySize h) 0) as [?|_]; [lia|].
  destruct (decide (Z.of_nat K - historySize h <= j - 1)) as [Hin|Hout].
  - destruct (Hentry (j - 1) ltac:(lia) Hin)
      as (pe & Hpe & Hpa & Hpseq & _ & _).
    rewrite Hpe. cbn [mbind option_bind].
    rewrite Hpseq, Hps.
    replace (j - 1 + 1 =? j) with true by (symmetry; apply Z.eqb_eq; lia).
    cbn [negb]. rewrite (IH (j - 1)) by lia. cbn [mbind option_bind].
    rewrite Ha, Hpa, stride_delta by done.
    f_equal. rewrite <- replicate_S. f_equal. lia.
  - assert ((j - 1) mod historySize h
            = (Z.of_nat K - 1) mod historySize h) as ->.
    { replace (j - 1) with (Z.of_nat K - 1 + (-1) * historySize h) by lia.
      apply Z_mod_plus_full. }
    destruct (Hentry (Z.of_nat K - 1) ltac:(lia) ltac:(lia))
      as (pe & Hpe & _ & Hpseq & _ & _).
    rewrite Hpe. cbn [mbind option_bind]. rewrite Hpseq, Hps.
    replace (Z.of_nat K - 1 + 1 =? j) with false
      by (symmetry; apply Z.eqb_neq; lia).
    cbn [negb].
    replace (Z.to_nat (j - Z.max 0 (Z.of_nat K - historySize h))) with 0%nat
      by lia.
    by rewrite Nat.min_0_r.
Qed.

Lemma fallbackPattern_replicate m d :
  d ≠ 0 → fallbackPattern (replicate (S m) d) = [d].
Proof.
  intros Hd. unfold fallbackPattern.
  assert (List.last (replicate (S m) d) 0 = d) as ->.
  { induction m as [|m IH]; [done|].
    change (replicate (S (S m)) d) with (d :: replicate (S m) d).
    by rewrite <- IH at 3. }
  simpl. by destruct (Z.eqb_spec d 0).
Qed.

Lemma rev_replicate {A} m (x : A) : rev (replicate m x) = replicate m x.
Proof.
  induction m as [|m IH]; [done|].
  simpl. rewrite IH. clear IH. induction m as [|m IH]; [done|].
  simpl. by rewrite IH.
Qed.

Section Stride.

Variable std_sort : list (Z * Z) → list (Z * Z).
Hypothesis std_sort_permutation : ∀ l, std_sort l ≡ₚ l.
Variable blockAddress : Z → Z.
Variable samePage : Z → Z → bool.

Lemma stride_prediction d m h :
  d ≠ 0 → stride_table d (patternTable h) →
  prediction std_sort (replicate (S m) d) h = [d].
Proof.
  intros Hd Ht. unfold prediction, findPatternMatch.
  destruct (length (replicate (S m) d) <? 2)%nat;
    [by apply fallbackPattern_replicate|].
  destruct (patternTable h !! _) as [e|] eqn:He;
    [|by apply fallbackPattern_replicate].
  destruct (total e =? 0); [by apply fallbackPattern_replicate|].
  destruct (std_sort (map_to_list (counts e))) as [|[x c] rest] eqn:Hs;
    [by apply fallbackPattern_replicate|].
  simpl. f_equal. apply (Ht _ e x He). exists c.
  apply elem_of_map_to_list. rewrite <- (std_sort_permutation _), Hs. by left.
Qed.

Lemma stride_step a d pc k pf pfi :
  stride_inv a d pc k (historyHelper pf) →
  pf_usePC pf = true →
  d ≠ 0 → - 2 ^ 63 <= d < 2 ^ 63 →
  Z.of_nat (S k) < UINT64_MAX →
  getPC pfi = Some pc →
  blockAddress (getAddr pfi) = to_uint64 (a + Z.of_nat k * d) →
  ∃ pf',
    calculatePrefetch std_sort blockAddress samePage pfi [] pf
      = Some (pf', stride_candidates samePage a d k) ∧
    stride_inv a d pc (S k) (historyHelper pf') ∧
    pf_usePC pf' = true.
Proof.
  intros Hinv Hupc Hd0 Hd Hk Hpc Hblock.
  pose proof (si_wf _ _ _ _ _ Hinv) as Hwf.
  destruct (calculatePrefetch_eq std_sort blockAddress samePage pfi [] pf Hwf)
    as (deltas & Hc & ->).
  assert (recorded_access blockAddress pfi pf
          = {| access_addr := to_uint64 (a + Z.of_nat k * d);
               access_pc := Some pc |}) as Hacc.
  { unfold recorded_access. by rewrite Hupc, Hpc, Hblock. }
  rewrite Hacc in *. rewrite Hblock. clear Hacc.
  set (access := {| access_addr := to_uint64 (a + Z.of_nat k * d);
                    access_pc := Some pc |}) in *.
  pose proof (stride_inv_inserted _ _ _ _ _ Hinv Hk) as Hinv1.
  fold access in Hinv1.
  pose proof (si_wf _ _ _ _ _ Hinv1) as Hwf1.
  pose proof (wf_head _ Hwf) as Hhd.
  unfold chosen_pattern in Hc.
  rewrite (buildPattern_in_range _ _ PC Hwf1) in Hc by done.
  rewrite (si_head _ _ _ _ _ Hinv) in Hc at 1.
  change (historySize (historyHelper pf))
    with (historySize (inserted access (historyHelper pf))) in Hc at 1.
  rewrite (stride_walk _ _ _ _ _ Hinv1 Hd) in Hc
    by (change (historySize (inserted access (historyHelper pf)))
          with (historySize (historyHelper pf)); lia).
  cbn [mbind option_bind] in Hc.
  pose proof (si_size _ _ _ _ _ Hinv) as Hsize.
  pose proof (si_pattern _ _ _ _ _ Hinv) as Hpl.
  change (historySize (inserted access (historyHelper pf)))
    with (historySize (historyHelper pf)) in Hc.
  change (patternLength (inserted access (historyHelper pf)))
    with (patternLength (historyHelper pf)) in Hc.
  destruct k as [|k'].
  - replace (Z.to_nat (Z.of_nat 0
               - Z.max 0 (Z.of_nat 1 - historySize (historyHelper pf))))
      with 0%nat in Hc by lia.
    rewrite Nat.min_0_r in Hc. simpl in Hc.
    rewrite no_predecessor_no_pattern in Hc; [|done|].
    2:{ apply unknown_key_no_predecessor. intros v _.
        rewrite (si_fresh _ _ _ _ _ Hinv) by done. apply lookup_empty. }
    injection Hc as _ <-. simpl. eexists. split; [done|]. by split.
  - remember (Nat.min (Z.to_nat (patternLength (historyHelper pf)))
                (Z.to_nat (Z.of_nat (S k')
                   - Z.max 0 (Z.of_nat (S (S k'))
                              - historySize (historyHelper pf)))))
      as m eqn:Hm.
    destruct m as [|m]; [lia|].
    rewrite (bool_decide_false (replicate (S m) d = [])) in Hc by done.
    cbn [negb] in Hc. injection Hc as _ <-.
    rewrite bool_decide_false by done.
    change (d :: replicate m d) with (replicate (S m) d).
    rewrite rev_replicate. cbv zeta.
    eexists. split; [|split].
    + f_equal. f_equal.
      rewrite stride_prediction;
        [|done|apply si_table with (a := a) (pc := pc) (k := S (S k'));
                by apply (stride_inv_update a d pc _ _ (S m))].
      simpl. destruct (Z.eqb_spec d 0) as [?|_]; [done|].
      rewrite stride_next.
      by destruct (samePage _ _).
    + simpl. by apply (stride_inv_update a d pc _ _ (S m)).
    + done.
Qed.

Lemma stride_run a d pc pfis :
  d ≠ 0 → - 2 ^ 63 <= d < 2 ^ 63 →
  ∀ k pf,
    stride_inv a d pc k (historyHelper pf) →
    pf_usePC pf = true →
    Z.of_nat (k + length pfis) < UINT64_MAX →
    (∀ (i : nat) pfi,
       pfis !! i = Some pfi →
       getPC pfi = Some pc ∧
       blockAddress (getAddr pfi) = to_uint64 (a + Z.of_nat (k + i) * d)) →
    ∃ pf',
      handle_all std_sort blockAddress samePage pfis pf
      = Some (pf', map (stride_candidates samePage a d)
                     (List.seq k (length pfis))).
Proof.
  intros Hd0 Hd. induction pfis as [|pfi rest IH]; intros k pf Hinv Hupc Hk Hs.
  { by eexists. }
  destruct (Hs 0%nat pfi eq_refl) as [Hpc Hblock].
  rewrite Nat.add_0_r in Hblock. simpl in Hk.
  destruct (stride_step a d pc k pf pfi Hinv Hupc Hd0 Hd ltac:(lia) Hpc Hblock)
    as (pf1 & Hcalc & Hinv1 & Hupc1).
  destruct (IH (S k) pf1 Hinv1 Hupc1 ltac:(lia)) as (pf2 & Hrest).
  { intros i pfi' Hi. destruct (Hs (S i) pfi' Hi) as [? Hb].
    split; [done|]. rewrite Hb. do 3 f_equal. lia. }
  exists pf2. cbn [handle_all]. rewrite Hcalc. cbn [mbind option_bind].
  rewrite Hrest. done.
Qed.

(** X12.  A constant stride is learned at once.  A freshly constructed
    prefetcher that uses instruction pointers and has at least two
    history slots is given accesses by one instruction to the blocks
    [a], [a + d], [a + 2 d], ... (modulo [2 ^ 64]) with [d ≠ 0] a 64-bit
    signed stride: the first access is answered with nothing, and every
    later one with exactly the next block of the stream at priority 0,
    provided it lies in the page of the current block. *)
Theorem constant_stride_is_prefetched base_pageBytes p a d pc pfis :
  use_pc p = true →
  2 <= history_size p <= INT32_MAX →
  d ≠ 0 → - 2 ^ 63 <= d < 2 ^ 63 →
  Z.of_nat (length pfis) < UINT64_MAX →
  (∀ (k : nat) pfi,
     pfis !! k = Some pfi →
     getPC pfi = Some pc ∧
     blockAddress (getAddr pfi) = to_uint64 (a + Z.of_nat k * d)) →
  ∃ pf',
    handle_all std_sort blockAddress samePage pfis
      (GHBPrefetcher_new base_pageBytes p)
    = Some (pf', map (stride_candidates samePage a d)
                   (List.seq 0 (length pfis))).
Proof.
  intros Hupc Hhs Hd0 Hd Hlen Hs.
  apply (stride_run a d pc pfis Hd0 Hd 0%nat); [|done|done|done].
  simpl. rewrite Hupc. apply stride_inv_new. lia.
Qed.

End Stride.

(** ** The properties at the objects of the unit tests *)

Lemma recorded_inserted init l st access :
  wf init → recorded init l st →
  recorded init (l ++ [access]) (inserted access st).
Proof.
  intros Hwf Hr. eapply rec_insert; [exact Hr|].
  apply insert_eq. eapply wf_reachable; [exact Hwf|].
  by apply recorded_reachable.
Qed.

Lemma stride_state_recorded :
  recorded (makeHistory 2 50 true)
    [mkAccessInfo 0 (Some 256); mkAccessInfo 64 (Some 256);
     mkAccessInfo 128 (Some 256)]
    stride_state.
Proof.
  pose proof (makeHistory_wf 2 50 true) as Hwf.
  exact (recorded_inserted _ [_; _] _ _ Hwf
           (recorded_inserted _ [_] _ _ Hwf
              (recorded_inserted _ [] _ _ Hwf (rec_init _)))).
Qed.

Lemma page_state_reachable :
  reachable (makeHistory 2 50 false) 3 page_state.
Proof.
  pose proof (makeHistory_wf 2 50 false) as Hwf.
  unfold page_state. repeat apply reachable_inserted; try done. constructor.
Qed.

Lemma insert_goes_round_witness :
  16 <= INT32_MAX ∧
  reachable (GHBHistory_new 16 4 2 true 64 50) 3 stride_state ∧
  head stride_state = Z.of_nat 3 mod historySize stride_state ∧
  filled stride_state = bool_decide (historySize stride_state <= Z.of_nat 3) ∧
  ∀ access, snd <$> insert access stride_state
            = Some (Z.of_nat 3 mod historySize stride_state).
Proof.
  assert (H1 : 16 <= INT32_MAX) by (unfold INT32_MAX; lia).
  split; [exact H1|]. split; [exact stride_state_reachable|].
  exact (insert_goes_round 16 4 2 true 64 50 3 stride_state H1
           stride_state_reachable).
Defined.

Lemma buffer_holds_last_accesses_witness :
  16 <= INT32_MAX ∧
  recorded (GHBHistory_new 16 4 2 true 64 50)
    [mkAccessInfo 0 (Some 256); mkAccessInfo 64 (Some 256);
     mkAccessInfo 128 (Some 256)] stride_state ∧
  Z.of_nat 3 < UINT64_MAX ∧
  (∃ e, history_at stride_state 1 = Some e ∧
        addr e = 64 ∧ seq e = 2 ∧
        keyValue (array_get PC (links e)) = 256) ∧
  history_at stride_state 3 = Some GHBEntry_default.
Proof.
  assert (H1 : 16 <= INT32_MAX) by (unfold INT32_MAX; lia).
  assert (H3 : Z.of_nat 3 < UINT64_MAX) by (unfold UINT64_MAX; lia).
  split; [exact H1|]. split; [exact stride_state_recorded|].
  split; [exact H3|].
  destruct (buffer_holds_last_accesses 16 4 2 true 64 50 _ stride_state H1
              stride_state_recorded H3) as [Hlast Hrest].
  split.
  - destruct (Hlast 1%nat (mkAccessInfo 64 (Some 256)) eq_refl)
      as (e & He & Ha & Hs & Hk).
    { simpl. lia. }
    exists e. split; [exact He|]. split; [exact Ha|]. split; [exact Hs|].
    exact (proj2 (Hk PC)).
  - apply Hrest. simpl. lia.
Defined.

Lemma index_finds_most_recent_witness :
  16 <= INT32_MAX ∧
  reachable (GHBHistory_new 16 4 2 true 64 50) 3 stride_state ∧
  Z.of_nat 3 < UINT64_MAX ∧
  history_at stride_state 0
    = Some (mkGHBEntry 0 (mkLinkInfo (-1) 0 256 true,
                          mkLinkInfo (-1) 0 0 true) 1) ∧
  ∃ s' e',
    array_get PC (lastIndex stride_state) !! 256 = Some s' ∧
    history_at stride_state s' = Some e' ∧
    keyValid (array_get PC (links e')) = true ∧
    keyValue (array_get PC (links e')) = 256 ∧
    1 <= seq e'.
Proof.
  assert (H1 : 16 <= INT32_MAX) by (unfold INT32_MAX; lia).
  assert (H3 : Z.of_nat 3 < UINT64_MAX) by (unfold UINT64_MAX; lia).
  assert (H4 : history_at stride_state 0
               = Some (mkGHBEntry 0 (mkLinkInfo (-1) 0 256 true,
                                     mkLinkInfo (-1) 0 0 true) 1))
    by (vm_compute; reflexivity).
  split; [exact H1|]. split; [exact stride_state_reachable|].
  split; [exact H3|]. split; [exact H4|].
  exact (index_finds_most_recent 16 4 2 true 64 50 3 stride_state PC 0 _
           H1 stride_state_reachable H3 H4 eq_refl).
Defined.

Lemma followed_link_same_key_witness :
  16 <= INT32_MAX ∧
  reachable (GHBHistory_new 16 4 2 true 64 50) 3 stride_state ∧
  Z.of_nat 3 < UINT64_MAX ∧
  followed stride_state PC 2 ∧
  ∃ e pe,
    history_at stride_state 2 = Some e ∧
    history_at stride_state (prev (array_get PC (links e))) = Some pe ∧
    keyValid (array_get PC (links e)) = true ∧
    keyValid (array_get PC (links pe)) = true ∧
    keyValue (array_get PC (links pe)) = keyValue (array_get PC (links e)).
Proof.
  assert (H1 : 16 <= INT32_MAX) by (unfold INT32_MAX; lia).
  assert (H3 : Z.of_nat 3 < UINT64_MAX) by (unfold UINT64_MAX; lia).
  assert (H4 : followed stride_state PC 2).
  { eexists _, _. split; [vm_compute; reflexivity|].
    split; [vm_compute; discriminate|].
    split; vm_compute; reflexivity. }
  split; [exact H1|]. split; [exact stride_state_reachable|].
  split; [exact H3|]. split; [exact H4|].
  exact (followed_link_same_key 16 4 2 true 64 50 3 stride_state PC 2
           H1 stride_state_reachable H3 H4).
Defined.

Lemma page_pattern_within_page_witness :
  16 <= INT32_MAX ∧ 64 < UINT32_MOD ∧
  reachable (GHBHistory_new 16 4 2 false 64 50) 3 page_state ∧
  Z.of_nat 3 < UINT64_MAX ∧
  buildPattern 2 Page page_state = Some (true, [8; 8]) ∧
  8 ∈ [8; 8] ∧
  - pageBytes page_state < 8 < pageBytes page_state.
Proof.
  assert (H1 : 16 <= INT32_MAX) by (unfold INT32_MAX; lia).
  assert (H2 : 64 < UINT32_MOD) by (unfold UINT32_MOD; lia).
  assert (H3 : Z.of_nat 3 < UINT64_MAX) by (unfold UINT64_MAX; lia).
  assert (H4 : buildPattern 2 Page page_state = Some (true, [8; 8]))
    by (vm_compute; reflexivity).
  assert (H5 : 8 ∈ [8; 8]) by (by left).
  split; [exact H1|]. split; [exact H2|].
  split; [exact page_state_reachable|]. split; [exact H3|].
  split; [exact H4|]. split; [exact H5|].
  exact (page_pattern_within_page 16 4 2 false 64 50 3 page_state 2 true
           [8; 8] 8 H1 H2 page_state_reachable H3 H4 H5).
Defined.

Lemma insert_then_buildPattern_witness :
  16 <= INT32_MAX ∧
  reachable (GHBHistory_new 16 4 2 true 64 50) 3 stride_state ∧
  ∃ st' flag deltas,
    insert (mkAccessInfo 192 (Some 256)) stride_state
      = Some (st', head stride_state) ∧
    buildPattern (head stride_state) PC st' = Some (flag, deltas) ∧
    (flag = true ↔
       ∃ v p, key_value (mkAccessInfo 192 (Some 256)) stride_state PC
                = Some v ∧
              array_get PC (lastIndex stride_state) !! v = Some p ∧
              p ≠ head stride_state) ∧
    (∀ v p pe,
       key_value (mkAccessInfo 192 (Some 256)) stride_state PC = Some v →
       array_get PC (lastIndex stride_state) !! v = Some p →
       p ≠ head stride_state →
       history_at stride_state p = Some pe →
       deltas !! 0%nat = Some (delta_of 192 (addr pe))).
Proof.
  assert (H1 : 16 <= INT32_MAX) by (unfold INT32_MAX; lia).
  split; [exact H1|]. split; [exact stride_state_reachable|].
  exact (insert_then_buildPattern 16 4 2 true 64 50 3 stride_state
           (mkAccessInfo 192 (Some 256)) PC H1 stride_state_reachable).
Defined.

Lemma total_is_sum_of_counts_witness :
  reachable (GHBHistory_new 16 4 2 true 64 50) 0 trained_state ∧
  patternTable trained_state !! (64, 64)
    = Some (mkPatternEntry (<[64 := 1]> (<[32 := 1]> ∅)) 2) ∧
  2 = to_uint32 (sum_counts (<[64 := 1]> (<[32 := 1]> ∅))) ∧
  0 <= 2 < UINT32_MOD.
Proof.
  assert (H2 : patternTable trained_state !! (64, 64)
               = Some (mkPatternEntry (<[64 := 1]> (<[32 := 1]> ∅)) 2))
    by (vm_compute; reflexivity).
  split; [exact trained_state_reachable|]. split; [exact H2|].
  exact (total_is_sum_of_counts 16 4 2 true 64 50 0 trained_state (64, 64) _
           trained_state_reachable H2).
Defined.

Lemma trained_key_is_found_witness :
  reachable (GHBHistory_new 16 4 2 true 64 50) 0 (makeHistory 2 50 true) ∧
  (0 + 2 < length [64; 64; 64; 32; 32; 32])%nat ∧
  default 0 (raw_total (patternTable (makeHistory 2 50 true)) (64, 64))
  + key_occurrences [64; 64; 64; 32; 32; 32]
      (triple_positions [64; 64; 64; 32; 32; 32]) (64, 64) < UINT32_MOD ∧
  ∃ delta c,
    findPatternMatch sort_candidates [64; 64] trained_state
      = (true, [delta]) ∧
    raw_count (patternTable trained_state) (64, 64) delta = Some c.
Proof.
  assert (H2 : (0 + 2 < length [64; 64; 64; 32; 32; 32])%nat)
    by (simpl; lia).
  assert (H3 : default 0 (raw_total (patternTable (makeHistory 2 50 true))
                            (64, 64))
               + key_occurrences [64; 64; 64; 32; 32; 32]
                   (triple_positions [64; 64; 64; 32; 32; 32]) (64, 64)
               < UINT32_MOD)
    by (vm_compute; reflexivity).
  split; [exact (reach_init _)|]. split; [exact H2|]. split; [exact H3|].
  exact (trained_key_is_found sort_candidates sort_candidates_permutation
           16 4 2 true 64 50 0 (makeHistory 2 50 true)
           [64; 64; 64; 32; 32; 32] 0 [] (reach_init _) H2 H3).
Defined.

Lemma one_candidate_per_access_witness :
  history_size (mkGHBPrefetcherParams 16 4 2 true 50) <= INT32_MAX ∧
  ∃ pf' emitted,
    calculatePrefetch sort_candidates (blockAddress_of 64) (samePage_of 4096)
      (mkPrefetchInfo 200 (Some 7)) [] test_prefetcher
    = Some (pf', [] ++ emitted) ∧
    (length emitted <= 1)%nat.
Proof.
  assert (H1 : history_size (mkGHBPrefetcherParams 16 4 2 true 50)
               <= INT32_MAX) by (unfold INT32_MAX; simpl; lia).
  split; [exact H1|].
  exact (one_candidate_per_access sort_candidates (blockAddress_of 64)
           (samePage_of 4096) 4096 (mkGHBPrefetcherParams 16 4 2 true 50)
           test_prefetcher (mkPrefetchInfo 200 (Some 7)) [] H1
           (pf_reach_init _ _ _ _)).
Defined.

Lemma cold_access_no_prefetch_witness :
  history_size (mkGHBPrefetcherParams 16 4 2 true 50) <= INT32_MAX ∧
  (∀ key v,
     key_value
       (recorded_access (blockAddress_of 64) (mkPrefetchInfo 200 (Some 7))
          test_prefetcher)
       (historyHelper test_prefetcher) key = Some v →
     array_get key (lastIndex (historyHelper test_prefetcher)) !! v = None) ∧
  ∃ pf',
    calculatePrefetch sort_candidates (blockAddress_of 64) (samePage_of 4096)
      (mkPrefetchInfo 200 (Some 7)) [] test_prefetcher
      = Some (pf', []) ∧
    array_get Page (lastIndex (historyHelper pf'))
      !! computePage (historyHelper test_prefetcher)
           (blockAddress_of 64 (getAddr (mkPrefetchInfo 200 (Some 7))))
      = Some (head (historyHelper test_prefetcher)).
Proof.
  assert (H1 : history_size (mkGHBPrefetcherParams 16 4 2 true 50)
               <= INT32_MAX) by (unfold INT32_MAX; simpl; lia).
  assert (H2 : ∀ key v,
     key_value
       (recorded_access (blockAddress_of 64) (mkPrefetchInfo 200 (Some 7))
          test_prefetcher)
       (historyHelper test_prefetcher) key = Some v →
     array_get key (lastIndex (historyHelper test_prefetcher)) !! v = None).
  { intros [] v _; reflexivity. }
  split; [exact H1|]. split; [exact H2|].
  exact (cold_access_no_prefetch sort_candidates (blockAddress_of 64)
           (samePage_of 4096) 4096 (mkGHBPrefetcherParams 16 4 2 true 50)
           test_prefetcher (mkPrefetchInfo 200 (Some 7)) [] H1
           (pf_reach_init _ _ _ _) H2).
Defined.

Lemma constant_stride_is_prefetched_witness :
  use_pc (mkGHBPrefetcherParams 16 4 2 true 50) = true ∧
  2 <= history_size (mkGHBPrefetcherParams 16 4 2 true 50) <= INT32_MAX ∧
  64 ≠ 0 ∧ - 2 ^ 63 <= 64 < 2 ^ 63 ∧
  Z.of_nat (length stride_accesses) < UINT64_MAX ∧
  (∀ (k : nat) pfi,
     stride_accesses !! k = Some pfi →
     getPC pfi = Some 7 ∧
     blockAddress_of 64 (getAddr pfi) = to_uint64 (4096 + Z.of_nat k * 64)) ∧
  ∃ pf',
    handle_all sort_candidates (blockAddress_of 64) (samePage_of 4096)
      stride_accesses test_prefetcher
    = Some (pf', [[]; [(4224, 0)]; [(4288, 0)]]).
Proof.
  assert (H1 : use_pc (mkGHBPrefetcherParams 16 4 2 true 50) = true)
    by reflexivity.
  assert (H2 : 2 <= history_size (mkGHBPrefetcherParams 16 4 2 true 50)
               <= INT32_MAX) by (unfold INT32_MAX; simpl; lia).
  assert (H3 : 64 ≠ 0) by lia.
  assert (H4 : - 2 ^ 63 <= 64 < 2 ^ 63) by lia.
  assert (H5 : Z.of_nat (length stride_accesses) < UINT64_MAX)
    by (unfold UINT64_MAX; simpl; lia).
  assert (H6 : ∀ (k : nat) pfi,
     stride_accesses !! k = Some pfi →
     getPC pfi = Some 7 ∧
     blockAddress_of 64 (getAddr pfi) = to_uint64 (4096 + Z.of_nat k * 64)).
  { intros [|[|[|k]]] pfi; intros [= <-]; split; reflexivity. }
  split; [exact H1|]. split; [exact H2|]. split; [exact H3|].
  split; [exact H4|]. split; [exact H5|]. split; [exact H6|].
  exact (constant_stride_is_prefetched sort_candidates
           sort_candidates_permutation (blockAddress_of 64)
           (samePage_of 4096) 4096 (mkGHBPrefetcherParams 16 4 2 true 50)
           4096 64 7 stride_accesses H1 H2 H3 H4 H5 H6).
Defined.
